(** * ebay-to-shopify: a shallow embedding of the importer and its properties

    The development follows the three source files of the repository:
    - [lib/map.ts]: the schema reconciler ([buildVariantKey],
      [buildShopifyProductInputFromEbay], [mapEbaySingleItem],
      [mapEbayItemGroup]);
    - [lib/ebay.ts]: the identifier extractor ([parseNumericTail],
      [parseGroupIdFromErrorText]); the network calls are collaborators;
    - [app/api/import/route.ts]: the resolver and the import loop ([POST]).

    JavaScript strings are modelled by [string]; every character stands for
    one code unit below 256.  Sets whose iteration order is observed
    ([Array.from(new Set(..))]) are lists without duplicates in insertion
    order; sets that are only tested for membership are [gset string]. *)

From Stdlib Require Import Strings.Ascii NArith.
From stdpp Require Import base option list strings gmap pretty sorting.

Local Open Scope string_scope.
Local Open Scope list_scope.

#[local] Set Warnings "-clear-no-such-hyp".

(** ** JavaScript string primitives *)

Module Js.

Definition code (c : ascii) : N := N_of_ascii c.

(** White space and line terminators removed by [String.prototype.trim]
    (code units below 256): TAB, LF, VT, FF, CR, SP and NBSP. *)
Definition isWhiteSpace (c : ascii) : bool :=
  let n := code c in
  ((9 <=? n) && (n <=? 13) || (n =? 32) || (n =? 160))%N.

Definition isDigit (c : ascii) : bool :=
  let n := code c in ((48 <=? n) && (n <=? 57))%N.

(** Upper-case letters with a one-unit lower-case partner: A-Z and the
    Latin-1 capitals 0xC0-0xDE without the multiplication sign 0xD7. *)
Definition isUpper (c : ascii) : bool :=
  let n := code c in
  ((65 <=? n) && (n <=? 90) || (192 <=? n) && (n <=? 222) && negb (n =? 215))%N.

Definition toLowerChar (c : ascii) : ascii :=
  if isUpper c then ascii_of_N (code c + 32) else c.

Fixpoint toLowerCase (s : string) : string :=
  match s with
  | "" => ""
  | String c s' => String (toLowerChar c) (toLowerCase s')
  end.

Fixpoint trimStart (s : string) : string :=
  match s with
  | "" => ""
  | String c s' => if isWhiteSpace c then trimStart s' else s
  end.

Fixpoint trimEnd (s : string) : string :=
  match s with
  | "" => ""
  | String c s' =>
      let t := trimEnd s' in
      if isWhiteSpace c && bool_decide (t = "") then "" else String c t
  end.

Definition trim (s : string) : string := trimEnd (trimStart s).

(** [Boolean(s)] for a value that is a string or [undefined]. *)
Definition truthy (v : option string) : bool :=
  match v with
  | Some s => negb (bool_decide (s = ""))
  | None => false
  end.

(** [a || b] where [a] is a string or [undefined] and [b] a string. *)
Definition or_str (a : option string) (b : string) : string :=
  match a with
  | Some s => if bool_decide (s = "") then b else s
  | None => b
  end.

(** [a || b] where both may be [undefined]. *)
Definition or_opt (a b : option string) : option string :=
  if truthy a then a else b.

(** [a ?? b]. *)
Definition nullish (a : option string) (b : string) : string :=
  default b a.

(** [parts.join(sep)]. *)
Fixpoint join (sep : string) (parts : list string) : string :=
  match parts with
  | [] => ""
  | [p] => p
  | p :: rest => p +:+ sep +:+ join sep rest
  end.

(** [Array.from(new Set(xs))]: the elements of [xs] in the order of their
    first occurrence. *)
Definition set_add (acc : list string) (x : string) : list string :=
  if decide (x ∈ acc) then acc else acc ++ [x].

Definition array_from_set (xs : list string) : list string :=
  foldl set_add [] xs.

(** [`${v}`] for a value that is a string or [undefined]. *)
Definition tpl (v : option string) : string := default "undefined" v.

(** [xs.filter(Boolean)] on an array of strings and [undefined]s. *)
Definition filter_truthy (xs : list (option string)) : list string :=
  omap (λ x, if truthy x then x else None) xs.

(** [s.split(sep)] for a one-character separator. *)
Fixpoint split (sep : ascii) (s : string) : list string :=
  match s with
  | "" => [""]
  | String c s' =>
      if bool_decide (c = sep) then "" :: split sep s'
      else match split sep s' with
           | [] => [String c ""]
           | h :: t => String c h :: t
           end
  end.

End Js.

(** ** JavaScript objects read as records

    A plain object (an object literal and what is assigned to it) is
    given by its own properties, here string-valued.  A property that the
    object does not own is read from [Object.prototype]. *)

Module JsObject.

(** The properties of [Object.prototype]. *)
Definition PROTOTYPE_KEYS : list string :=
  ["constructor"; "__defineGetter__"; "__defineSetter__"; "hasOwnProperty";
   "__lookupGetter__"; "__lookupSetter__"; "isPrototypeOf";
   "propertyIsEnumerable"; "toString"; "valueOf"; "__proto__";
   "toLocaleString"].

(** What [o[key]] evaluates to when it is not [undefined]: a string, or
    what [Object.prototype] holds under [key] (a function; under
    [__proto__], [Object.prototype] itself).  The latter is truthy, is
    not a string and has no method [trim]. *)
Inductive value :=
  | Str (s : string)
  | Inherited (key : string).

#[global] Instance value_eq_dec : EqDecision value.
Proof. solve_decision. Defined.

(** [o[key]]. *)
Definition get (o : gmap string string) (key : string) : option value :=
  match o !! key with
  | Some s => Some (Str s)
  | None => if decide (key ∈ PROTOTYPE_KEYS) then Some (Inherited key) else None
  end.

(** [o[key] = v] for a string [v]: the inherited setter of [__proto__]
    ignores a string and creates no own property. *)
Definition set (key v : string) (o : gmap string string) : gmap string string :=
  if bool_decide (key = "__proto__") && bool_decide (o !! key = None) then o
  else <[key := v]> o.

(** [Boolean(v)]. *)
Definition truthy (v : option value) : bool :=
  match v with
  | Some (Str s) => negb (bool_decide (s = ""))
  | Some (Inherited _) => true
  | None => false
  end.

(** [xs.filter(Boolean)]. *)
Definition filter_truthy (xs : list (option value)) : list value :=
  omap (λ x, if truthy x then x else None) xs.

(** [Array.from(new Set(xs))]. *)
Definition set_add (acc : list value) (x : value) : list value :=
  if decide (x ∈ acc) then acc else acc ++ [x].

Definition array_from_set (xs : list value) : list value :=
  foldl set_add [] xs.

End JsObject.

(** ** Exceptions *)

(** A thrown value, as far as [String(e?.message || e)] observes it. *)
Module Exn.
Record t := mk {
  message : option string;
  asString : string          (* [String(e)] *)
}.
End Exn.

(** [new Error(msg)]. *)
Definition Error (msg : string) : Exn.t :=
  Exn.mk (Some msg) (if bool_decide (msg = "") then "Error" else "Error: " +:+ msg).

(** A [TypeError] raised by the engine; the message text is the engine's. *)
Definition TypeError (msg : string) : Exn.t :=
  Exn.mk (Some msg) ("TypeError: " +:+ msg).

(** [String(e?.message || e)], also [`${e?.message || e}`]. *)
Definition errText (e : Exn.t) : string :=
  if Js.truthy (Exn.message e) then default "" (Exn.message e) else Exn.asString e.

Inductive result (A : Type) : Type :=
  | Ok (a : A)
  | Throw (e : Exn.t).
Arguments Ok {A} a.
Arguments Throw {A} e.

(** [xs.forEach(f)] for a callback that updates a state and may throw:
    the state after the last element, or the first exception. *)
Fixpoint forEach {S A : Type} (f : S → A → result S) (st : S) (xs : list A)
    : result S :=
  match xs with
  | [] => Ok st
  | x :: xs' =>
      match f st x with
      | Ok st' => forEach f st' xs'
      | Throw e => Throw e
      end
  end.

(** ** lib/map.ts: variant keys *)

Definition DEFAULT_OPTION_NAME : string := "Title".
Definition DEFAULT_OPTION_VALUE : string := "Default Title".
Definition MAX_SHOPIFY_VARIANTS : nat := 100.

Definition fallbackOptionValue (optionName : string) : string :=
  if bool_decide (optionName = DEFAULT_OPTION_NAME) then DEFAULT_OPTION_VALUE
  else "Default".

Record VariantOptionValue := mkVariantOptionValue {
  optionName : option string;
  name : string
}.

Definition normalizeKeyPart (value : option string) : string :=
  Js.toLowerCase (Js.trim (Js.or_str value "")).

Definition keyPart (opt : VariantOptionValue) : string :=
  let name_ := normalizeKeyPart (Some (Js.or_str (optionName opt) DEFAULT_OPTION_NAME)) in
  let value := normalizeKeyPart (Some (name opt)) in
  name_ +:+ "=" +:+ value.

Definition buildVariantKey (optionValues : list VariantOptionValue)
    (sku : option string) : string :=
  let parts := keyPart <$> optionValues in
  let parts :=
    if Js.truthy sku then parts ++ ["sku=" +:+ normalizeKeyPart sku] else parts in
  Js.join "|" parts.

(** ** lib/map.ts: the canonical product and the platform payload *)

(** A canonical variant; [options] is the record of own string properties. *)
Module Variant.
Record t := mk {
  sku : option string;
  price : string;
  currencyCode : string;
  options : gmap string string;
  imageUrl : option string;
  imageUrls : option (list string)
}.
End Variant.

(** The argument [singleOrGroup] of [buildShopifyProductInputFromEbay]. *)
Module Canonical.
Record t := mk {
  title : option string;
  description : option string;
  imageUrls : list string;
  tags : list string;
  vendor : option string;
  variants : list Variant.t;
  optionsOrder : list string
}.
End Canonical.

Module ProductOption.
Record t := mk {
  name : string;
  position : nat;
  values : list JsObject.value   (* each [{ name: value }] *)
}.
End ProductOption.

Module ProductInput.
Record t := mk {
  title : option string;
  descriptionHtml : string;
  vendor : option string;
  tags : list string;
  status : string;
  productOptions : list ProductOption.t
}.
End ProductInput.

Module VariantInput.
Record t := mk {
  price : string;
  inventoryPolicy : string;
  inventoryItem_sku : option string;   (* [inventoryItem: { sku }] *)
  optionValues : list VariantOptionValue;
  mediaSrc : option (list string)
}.
End VariantInput.

Module VariantAsset.
Record t := mk {
  key : string;
  imageUrls : list string
}.
End VariantAsset.

Module Meta.
Record t := mk { droppedVariants : nat }.
End Meta.

Module Payload.
Record t := mk {
  productInput : ProductInput.t;
  variantInputs : list VariantInput.t;
  variantAssets : list VariantAsset.t;
  meta : option Meta.t
}.
End Payload.

(** An entry of [rawVariantPayloads]. *)
Module RawVariant.
Record t := mk {
  key : string;
  input : VariantInput.t;
  imageUrls : list string
}.
End RawVariant.

Definition uniqueTags (p : Canonical.t) : list string :=
  Js.array_from_set
    (Js.filter_truthy ((λ tag, Some (Js.trim tag)) <$> Canonical.tags p)).

Definition inferredOptions (p : Canonical.t) : list ProductOption.t :=
  imap (λ index name,
    let values :=
      JsObject.array_from_set
        (JsObject.filter_truthy
           ((λ v, JsObject.get (Variant.options v) name) <$> Canonical.variants p)) in
    let values :=
      if bool_decide (length values = 0)
      then [JsObject.Str (fallbackOptionValue name)]
      else values in
    ProductOption.mk name (index + 1) values)
  (Canonical.optionsOrder p).

Definition hasDefinedOptions (p : Canonical.t) : bool :=
  bool_decide (0 < length (inferredOptions p)).

Definition productOptions (p : Canonical.t) : list ProductOption.t :=
  if hasDefinedOptions p then inferredOptions p
  else [ProductOption.mk DEFAULT_OPTION_NAME 1 [JsObject.Str DEFAULT_OPTION_VALUE]].

(** An entry of [optionValues] as the loop builds it: [name] is whatever
    the read of the variant's option gave. *)
Module OptionValue.
Record t := mk {
  optionName : string;
  name : JsObject.value
}.
End OptionValue.

Definition optionValuesOf (p : Canonical.t) (variant : Variant.t)
    : list OptionValue.t :=
  if hasDefinedOptions p then
    (λ option,
       let value :=
         default (JsObject.Str (fallbackOptionValue (ProductOption.name option)))
                 (JsObject.get (Variant.options variant) (ProductOption.name option)) in
       OptionValue.mk (ProductOption.name option) value)
    <$> productOptions p
  else [OptionValue.mk DEFAULT_OPTION_NAME (JsObject.Str DEFAULT_OPTION_VALUE)].

(** The double quote, for message texts. *)
Definition QUOTE : string := String (ascii_of_nat 34) "".

(** The error of [normalizeKeyPart] on a value that is not a string: it
    calls [trim] on [value || QUOTE QUOTE], and a truthy value that is not
    a string has no such method. *)
Definition trimIsNotAFunction : Exn.t :=
  TypeError ("(value || " +:+ QUOTE +:+ QUOTE +:+ ").trim is not a function").

(** The option values as [buildVariantKey] reads them, entry by entry:
    strings, unless an entry makes [normalizeKeyPart] throw. *)
Fixpoint readOptionValues (optionValues : list OptionValue.t)
    : result (list VariantOptionValue) :=
  match optionValues with
  | [] => Ok []
  | opt :: rest =>
      match OptionValue.name opt with
      | JsObject.Str value =>
          match readOptionValues rest with
          | Ok rest' =>
              Ok (mkVariantOptionValue (Some (OptionValue.optionName opt)) value
                    :: rest')
          | Throw e => Throw e
          end
      | JsObject.Inherited _ => Throw trimIsNotAFunction
      end
  end.

Definition imageSources (variant : Variant.t) : list string :=
  Js.array_from_set
    (Js.filter_truthy
       ((Some <$> default [] (Variant.imageUrls variant))
          ++ [Variant.imageUrl variant])).

Definition mediaSrcOf (imageSources : list string) : option (list string) :=
  match imageSources with
  | [] => None
  | src :: _ => Some [src]
  end.

(** One iteration of [singleOrGroup.variants.forEach]: the state is
    [seenVariantKeys] and [rawVariantPayloads]; the call of
    [buildVariantKey] throws when an option value is not a string. *)
Definition variantStep (p : Canonical.t)
    (st : gset string * list RawVariant.t) (variant : Variant.t)
    : result (gset string * list RawVariant.t) :=
  let '(seenVariantKeys, rawVariantPayloads) := st in
  match readOptionValues (optionValuesOf p variant) with
  | Throw e => Throw e
  | Ok optionValues =>
      let variantKey := buildVariantKey optionValues (Variant.sku variant) in
      if decide (variantKey ∈ seenVariantKeys) then Ok st
      else
        let imageSources := imageSources variant in
        let mediaSrc := mediaSrcOf imageSources in
        Ok ({[variantKey]} ∪ seenVariantKeys,
            rawVariantPayloads
              ++ [RawVariant.mk variantKey
                    (VariantInput.mk (Variant.price variant) "DENY"
                       (Variant.sku variant) optionValues mediaSrc)
                    imageSources])
  end.

Definition rawVariantPayloads (p : Canonical.t) : result (list RawVariant.t) :=
  match forEach (variantStep p) (∅, []) (Canonical.variants p) with
  | Ok st => Ok st.2
  | Throw e => Throw e
  end.

Definition buildShopifyProductInputFromEbay (p : Canonical.t) : result Payload.t :=
  let uniqueTags := uniqueTags p in
  let productOptions := productOptions p in
  match rawVariantPayloads p with
  | Throw e => Throw e
  | Ok rawVariantPayloads =>
      let variantPayloads := take MAX_SHOPIFY_VARIANTS rawVariantPayloads in
      let droppedVariants := length rawVariantPayloads - length variantPayloads in
      Ok (Payload.mk
            (ProductInput.mk
               (Canonical.title p)
               (Js.or_str (Canonical.description p) "")
               (if Js.truthy (Canonical.vendor p) then Canonical.vendor p else None)
               uniqueTags
               "ACTIVE"
               productOptions)
            (RawVariant.input <$> variantPayloads)
            ((λ v, VariantAsset.mk (RawVariant.key v) (RawVariant.imageUrls v))
               <$> variantPayloads)
            (if bool_decide (0 < droppedVariants) then Some (Meta.mk droppedVariants)
             else None))
  end.

(** ** lib/map.ts: marketplace payloads *)

(** An aspect value of type [any], as far as [normAspectValue] and
    [toString] observe it: [null]/[undefined], an array (each element
    [null] or given by its [String(v)]), or any other value given by its
    [String(value)]. *)
Inductive AspectValue :=
  | ValNullish
  | ValArray (elems : list (option string))
  | ValScalar (str : string).

Module Aspect.
Record t := mk {
  name : option string;
  value : AspectValue
}.
End Aspect.

Module Price.
Record t := mk {
  value : option string;      (* [String(price.value)] when not nullish *)
  currency : option string
}.
End Price.

(** The fields of a marketplace item or item group that the code reads.
    A field holding an array is [Some] of its elements; a string field is
    [Some] of its text; anything absent is [None]. *)
#[warnings="-register-all"] Inductive EbayData := mkEbayData {
  title : option string;
  description : option string;
  shortDescription : option string;
  categoryPath : option string;
  localizedAspects : option (list Aspect.t);
  additionalAspects : option (list Aspect.t);
  price : option Price.t;
  mpn : option string;
  epid : option string;
  legacyItemId : option string;
  itemId : option string;
  image_imageUrl : option string;                    (* [image?.imageUrl] *)
  additionalImages : option (list (option string));  (* each [x.imageUrl] *)
  itemGroupType : option string;
  itemGroupId : option string;
  items : option (list EbayData);
  itemSummaries : option (list EbayData);
  itemSummariesV2 : option (list EbayData);
  (* [commonDescriptions?.[0]?.description] *)
  commonDescriptions_0_description : option string
}.

Definition emptyEbayData : EbayData :=
  mkEbayData None None None None None None None None None None None None None
             None None None None None None.

(** [value.toString()] of a non-nullish aspect value. *)
Definition aspectToString (v : AspectValue) : option string :=
  match v with
  | ValNullish => None
  | ValArray elems => Some (Js.join "," (default "" <$> elems))
  | ValScalar s => Some s
  end.

Definition getAspect (item : EbayData) (name : string) : option string :=
  let a :=
    match localizedAspects item with
    | Some l => Some l
    | None => additionalAspects item
    end in
  match a with
  | None => None
  | Some a =>
      match list_find (λ x,
              Js.toLowerCase (Js.or_str (Aspect.name x) "") = Js.toLowerCase name) a with
      | Some (_, found) => aspectToString (Aspect.value found)
      | None => None
      end
  end.

Definition categoryTags (categoryPath : option string) : list string :=
  if Js.truthy categoryPath then
    Js.filter_truthy
      ((λ s, Some (Js.trim s)) <$> Js.split "/" (default "" categoryPath))
  else [].

Definition imageCandidatesOf (item : EbayData) : list string :=
  Js.filter_truthy
    (image_imageUrl item :: default [] (additionalImages item)).

Definition priceOf (x : EbayData) : option string :=
  p ← price x; Price.value p.

Definition currencyOf (x : EbayData) : option string :=
  p ← price x; Price.currency p.

(** [mapEbaySingleItem]; [now] is the text of [Date.now()]. *)
Definition mapEbaySingleItem (now : string) (item : EbayData) : Canonical.t :=
  let description :=
    Js.or_str (Js.or_opt (description item) (shortDescription item)) "" in
  let vendor := getAspect item "Brand" in
  let tags := categoryTags (categoryPath item) in
  let tags := if Js.truthy vendor then tags ++ [default "" vendor] else tags in
  let imageUrls := Js.array_from_set (imageCandidatesOf item) in
  let price := default "0.00" (priceOf item) in
  let currencyCode := default "USD" (currencyOf item) in
  let sku :=
    Js.or_str
      (Js.or_opt (Js.or_opt (Js.or_opt (mpn item) (epid item)) (legacyItemId item))
                 (itemId item))
      ("EBAY-" +:+ now) in
  Canonical.mk (title item) (Some description) imageUrls tags vendor
    [Variant.mk (Some sku) price currencyCode ∅ (head imageUrls) (Some imageUrls)]
    [].

Definition nonEmptyArray (f : option (list EbayData)) : bool :=
  match f with
  | Some (_ :: _) => true
  | _ => false
  end.

Definition collectEbayItems (group : option EbayData) : list EbayData :=
  match group with
  | None => []
  | Some group =>
      if nonEmptyArray (items group) then default [] (items group)
      else if nonEmptyArray (itemSummaries group) then default [] (itemSummaries group)
      else if nonEmptyArray (itemSummariesV2 group) then default [] (itemSummariesV2 group)
      else []
  end.

Definition normAspectValue (value : AspectValue) : option string :=
  match value with
  | ValNullish => None
  | ValArray elems =>
      let joined :=
        Js.join " / "
          (Js.filter_truthy ((λ v, Some (Js.trim (default "null" v))) <$> elems)) in
      if bool_decide (joined = "") then None else Some joined
  | ValScalar s =>
      let t := Js.trim s in
      if bool_decide (t = "") then None else Some t
  end.

(** An entry of the [aspectMeta] map; the map itself is kept in insertion
    order as a list of (lower-cased key, entry) pairs. *)
Module AspectMeta.
Record t := mk {
  originalName : string;
  values : list string;      (* a [Set<string>] in insertion order *)
  order : nat
}.
End AspectMeta.

Abbreviation AspectTable := (list (string * AspectMeta.t)).

Definition table_has (key : string) (tbl : AspectTable) : bool :=
  bool_decide (key ∈ tbl.*1).

(** [aspectMeta.get(key)!.values.add(value)]. *)
Fixpoint table_add_value (key value : string) (tbl : AspectTable) : AspectTable :=
  match tbl with
  | [] => []
  | (k, m) :: rest =>
      if bool_decide (k = key) then
        (k, AspectMeta.mk (AspectMeta.originalName m)
              (Js.set_add (AspectMeta.values m) value) (AspectMeta.order m)) :: rest
      else (k, m) :: table_add_value key value rest
  end.

(** The closure [addAspect]; the state is [aspectMeta] and
    [aspectOrderCounter]. *)
Definition addAspect (st : AspectTable * nat) (aspect : Aspect.t)
    : AspectTable * nat :=
  let '(aspectMeta, aspectOrderCounter) := st in
  let name := Js.trim <$> Aspect.name aspect in
  let value := normAspectValue (Aspect.value aspect) in
  if negb (Js.truthy name) || negb (Js.truthy value) then st
  else
    let name := default "" name in
    let value := default "" value in
    let key := Js.toLowerCase name in
    let '(aspectMeta, aspectOrderCounter) :=
      if negb (table_has key aspectMeta) then
        (aspectMeta ++ [(key, AspectMeta.mk name [] aspectOrderCounter)],
         S aspectOrderCounter)
      else (aspectMeta, aspectOrderCounter) in
    (table_add_value key value aspectMeta, aspectOrderCounter).

Definition itemAspects (item : EbayData) : list Aspect.t :=
  default [] (localizedAspects item) ++ default [] (additionalAspects item).

Definition aspectMetaOf (items : list EbayData) : AspectTable :=
  (foldl (λ st item, foldl addAspect st (itemAspects item)) ([], 0) items).1.

Definition DENIED_OPTION_NAMES : list string :=
  ["brand"; "model"; "type"; "unit type"; "unit quantity"; "features"; "style";
   "connectivity"; "contract"; "lock status"; "operating system"].

(** The comparator passed to [sort]. *)
Definition compareMeta (a b : AspectMeta.t) : Z :=
  let diff := (Z.of_nat (length (AspectMeta.values b))
               - Z.of_nat (length (AspectMeta.values a)))%Z in
  if bool_decide (diff ≠ 0%Z) then diff
  else (Z.of_nat (AspectMeta.order a) - Z.of_nat (AspectMeta.order b))%Z.

Module JsSort.
(** [Array.prototype.sort(cmp)]: a stable sort; [x] stays before [y]
    unless [cmp x y > 0]. *)
Section sort.
Context {A : Type} (cmp : A → A → Z).

Fixpoint insert (x : A) (l : list A) : list A :=
  match l with
  | [] => [x]
  | y :: l' =>
      if bool_decide (cmp x y ≤ 0)%Z then x :: l else y :: insert x l'
  end.

Definition sort (l : list A) : list A := foldr insert [] l.
End sort.
End JsSort.

Definition optionMetas (items : list EbayData) : list AspectMeta.t :=
  take 3
    (JsSort.sort compareMeta
       (filter (λ meta, Js.toLowerCase (AspectMeta.originalName meta)
                          ∉ DENIED_OPTION_NAMES)
       (filter (λ meta, (String.length (AspectMeta.originalName meta) ≤ 30)%nat
                        ∧ (length (AspectMeta.values meta) ≤ 50)%nat)
       (filter (λ meta, (1 < length (AspectMeta.values meta))%nat)
          ((aspectMetaOf items).*2))))).

Definition optionNamesOf (items : list EbayData) : list string :=
  AspectMeta.originalName <$> optionMetas items.

Definition variantOfItem (optionNames : list string) (first : EbayData)
    (it : EbayData) : Variant.t :=
  let options :=
    foldl (λ (options : gmap string string) name,
      let fromAspect :=
        list_find (λ a,
          Js.toLowerCase (Js.trim (Js.or_str (Aspect.name a) "")) = Js.toLowerCase name)
          (itemAspects it) in
      let value :=
        normAspectValue
          (match fromAspect with
           | Some (_, a) => Aspect.value a
           | None => ValNullish
           end) in
      if Js.truthy value then JsObject.set name (default "" value) options
      else options)
    ∅ optionNames in
  let price :=
    default "0.00" (match priceOf it with Some v => Some v | None => priceOf first end) in
  let currencyCode :=
    default "USD" (match currencyOf it with Some c => Some c | None => currencyOf first end) in
  let sku :=
    Js.or_opt (Js.or_opt (Js.or_opt (mpn it) (epid it)) (legacyItemId it)) (itemId it) in
  let imageCandidates := imageCandidatesOf it in
  Variant.mk sku price currencyCode options (head imageCandidates)
    (Some imageCandidates).

Definition mapEbayItemGroup (group : option EbayData) : result Canonical.t :=
  let items := collectEbayItems group in
  match group, items with
  | Some group, first :: _ =>
      let title :=
        Js.or_str (Js.or_opt (title group) (title first)) "Imported from eBay" in
      let description :=
        Js.or_str
          (Js.or_opt (Js.or_opt (description group) (description first))
                     (commonDescriptions_0_description group)) "" in
      let vendor := getAspect first "Brand" in
      let tags := categoryTags (categoryPath first) in
      let tags := if Js.truthy vendor then tags ++ [default "" vendor] else tags in
      let optionNames := optionNamesOf items in
      let optionsOrder := optionNames in
      let variants := variantOfItem optionNames first <$> items in
      let imageUrls := Js.array_from_set (items ≫= imageCandidatesOf) in
      Ok (Canonical.mk (Some title) (Some description) imageUrls tags vendor
            variants optionsOrder)
  | _, _ => Throw (Error "eBay group payload missing items")
  end.

(** ** lib/ebay.ts: the identifier extractor *)

Module Regex.

Fixpoint allDigits (s : string) : bool :=
  match s with
  | "" => true
  | String c s' => Js.isDigit c && allDigits s'
  end.

Fixpoint takeDigits (s : string) : string :=
  match s with
  | "" => ""
  | String c s' => if Js.isDigit c then String c (takeDigits s') else ""
  end.

Fixpoint stripPrefix (pre s : string) : option string :=
  match pre, s with
  | "", _ => Some s
  | String a pre', String b s' =>
      if bool_decide (a = b) then stripPrefix pre' s' else None
  | String _ _, "" => None
  end.

(** [s.match(/(\d{min,})$/)?.[1]]: the search tries every start position
    from the left; at a position the greedy digit run must reach the end
    of the input. *)
Fixpoint matchDigitsAtEnd (min : nat) (s : string) : option string :=
  if allDigits s && bool_decide (min ≤ String.length s)%nat then Some s
  else match s with
       | "" => None
       | String _ s' => matchDigitsAtEnd min s'
       end.

(** The capture of [/pre(\d{min,})/] at the start of [s]. *)
Definition prefixDigitsHere (pre : string) (min : nat) (s : string)
    : option string :=
  match stripPrefix pre s with
  | Some rest =>
      let d := takeDigits rest in
      if bool_decide (min ≤ String.length d)%nat then Some d else None
  | None => None
  end.

(** [s.match(/pre(\d{min,})/)?.[1]] for a literal [pre]. *)
Fixpoint matchPrefixDigits (pre : string) (min : nat) (s : string)
    : option string :=
  match prefixDigitsHere pre min s with
  | Some d => Some d
  | None =>
      match s with
      | "" => None
      | String _ s' => matchPrefixDigits pre min s'
      end
  end.

End Regex.

(** The body of [parseNumericTail] once [new URL(url)] has produced a
    pathname. *)
Definition numericTailOfPathname (pathname : string) : option string :=
  let tail := Regex.matchDigitsAtEnd 9 pathname in
  if Js.truthy tail then tail
  else
    match Regex.matchPrefixDigits "/itm/" 9 pathname with
    | Some fromItm => Some fromItm
    | None => None
    end.

Definition parseGroupIdFromErrorText (text : string) : option string :=
  let m := Regex.matchPrefixDigits "item_group_id=" 6 text in
  if Js.truthy m then m else None.

Module Identifiers.
Record t := mk {
  itemId : option string;
  itemGroupId : option string;
  legacyItemId : option string
}.
End Identifiers.

(** *** The scan of the page in [ebayExtractListingIdentifiers]

    Every pattern is the key between quotes, [\s*:\s*], and between
    quotes a captured [+] run of characters other than the quote; the
    quote is the double quote in the first pattern of a field and the
    single quote in the second.  Under the flag [i] the letters of the
    key are compared without case; quotes and colon have no case.  Every
    quantifier is greedy and is followed by a character it cannot match,
    so a match at a position is found without backtracking. *)

Module HtmlScan.

Definition DQUOTE : ascii := ascii_of_nat 34.
Definition SQUOTE : ascii := ascii_of_nat 39.
Definition COLON : ascii := ascii_of_nat 58.

(** The literal [lit], compared without case, at the start of [s]. *)
Fixpoint stripLiteral_i (lit s : string) : option string :=
  match lit, s with
  | "", _ => Some s
  | String p lit', String c s' =>
      if bool_decide (Js.toLowerChar p = Js.toLowerChar c)
      then stripLiteral_i lit' s' else None
  | String _ _, "" => None
  end.

(** The character [p] at the start of [s]. *)
Definition stripChar (p : ascii) (s : string) : option string :=
  match s with
  | String c s' => if bool_decide (c = p) then Some s' else None
  | "" => None
  end.

(** [\s*]. *)
Fixpoint skipSpace (s : string) : string :=
  match s with
  | "" => ""
  | String c s' => if Js.isWhiteSpace c then skipSpace s' else s
  end.

(** [[^q]*] followed by [q]: the run of characters other than [q] up to
    the next [q], if there is one. *)
Fixpoint takeUntilQuote (q : ascii) (s : string) : option string :=
  match s with
  | "" => None
  | String c s' =>
      if bool_decide (c = q) then Some ""
      else String c <$> takeUntilQuote q s'
  end.

(** A match of the pattern for [key] with the quote [q] at the start of
    [s]; the result is the capture group. *)
Definition matchHere (q : ascii) (key s : string) : option string :=
  rest ← stripChar q s;
  rest ← stripLiteral_i key rest;
  rest ← stripChar q rest;
  rest ← stripChar COLON (skipSpace rest);
  rest ← stripChar q (skipSpace rest);
  v ← takeUntilQuote q rest;
  if bool_decide (v = "") then None else Some v.

(** [html.match(pattern)?.[1]]: the capture of the leftmost match. *)
Fixpoint matchPattern (q : ascii) (key s : string) : option string :=
  match matchHere q key s with
  | Some v => Some v
  | None =>
      match s with
      | "" => None
      | String _ s' => matchPattern q key s'
      end
  end.

(** The closure [matchValue]. *)
Fixpoint matchValue (html : string) (patterns : list (ascii * string))
    : option string :=
  match patterns with
  | [] => None
  | (q, key) :: patterns' =>
      let m1 := matchPattern q key html in
      if Js.truthy m1 then m1 else matchValue html patterns'
  end.

End HtmlScan.

(** [ebayExtractListingIdentifiers] once the page has been fetched; [html]
    is the text of the response. *)
Definition identifiersOfHtml (html : string) : option Identifiers.t :=
  let identifiers :=
    Identifiers.mk
      (HtmlScan.matchValue html
         [(HtmlScan.DQUOTE, "itemId"); (HtmlScan.SQUOTE, "itemId")])
      (HtmlScan.matchValue html
         [(HtmlScan.DQUOTE, "itemGroupId"); (HtmlScan.SQUOTE, "itemGroupId")])
      (HtmlScan.matchValue html
         [(HtmlScan.DQUOTE, "legacyItemId"); (HtmlScan.SQUOTE, "legacyItemId")]) in
  if Js.truthy (Identifiers.itemId identifiers)
     || Js.truthy (Identifiers.itemGroupId identifiers)
     || Js.truthy (Identifiers.legacyItemId identifiers)
  then Some identifiers else None.

(** *** The application token ([getAppToken])

    The module-level [cachedToken] is threaded through the call; times
    are whole seconds. *)

Module Token.
Record t := mk {
  access_token : string;
  expires_at : Z
}.
End Token.

(** The response of the token endpoint, as far as [getAppToken] reads it. *)
Module OAuthReply.
Record t := mk {
  ok : bool;
  status : string;            (* [`${res.status}`] *)
  text : string;              (* [await res.text()] *)
  json_access_token : string;
  json_expires_in : Z
}.
End OAuthReply.

Section AppToken.
Context {World : Type}.
(** [Math.floor(Date.now() / 1000)]. *)
Variable nowSeconds : World → Z.
(** The [fetch] of the token endpoint with the reading of its body; it
    throws when the request or the parsing of the body fails. *)
Variable fetchToken : World → result OAuthReply.t * World.

Definition getAppToken (cachedToken : option Token.t) (w : World)
    : result string * option Token.t * World :=
  let now := nowSeconds w in
  let hit :=
    match cachedToken with
    | Some t =>
        if bool_decide (Token.expires_at t - 60 > now)%Z
        then Some (Token.access_token t) else None
    | None => None
    end in
  match hit with
  | Some token => (Ok token, cachedToken, w)
  | None =>
    match fetchToken w with
    | (Throw e, w') => (Throw e, cachedToken, w')
    | (Ok res, w') =>
        if negb (OAuthReply.ok res) then
          (Throw (Error ("eBay OAuth failed: " +:+ OAuthReply.status res +:+ " "
                         +:+ OAuthReply.text res)),
           cachedToken, w')
        else
          let cachedToken :=
            Token.mk (OAuthReply.json_access_token res)
                     (nowSeconds w' + OAuthReply.json_expires_in res) in
          (Ok (Token.access_token cachedToken), Some cachedToken, w')
    end
  end.

End AppToken.

(** ** lib/shopify.ts: platform records *)

Module Product.
Record t := mk {
  id : string;
  handle : string;
  title : string
}.
End Product.

Module MediaInput.
Record t := mk {
  originalSource : string;
  alt : string;
  mediaContentType : string
}.
End MediaInput.

Module SelectedOption.
Record t := mk {
  name : option string;
  value : option string
}.
End SelectedOption.

Module CreatedVariant.
Record t := mk {
  id : string;
  sku : option string;
  selectedOptions : option (list SelectedOption.t)
}.
End CreatedVariant.

Module VariantMedia.
Record t := mk {
  variantId : string;
  mediaIds : list string
}.
End VariantMedia.

(** ** Collaborators

    The remote calls of [lib/ebay.ts] and [lib/shopify.ts] and the
    platform's [URL] parser.  A call takes the state of the outside world
    and returns its outcome with the new state. *)

Class Collaborators (World : Type) := {
  (** [new URL(url).pathname]; [None] when the constructor throws. *)
  URL_pathname : string → option string;
  (** The text of [Date.now()]. *)
  Date_now : World → string;
  (** [process.env.SHOPIFY_SHOP]. *)
  SHOPIFY_SHOP : option string;
  ebayGetItemByLegacyId : string → World → result (option EbayData) * World;
  ebayGetItem : string → World → result (option EbayData) * World;
  ebayGetItemGroup : string → World → result (option EbayData) * World;
  ebayGetItemsByItemGroup : string → World → result (option EbayData) * World;
  ebayExtractListingIdentifiers :
    string → World → result (option Identifiers.t) * World;
  productCreate : ProductInput.t → World → result Product.t * World;
  (** The created media, each given by its [media?.id]. *)
  productCreateMedia :
    string → list MediaInput.t → World → result (list (option string)) * World;
  (** The mutation behind [productVariantsBulkCreate]. *)
  productVariantsBulkCreate_gql :
    string → list VariantInput.t → World → result (list CreatedVariant.t) * World;
  (** The mutation behind [productVariantAppendMedia]. *)
  productVariantAppendMedia_gql :
    string → list VariantMedia.t → World → result unit * World
}.

Definition parseNumericTail `{Collaborators World} (url : string)
    : option string :=
  match URL_pathname url with
  | Some pathname => numericTailOfPathname pathname
  | None => None
  end.

Definition productVariantsBulkCreate `{Collaborators World}
    (productId : string) (variants : list VariantInput.t) (w : World)
    : result (list CreatedVariant.t) * World :=
  if bool_decide (length variants = 0) then (Ok [], w)
  else productVariantsBulkCreate_gql productId variants w.

Definition productVariantAppendMedia `{Collaborators World}
    (productId : string) (variantMedia : list VariantMedia.t) (w : World)
    : result unit * World :=
  if bool_decide (length variantMedia = 0) then (Ok (), w)
  else productVariantAppendMedia_gql productId variantMedia w.

(** ** app/api/import/route.ts *)

Module ImportResult.
Record t := mk {
  sourceUrl : string;
  legacyItemId : option string;
  productId : option string;
  handle : option string;
  title : option string;
  variants : option nat;
  status : string;
  error : option string;
  shopifyUrl : option string
}.

Definition set_legacyItemId (v : option string) (r : t) : t :=
  mk (sourceUrl r) v (productId r) (handle r) (title r) (variants r)
     (status r) (error r) (shopifyUrl r).

Definition set_created (p : Product.t) (r : t) : t :=
  mk (sourceUrl r) (legacyItemId r) (Some (Product.id p)) (Some (Product.handle p))
     (Some (Product.title p)) (variants r) (status r) (error r) (shopifyUrl r).

Definition set_variants (n : nat) (url : string) (r : t) : t :=
  mk (sourceUrl r) (legacyItemId r) (productId r) (handle r) (title r) (Some n)
     (status r) (error r) (Some url).

Definition set_error (e : string) (r : t) : t :=
  mk (sourceUrl r) (legacyItemId r) (productId r) (handle r) (title r)
     (variants r) (status r) (Some e) (shopifyUrl r).

Definition set_status (s : string) (r : t) : t :=
  mk (sourceUrl r) (legacyItemId r) (productId r) (handle r) (title r)
     (variants r) s (error r) (shopifyUrl r).
End ImportResult.

Definition NL : string := String (ascii_of_nat 10) "".

(** *** The resolver's recovery state

    The variables captured by the closures of the [catch] block:
    [itemOrGroup] holds [None] while it is falsy. *)
Module Ctx.
Record t := mk {
  itemOrGroup : option EbayData;
  isGroup : bool;
  attemptNotes : list string;
  attemptedGroupIds : gset string;
  attemptedLegacyIds : gset string;
  attemptedItemIds : gset string;
  scrapedIds : option (option Identifiers.t)   (* [None] is [undefined] *)
}.

Definition set_itemOrGroup (v : option EbayData) (c : t) : t :=
  mk v (isGroup c) (attemptNotes c) (attemptedGroupIds c)
     (attemptedLegacyIds c) (attemptedItemIds c) (scrapedIds c).

Definition set_isGroup (b : bool) (c : t) : t :=
  mk (itemOrGroup c) b (attemptNotes c) (attemptedGroupIds c)
     (attemptedLegacyIds c) (attemptedItemIds c) (scrapedIds c).

Definition push_note (note : string) (c : t) : t :=
  mk (itemOrGroup c) (isGroup c) (attemptNotes c ++ [note]) (attemptedGroupIds c)
     (attemptedLegacyIds c) (attemptedItemIds c) (scrapedIds c).

Definition add_group (id : string) (c : t) : t :=
  mk (itemOrGroup c) (isGroup c) (attemptNotes c) ({[id]} ∪ attemptedGroupIds c)
     (attemptedLegacyIds c) (attemptedItemIds c) (scrapedIds c).

Definition add_legacy (id : string) (c : t) : t :=
  mk (itemOrGroup c) (isGroup c) (attemptNotes c) (attemptedGroupIds c)
     ({[id]} ∪ attemptedLegacyIds c) (attemptedItemIds c) (scrapedIds c).

Definition add_item (id : string) (c : t) : t :=
  mk (itemOrGroup c) (isGroup c) (attemptNotes c) (attemptedGroupIds c)
     (attemptedLegacyIds c) ({[id]} ∪ attemptedItemIds c) (scrapedIds c).

Definition set_scrapedIds (v : option Identifiers.t) (c : t) : t :=
  mk (itemOrGroup c) (isGroup c) (attemptNotes c) (attemptedGroupIds c)
     (attemptedLegacyIds c) (attemptedItemIds c) (Some v).
End Ctx.

Definition normalizeGroupResponse (data : option EbayData) : option EbayData :=
  match data with
  | None => None
  | Some data =>
      let items_ :=
        match items data with
        | Some l => l
        | None =>
            match itemSummaries data with
            | Some l => l
            | None =>
                match itemSummariesV2 data with
                | Some l => l
                | None => []
                end
            end
        end in
      let first := default emptyEbayData (head items_) in
      Some (mkEbayData
              (Js.or_opt (title data) (title first))
              (Js.or_opt (description data) (description first))
              (shortDescription data) (categoryPath data)
              (localizedAspects data) (additionalAspects data) (price data)
              (mpn data) (epid data) (legacyItemId data) (itemId data)
              (image_imageUrl data) (additionalImages data)
              (itemGroupType data) (itemGroupId data)
              (Some items_) (itemSummaries data) (itemSummariesV2 data)
              (commonDescriptions_0_description data))
  end.

Section Resolver.
Context `{Collaborators World}.

Definition attemptNote (label id outcome : string) : string :=
  label +:+ "(" +:+ id +:+ "): " +:+ outcome.

Definition ensureScraped (sourceUrl : string) (c : Ctx.t) (w : World)
    : option Identifiers.t * Ctx.t * World :=
  match Ctx.scrapedIds c with
  | Some scraped => (scraped, c, w)
  | None =>
      match ebayExtractListingIdentifiers sourceUrl w with
      | (Ok scraped, w') =>
          let c := Ctx.set_scrapedIds scraped c in
          let c :=
            if scraped is None
            then Ctx.push_note "scrape: no identifiers found in HTML" c else c in
          (scraped, c, w')
      | (Throw scrapeErr, w') =>
          let c := Ctx.push_note ("scrape: " +:+ errText scrapeErr) c in
          (None, Ctx.set_scrapedIds None c, w')
      end
  end.

Definition tryLegacyId (id : option string) (c : Ctx.t) (w : World)
    : Ctx.t * World :=
  if negb (Js.truthy id) || bool_decide (is_Some (Ctx.itemOrGroup c)) then (c, w)
  else
    let id := default "" id in
    if decide (id ∈ Ctx.attemptedLegacyIds c) then (c, w)
    else
      let c := Ctx.add_legacy id c in
      match ebayGetItemByLegacyId id w with
      | (Ok data, w') =>
          (Ctx.push_note (attemptNote "legacy" id "success")
             (Ctx.set_itemOrGroup data c), w')
      | (Throw legacyErr, w') =>
          (Ctx.push_note (attemptNote "legacy" id (errText legacyErr)) c, w')
      end.

(** One iteration of the loop over [attempts] in [tryGroupId]. *)
Definition groupAttempt (id : string) (st : Ctx.t * World)
    (attempt : string * (string → World → result (option EbayData) * World))
    : Ctx.t * World :=
  let '(c, w) := st in
  let '(label, fn) := attempt in
  if bool_decide (is_Some (Ctx.itemOrGroup c)) then (c, w)
  else
    match fn id w with
    | (Ok raw, w') =>
        (Ctx.push_note (attemptNote label id "success")
           (Ctx.set_isGroup true
              (Ctx.set_itemOrGroup (normalizeGroupResponse raw) c)), w')
    | (Throw groupErr, w') =>
        (Ctx.push_note (attemptNote label id (errText groupErr)) c, w')
    end.

Definition tryGroupId (id : option string) (c : Ctx.t) (w : World)
    : Ctx.t * World :=
  if negb (Js.truthy id) || bool_decide (is_Some (Ctx.itemOrGroup c)) then (c, w)
  else
    let id := default "" id in
    if decide (id ∈ Ctx.attemptedGroupIds c) then (c, w)
    else
      let c := Ctx.add_group id c in
      let attempts :=
        [("item_group", ebayGetItemGroup);
         ("get_items_by_item_group", ebayGetItemsByItemGroup)] in
      foldl (groupAttempt id) (c, w) attempts.

Definition tryItemId (id : option string) (c : Ctx.t) (w : World)
    : Ctx.t * World :=
  if negb (Js.truthy id) || bool_decide (is_Some (Ctx.itemOrGroup c)) then (c, w)
  else
    let id := default "" id in
    if decide (id ∈ Ctx.attemptedItemIds c) then (c, w)
    else
      let c := Ctx.add_item id c in
      match ebayGetItem id w with
      | (Ok data, w') =>
          (Ctx.push_note (attemptNote "item" id "success")
             (Ctx.set_isGroup false (Ctx.set_itemOrGroup data c)), w')
      | (Throw itemErr, w') =>
          (Ctx.push_note (attemptNote "item" id (errText itemErr)) c, w')
      end.

(** The scrape-assisted retries (step "scrape identifiers from HTML"). *)
Definition scrapeRetries (sourceUrl numeric : string) (c : Ctx.t) (w : World)
    : Ctx.t * World :=
  if bool_decide (is_Some (Ctx.itemOrGroup c)) then (c, w)
  else
    let '(scraped, c, w) := ensureScraped sourceUrl c w in
    let scrapedLegacy := scraped ≫= Identifiers.legacyItemId in
    let '(c, w) :=
      if Js.truthy scrapedLegacy && bool_decide (scrapedLegacy ≠ Some numeric)
      then tryLegacyId scrapedLegacy c w else (c, w) in
    let scrapedGroup := scraped ≫= Identifiers.itemGroupId in
    if negb (bool_decide (is_Some (Ctx.itemOrGroup c)))
       && Js.truthy scrapedGroup && bool_decide (scrapedGroup ≠ Some numeric)
    then tryGroupId scrapedGroup c w else (c, w).

Definition candidateItemIds (scraped : option Identifiers.t) (numeric : string)
    : list string :=
  let scrapedLegacy := scraped ≫= Identifiers.legacyItemId in
  Js.array_from_set
    (Js.filter_truthy
       [scraped ≫= Identifiers.itemId;
        if Js.truthy scrapedLegacy
        then Some ("v1|" +:+ default "" scrapedLegacy +:+ "|0") else None;
        Some ("v1|" +:+ numeric +:+ "|0");
        Some numeric]).

(** The direct item fetches (step "Attempt direct item fetch"). *)
Definition directItemFetches (numeric : string) (c : Ctx.t) (w : World)
    : Ctx.t * World :=
  if bool_decide (is_Some (Ctx.itemOrGroup c)) then (c, w)
  else
    let scraped := default None (Ctx.scrapedIds c) in
    foldl (λ st candidate,
             let '(c, w) := st in
             if bool_decide (is_Some (Ctx.itemOrGroup c)) then (c, w)
             else tryItemId (Some candidate) c w)
          (c, w) (candidateItemIds scraped numeric).

(** The state of the [catch] block when it is entered with the error of
    the first legacy lookup. *)
Definition recoveryStart (numeric msg : string) : Ctx.t :=
  Ctx.mk None false [attemptNote "legacy" numeric msg] ∅ {[numeric]} ∅ None.

(** The [catch] block up to, and without, its final [throw]. *)
Definition recover (sourceUrl numeric : string) (err : Exn.t) (w : World)
    : Ctx.t * World :=
  let msg := errText err in
  let c := recoveryStart numeric msg in
  let hintedGroup := parseGroupIdFromErrorText msg in
  let '(c, w) := tryGroupId hintedGroup c w in
  let '(c, w) := tryGroupId (Some numeric) c w in
  let '(c, w) := scrapeRetries sourceUrl numeric c w in
  directItemFetches numeric c w.

Definition exhaustedError (sourceUrl : string) (attemptNotes : list string)
    : Exn.t :=
  Error ("Unable to fetch eBay data for " +:+ sourceUrl
         +:+ " after multiple attempts:" +:+ NL +:+ Js.join NL attemptNotes).

(** Step 1 of the [try] body: the value of [itemOrGroup] and [isGroup]
    after the inner [try]/[catch], or the error thrown out of it. *)
Definition resolve (sourceUrl numeric : string) (w : World)
    : result (option EbayData * bool) * World :=
  match ebayGetItemByLegacyId numeric w with
  | (Ok data, w') => (Ok (data, false), w')
  | (Throw err, w') =>
      let '(c, w'') := recover sourceUrl numeric err w' in
      match Ctx.itemOrGroup c with
      | Some data => (Ok (Some data, Ctx.isGroup c), w'')
      | None => (Throw (exhaustedError sourceUrl (Ctx.attemptNotes c)), w'')
      end
  end.

End Resolver.

(** *** The import of one URL

    The [try] body of the loop mutates the result record [r] and calls
    the collaborators; [M A] is a computation over [r] and the world that
    returns an [A] or throws. *)

(** The parsed request body and the response of [POST]. *)
Module Body.
Record t := mk {
  url : option string;
  urls : option (list string)
}.
End Body.

Inductive Response :=
  | Json (results : list ImportResult.t)        (* status 200 *)
  | JsonError (status : nat) (error : string).

Section ImportLoop.
Context `{Collaborators World}.

Definition M (A : Type) : Type :=
  ImportResult.t → World → result A * ImportResult.t * World.

Definition ret {A} (a : A) : M A := λ r w, (Ok a, r, w).

Definition bind {A B} (m : M A) (k : A → M B) : M B :=
  λ r w,
    match m r w with
    | (Ok a, r', w') => k a r' w'
    | (Throw e, r', w') => (Throw e, r', w')
    end.

Definition throw {A} (e : Exn.t) : M A := λ r w, (Throw e, r, w).

(** [await f(..)] for a collaborator call. *)
Definition call {A} (f : World → result A * World) : M A :=
  λ r w, let '(o, w') := f w in (o, r, w').

Definition lift {A} (o : result A) : M A := λ r w, (o, r, w).

Definition modify_r (f : ImportResult.t → ImportResult.t) : M unit :=
  λ r w, (Ok (), f r, w).

Definition get_r : M ImportResult.t := λ r w, (Ok r, r, w).

Definition get_now : M string := λ r w, (Ok (Date_now w), r, w).

Notation "x <- m ;; k" := (bind m (λ x, k))
  (at level 100, m at next level, right associativity, only parsing).
Notation "m ;;; k" := (bind m (λ _, k))
  (at level 100, right associativity, only parsing).

Definition pushImage (st : gset string * list string) (url : option string)
    : gset string * list string :=
  let '(seenImages, orderedImages) := st in
  if negb (Js.truthy url) then st
  else
    let url := default "" url in
    if decide (url ∈ seenImages) then st
    else ({[url]} ∪ seenImages, orderedImages ++ [url]).

Definition orderedImagesOf (variantAssets : list VariantAsset.t)
    (payloadImageUrls : list string) : list string :=
  let st :=
    foldl (λ st asset,
             if bool_decide (0 < length (VariantAsset.imageUrls asset))
             then pushImage st (head (VariantAsset.imageUrls asset)) else st)
          (∅, []) variantAssets in
  (foldl (λ st url, pushImage st (Some url)) st payloadImageUrls).2.

Definition MEDIA_UPLOAD_LIMIT : nat := 100.

Definition mediaInputsOf (title : option string) (orderedImages : list string)
    : list MediaInput.t :=
  imap (λ idx src,
          MediaInput.mk src
            (Js.tpl title +:+ " (Image " +:+ pretty (idx + 1) +:+ ")") "IMAGE")
       (take MEDIA_UPLOAD_LIMIT orderedImages).

Definition mediaIdByUrlOf (mediaInputs : list MediaInput.t)
    (createdMedia : list (option string)) : gmap string string :=
  foldl (λ (m : gmap string string) i,
           let media_id := mjoin (createdMedia !! i) in
           match mediaInputs !! i with
           | Some input =>
               if Js.truthy media_id
                  && Js.truthy (Some (MediaInput.originalSource input))
               then <[MediaInput.originalSource input := default "" media_id]> m
               else m
           | None => m
           end)
        ∅ (seq 0 (length mediaInputs)).

Definition variantAssetMapOf (variantAssets : list VariantAsset.t)
    : gmap string (list string) :=
  foldl (λ (m : gmap string (list string)) asset,
           <[VariantAsset.key asset := VariantAsset.imageUrls asset]> m)
        ∅ variantAssets.

(** The key of a created variant; a missing [opt?.value] is normalised
    like the empty string by [normalizeKeyPart]. *)
Definition createdVariantKey (variant : CreatedVariant.t) : string :=
  let optionValues :=
    (λ opt, mkVariantOptionValue (SelectedOption.name opt)
              (default "" (SelectedOption.value opt)))
    <$> default [] (CreatedVariant.selectedOptions variant) in
  buildVariantKey optionValues (CreatedVariant.sku variant).

Definition variantMediaPayloadOf (variantAssetMap : gmap string (list string))
    (mediaIdByUrl : gmap string string) (createdVariants : list CreatedVariant.t)
    : list VariantMedia.t :=
  foldl (λ variantMediaPayload variant,
           let key := createdVariantKey variant in
           let candidateUrls := default [] (variantAssetMap !! key) in
           let mediaIds :=
             foldl (λ mediaIds url,
                      let mediaId := mediaIdByUrl !! url in
                      if Js.truthy mediaId
                         && negb (bool_decide (default "" mediaId ∈ mediaIds))
                      then mediaIds ++ [default "" mediaId] else mediaIds)
                   [] candidateUrls in
           if bool_decide (0 < length mediaIds)
           then variantMediaPayload
                  ++ [VariantMedia.mk (CreatedVariant.id variant) mediaIds]
           else variantMediaPayload)
        [] createdVariants.

Definition lastSegment (id : string) : option string :=
  last (Js.split "/" id).

Definition droppedWarning (n : nat) : string :=
  "Skipped " +:+ pretty n +:+ " variants due to Shopify 100 variant limit".

(** The choice of the mapping after resolution. *)
Definition payloadOf (itemOrGroup : option EbayData) (isGroup : bool)
    : M Canonical.t :=
  if isGroup then lift (mapEbayItemGroup itemOrGroup)
  else
    match itemOrGroup with
    | None =>
        throw (TypeError "Cannot read properties of null (reading 'itemGroupType')")
    | Some item =>
        if Js.truthy (itemGroupType item) && Js.truthy (itemGroupId item)
        then
          group <- call (ebayGetItemGroup (default "" (itemGroupId item))) ;;
          lift (mapEbayItemGroup group)
        else
          now <- get_now ;;
          ret (mapEbaySingleItem now item)
    end.

(** The body of the [try] block of one loop iteration. *)
Definition importBody (sourceUrl : string) : M unit :=
  let numeric := parseNumericTail sourceUrl in
  (if negb (Js.truthy numeric)
   then throw (Error "Cannot parse numeric id from URL") else ret ()) ;;;
  modify_r (ImportResult.set_legacyItemId numeric) ;;;
  let numeric := default "" numeric in
  resolved <- call (resolve sourceUrl numeric) ;;
  let '(itemOrGroup, isGroup) := resolved in
  payload <- payloadOf itemOrGroup isGroup ;;
  built <- lift (buildShopifyProductInputFromEbay payload) ;;
  let productInput := Payload.productInput built in
  let variantInputs := Payload.variantInputs built in
  let variantAssets := Payload.variantAssets built in
  let meta := Payload.meta built in
  created <- call (productCreate productInput) ;;
  modify_r (ImportResult.set_created created) ;;;
  let orderedImages := orderedImagesOf variantAssets (Canonical.imageUrls payload) in
  let mediaInputs := mediaInputsOf (ProductInput.title productInput) orderedImages in
  mediaIdByUrl <-
    (if bool_decide (0 < length mediaInputs) then
       createdMedia <- call (productCreateMedia (Product.id created) mediaInputs) ;;
       ret (mediaIdByUrlOf mediaInputs createdMedia)
     else ret ∅) ;;
  createdVariants <-
    call (productVariantsBulkCreate (Product.id created) variantInputs) ;;
  modify_r (ImportResult.set_variants (length createdVariants)
              ("https://" +:+ Js.tpl SHOPIFY_SHOP +:+ "/admin/products/"
               +:+ Js.tpl (lastSegment (Product.id created)))) ;;;
  let variantAssetMap := variantAssetMapOf variantAssets in
  let variantMediaPayload :=
    variantMediaPayloadOf variantAssetMap mediaIdByUrl createdVariants in
  (if bool_decide (0 < length variantMediaPayload)
   then call (productVariantAppendMedia (Product.id created) variantMediaPayload)
   else ret ()) ;;;
  (match meta with
   | Some m =>
       if bool_decide (Meta.droppedVariants m ≠ 0) then
         let warning := droppedWarning (Meta.droppedVariants m) in
         modify_r (λ r,
           ImportResult.set_error
             (if Js.truthy (ImportResult.error r)
              then default "" (ImportResult.error r) +:+ NL +:+ warning
              else warning) r)
       else ret ()
   | None => ret ()
   end) ;;;
  modify_r (ImportResult.set_status "created").

(** One loop iteration up to [results.push(r)]: the [try] body and its
    [catch]. *)
Definition importUrl (sourceUrl : string) (w : World) : ImportResult.t * World :=
  let r := ImportResult.mk sourceUrl None None None None None "failed" None None in
  match importBody sourceUrl r w with
  | (Ok _, r, w') => (r, w')
  | (Throw e, r, w') =>
      (ImportResult.set_status "failed" (ImportResult.set_error (errText e) r), w')
  end.

(** [importedCache.unshift(r); if (importedCache.length > 50) importedCache.pop()]. *)
Definition pushHistory (r : ImportResult.t) (importedCache : list ImportResult.t)
    : list ImportResult.t :=
  let importedCache := r :: importedCache in
  if bool_decide (50 < length importedCache) then removelast importedCache
  else importedCache.

(** The process state: the outside world and the module-level
    [importedCache]. *)
Definition importLoopStep (st : list ImportResult.t * World * list ImportResult.t)
    (sourceUrl : string) : list ImportResult.t * World * list ImportResult.t :=
  let '(results, w, importedCache) := st in
  let '(r, w) := importUrl sourceUrl w in
  (results ++ [r], w, pushHistory r importedCache).

Definition requestUrls (body : option Body.t) : list string :=
  let raw :=
    match body ≫= Body.urls with
    | Some l => l
    | None =>
        if Js.truthy (body ≫= Body.url) then [default "" (body ≫= Body.url)] else []
    end in
  Js.filter_truthy (Some <$> raw).

(** [POST]; [req_json] is the outcome of [await req.json()]. *)
Definition POST (req_json : result (option Body.t)) (w : World)
    (importedCache : list ImportResult.t)
    : Response * World * list ImportResult.t :=
  match req_json with
  | Throw e => (JsonError 500 (errText e), w, importedCache)
  | Ok body =>
      let urls := requestUrls body in
      if bool_decide (length urls = 0)
      then (JsonError 400 "Missing url/urls", w, importedCache)
      else
        let '(results, w, importedCache) :=
          foldl importLoopStep ([], w, importedCache) urls in
        (Json results, w, importedCache)
  end.

Definition _getImportedCache (importedCache : list ImportResult.t)
    : list ImportResult.t := importedCache.

End ImportLoop.

(** * Specification-level notions *)

(** ** Variant keys (buildVariantKey) *)

(** [eq_case_ws a b]: [a] and [b] are equal up to the case of their letters
    and up to white space added or removed at either end. *)
Inductive eq_case_ws : string → string → Prop :=
  | ecw_refl s : eq_case_ws s s
  | ecw_sym a b : eq_case_ws a b → eq_case_ws b a
  | ecw_trans a b c : eq_case_ws a b → eq_case_ws b c → eq_case_ws a c
  | ecw_case s1 c c' s2 :
      Js.toLowerChar c = Js.toLowerChar c' →
      eq_case_ws (s1 +:+ String c s2) (s1 +:+ String c' s2)
  | ecw_lead w s : Js.isWhiteSpace w = true → eq_case_ws s (String w s)
  | ecw_trail w s : Js.isWhiteSpace w = true → eq_case_ws s (s +:+ String w "").

(** The same for a value that may be absent. *)
Inductive eq_case_ws_opt : option string → option string → Prop :=
  | ecwo_none : eq_case_ws_opt None None
  | ecwo_some a b : eq_case_ws a b → eq_case_ws_opt (Some a) (Some b).

(** Componentwise equality of two option values up to case and white space. *)
Definition optionValue_equiv (x y : VariantOptionValue) : Prop :=
  eq_case_ws_opt (optionName x) (optionName y) ∧ eq_case_ws (name x) (name y).

(** Both absent-or-empty, or both non-empty. *)
Definition same_presence (a b : option string) : Prop :=
  Js.truthy a = Js.truthy b.

(** ** The variant loop of buildShopifyProductInputFromEbay *)

(** [variant] has an own value for every axis whose name is also a
    property of [Object.prototype]: no read of an option leaves the
    variant's own options. *)
Definition readsOwn (p : Canonical.t) (variant : Variant.t) : Prop :=
  Forall (λ name, name ∈ JsObject.PROTOTYPE_KEYS
                  → is_Some (Variant.options variant !! name))
         (Canonical.optionsOrder p).

#[global] Instance readsOwn_dec (p : Canonical.t) (variant : Variant.t)
  : Decision (readsOwn p variant).
Proof. unfold readsOwn. apply _. Defined.

(** The option values of a variant: for each axis, in order, the
    variant's own value or else the axis's fallback value; the default
    pair when there is no axis. *)
Definition ownOptionValues (p : Canonical.t) (variant : Variant.t)
    : list VariantOptionValue :=
  if bool_decide (Canonical.optionsOrder p = [])
  then [mkVariantOptionValue (Some DEFAULT_OPTION_NAME) DEFAULT_OPTION_VALUE]
  else
    (λ name, mkVariantOptionValue (Some name)
               (default (fallbackOptionValue name) (Variant.options variant !! name)))
    <$> Canonical.optionsOrder p.

Definition variantKeyOf (p : Canonical.t) (variant : Variant.t) : string :=
  buildVariantKey (ownOptionValues p variant) (Variant.sku variant).

(** The variant input and the asset built from a variant. *)
Definition inputOf (p : Canonical.t) (variant : Variant.t) : VariantInput.t :=
  VariantInput.mk (Variant.price variant) "DENY" (Variant.sku variant)
    (ownOptionValues p variant) (mediaSrcOf (imageSources variant)).

Definition assetOf (p : Canonical.t) (variant : Variant.t) : VariantAsset.t :=
  VariantAsset.mk (variantKeyOf p variant) (imageSources variant).

(** The entry of [rawVariantPayloads] built from a variant. *)
Definition rawPayloadOf (p : Canonical.t) (variant : Variant.t) : RawVariant.t :=
  RawVariant.mk (variantKeyOf p variant) (inputOf p variant) (imageSources variant).

(** [v] is the variant at index [i] of [l] and no earlier variant of [l]
    has its key. *)
Definition firstWithKey (p : Canonical.t) (l : list Variant.t) (i : nat)
    (v : Variant.t) : Prop :=
  l !! i = Some v ∧
  ∀ j y, (j < i)%nat → l !! j = Some y → variantKeyOf p y ≠ variantKeyOf p v.

(** The deduplicated variants: the variants of [l], in the order of [l],
    whose key is not the key of an earlier variant of [l]. *)
Definition firstOccurrences (p : Canonical.t) (l : list Variant.t)
    : list Variant.t :=
  omap (λ iv : nat * Variant.t,
          if decide (variantKeyOf p iv.2 ∈ variantKeyOf p <$> take iv.1 l)
          then None else Some iv.2)
       (imap pair l).

(** ** Option axes (mapEbayItemGroup) *)

(** What a member contributes to the aggregation: the trimmed name and the
    normalised value of an aspect that has both. *)
Definition observation (aspect : Aspect.t) : option (string * string) :=
  match Aspect.name aspect, normAspectValue (Aspect.value aspect) with
  | Some name, Some value =>
      if bool_decide (Js.trim name = "") then None
      else Some (Js.trim name, value)
  | _, _ => None
  end.

(** The observations of all members, in the order the members and their
    aspects are visited. *)
Definition observations (items : list EbayData) : list (string * string) :=
  items ≫= (λ item, omap observation (itemAspects item)).

(** Names are aggregated by their lower-cased spelling. *)
Definition keyOf (o : string * string) : string := Js.toLowerCase o.1.

Definition observationsOf (obs : list (string * string)) (key : string)
    : list (string * string) :=
  filter (λ o, keyOf o = key) obs.

(** The first observation under [key], with its position. *)
Definition firstSeen_spec (obs : list (string * string)) (key : string)
    : option nat :=
  fst <$> list_find (λ o, keyOf o = key) obs.

(** The first-seen original spelling of the name under [key]. *)
Definition spelling_spec (obs : list (string * string)) (key : string)
    : option string :=
  (λ io, io.2.1) <$> list_find (λ o, keyOf o = key) obs.

(** The set of distinct normalised values seen under [key]. *)
Definition valueSet_spec (obs : list (string * string)) (key : string)
    : gset string :=
  list_to_set (snd <$> observationsOf obs key).

Definition cardinality_spec (obs : list (string * string)) (name : string)
    : nat :=
  size (valueSet_spec obs (Js.toLowerCase name)).

(** [name] is an aspect name, in its first-seen spelling, that varies, is
    within the bounds and is not on the deny-list. *)
Definition qualifies_spec (obs : list (string * string)) (name : string) : Prop :=
  spelling_spec obs (Js.toLowerCase name) = Some name
  ∧ (1 < cardinality_spec obs name)%nat
  ∧ (String.length name ≤ 30)%nat
  ∧ (cardinality_spec obs name ≤ 50)%nat
  ∧ Js.toLowerCase name ∉ DENIED_OPTION_NAMES.

(** [n1] comes before [n2]: more distinct values, or as many and seen
    first. *)
Definition ranksBefore_spec (obs : list (string * string)) (n1 n2 : string)
    : Prop :=
  (cardinality_spec obs n2 < cardinality_spec obs n1)%nat
  ∨ (cardinality_spec obs n1 = cardinality_spec obs n2
     ∧ ∃ i1 i2,
         firstSeen_spec obs (Js.toLowerCase n1) = Some i1
         ∧ firstSeen_spec obs (Js.toLowerCase n2) = Some i2
         ∧ (i1 < i2)%nat).

(** [addAspect] on an aspect that has a name and a value. *)
Definition addObservation (st : AspectTable * nat) (o : string * string)
    : AspectTable * nat :=
  let '(aspectMeta, aspectOrderCounter) := st in
  let key := keyOf o in
  let '(aspectMeta, aspectOrderCounter) :=
    if negb (table_has key aspectMeta) then
      (aspectMeta ++ [(key, AspectMeta.mk o.1 [] aspectOrderCounter)],
       S aspectOrderCounter)
    else (aspectMeta, aspectOrderCounter) in
  (table_add_value key o.2 aspectMeta, aspectOrderCounter).

(** [aspectMeta.get(key)!.values.add(value)] on one entry of the table. *)
Definition addValue (key value : string) (km : string * AspectMeta.t)
    : string * AspectMeta.t :=
  if bool_decide (km.1 = key) then
    (km.1, AspectMeta.mk (AspectMeta.originalName km.2)
             (Js.set_add (AspectMeta.values km.2) value) (AspectMeta.order km.2))
  else km.

(** The entry of the aggregation table for [key], the [index]-th key seen. *)
Definition metaOf (obs : list (string * string)) (index : nat) (key : string)
    : string * AspectMeta.t :=
  (key,
   AspectMeta.mk (default "" (spelling_spec obs key))
     (Js.array_from_set (snd <$> observationsOf obs key)) index).

(** The aggregation table of a list of observations, in closed form. *)
Definition tableOf (obs : list (string * string)) : AspectTable :=
  imap (metaOf obs) (Js.array_from_set (keyOf <$> obs)).

(** The order of the comparator: [a] may stay before [b]. *)
Definition metaLe (a b : AspectMeta.t) : Prop := (compareMeta a b ≤ 0)%Z.

(** The filters of [mapEbayItemGroup] on an entry. *)
Definition keepsMeta (meta : AspectMeta.t) : Prop :=
  (1 < length (AspectMeta.values meta))%nat
  ∧ ((String.length (AspectMeta.originalName meta) ≤ 30)%nat
     ∧ (length (AspectMeta.values meta) ≤ 50)%nat)
  ∧ Js.toLowerCase (AspectMeta.originalName meta) ∉ DENIED_OPTION_NAMES.

(** ** Numeric tails (parseNumericTail) *)

Fixpoint hasSlash (s : string) : bool :=
  match s with
  | "" => false
  | String c s' => bool_decide (c = "/"%char) || hasSlash s'
  end.

(** The trailing segment of a path: the text after its last slash. *)
Fixpoint trailingSegment (pathname : string) : string :=
  match pathname with
  | "" => ""
  | String c s' =>
      if hasSlash s' then trailingSegment s'
      else if bool_decide (c = "/"%char) then s' else pathname
  end.

(** [s] ends in a run of at least [n] digits. *)
Definition endsWithDigits (n : nat) (s : string) : Prop :=
  ∃ pre d, s = pre +:+ d ∧ Regex.allDigits d = true ∧ (n ≤ String.length d)%nat.

(** [s] contains [pre] followed by at least [n] digits. *)
Definition containsPrefixDigits (pre : string) (n : nat) (s : string) : Prop :=
  ∃ l d post,
    s = l +:+ pre +:+ d +:+ post ∧ Regex.allDigits d = true
    ∧ (n ≤ String.length d)%nat.

(** ** Group normalisation *)

(** The item arrays of a raw group response that are populated, that is,
    hold at least one item, in the order [items], [itemSummaries],
    [itemSummariesV2]. *)
Definition populatedItems_spec (data : EbayData) : list (list EbayData) :=
  omap (λ f, match f with
             | Some (x :: l) => Some (x :: l)
             | _ => None
             end)
       [items data; itemSummaries data; itemSummariesV2 data].

(** The first of the fields [items], [itemSummaries], [itemSummariesV2]
    of [data] that holds an array holds an empty one. *)
Definition emptyArrayFirst (data : EbayData) : Prop :=
  items data = Some [] ∨
  (items data = None ∧
   (itemSummaries data = Some [] ∨
    (itemSummaries data = None ∧ itemSummariesV2 data = Some []))).

(** A raw response whose [items] is an empty array while [itemSummaries]
    holds an item. *)
Definition summariesOnlyGroup : EbayData :=
  mkEbayData None None None None None None None None None None None None None
    None None
    (Some [])
    (Some [mkEbayData (Some "Shirt") (Some "Cotton") None None None None None
             None None None None None None None None None None None None])
    None None.

(** ** The resolver *)

Section ResolverNotions.
Context `{Collaborators World}.

(** The group lookup on [id] fails on both endpoints, from the world [w]. *)
Definition GroupLookupFails (id : string) (w : World) (e1 e2 : Exn.t)
    (w' : World) : Prop :=
  ∃ w1, ebayGetItemGroup id w = (Throw e1, w1)
        ∧ ebayGetItemsByItemGroup id w1 = (Throw e2, w').

(** The group lookup on [id] succeeds with the payload [g], on the endpoint
    [label], after the notes [failed] of the endpoints that failed first. *)
Inductive GroupLookupSucceeds (id : string) (w : World)
    : string → list string → EbayData → World → Prop :=
  | gls_detail g w' :
      ebayGetItemGroup id w = (Ok (Some g), w') →
      GroupLookupSucceeds id w "item_group" [] g w'
  | gls_items e w1 g w' :
      ebayGetItemGroup id w = (Throw e, w1) →
      ebayGetItemsByItemGroup id w1 = (Ok (Some g), w') →
      GroupLookupSucceeds id w "get_items_by_item_group"
        [attemptNote "item_group" id (errText e)] g w'.

End ResolverNotions.

(** ** The import loop *)

Section ImportLoopNotions.
Context `{Collaborators World}.

(** The record [r] at the start of a loop iteration. *)
Definition freshResult (sourceUrl : string) : ImportResult.t :=
  ImportResult.mk sourceUrl None None None None None "failed" None None.

(** The results, in order, and the final world of importing [urls] one
    after the other from the world [w]. *)
Definition runUrls (w : World) (urls : list string)
    : list ImportResult.t * World :=
  foldl (λ st url, let '(r, w') := importUrl url st.2 in (st.1 ++ [r], w'))
        ([], w) urls.

(** The history after the results [rs] were recorded one after the other. *)
Definition recordAll (importedCache rs : list ImportResult.t)
    : list ImportResult.t :=
  foldl (λ cache r, pushHistory r cache) importedCache rs.

(** A request whose body is [{ urls }], and the process state after [POST]
    answered it. *)
Definition batchRequest (urls : list string) : result (option Body.t) :=
  Ok (Some (Body.mk None (Some urls))).

Definition postState (st : World * list ImportResult.t) (urls : list string)
    : World * list ImportResult.t :=
  let '(_, w, importedCache) := POST (batchRequest urls) st.1 st.2 in
  (w, importedCache).

(** [m] leaves the [sourceUrl] of the record under construction alone. *)
Definition keepsSourceUrl {A}
    (m : ImportResult.t → World → result A * ImportResult.t * World) : Prop :=
  ∀ r w, ImportResult.sourceUrl (m r w).1.2 = ImportResult.sourceUrl r.

End ImportLoopNotions.

(** ** The resolver's log *)

(** The log of [c'] is the log of [c] followed by at most [n] notes. *)
Definition notesExtend (n : nat) (c c' : Ctx.t) : Prop :=
  ∃ extra, Ctx.attemptNotes c' = Ctx.attemptNotes c ++ extra
           ∧ (length extra ≤ n)%nat.

(** Every identifier marked as attempted in [c] is still marked in [c']. *)
Definition marksKept (c c' : Ctx.t) : Prop :=
  Ctx.attemptedLegacyIds c ⊆ Ctx.attemptedLegacyIds c' ∧
  Ctx.attemptedGroupIds c ⊆ Ctx.attemptedGroupIds c' ∧
  Ctx.attemptedItemIds c ⊆ Ctx.attemptedItemIds c'.

(** ** Occurrences of an identifier in a page *)

Fixpoint allSpace (s : string) : bool :=
  match s with
  | "" => true
  | String c s' => Js.isWhiteSpace c && allSpace s'
  end.

Fixpoint hasChar (q : ascii) (s : string) : bool :=
  match s with
  | "" => false
  | String c s' => bool_decide (c = q) || hasChar q s'
  end.

(** [html] holds, after [pre], the quoted [key] in some spelling of its
    letters, a colon with optional white space around it, and the quoted
    non-empty value [v]. *)
Definition occursAt (q : ascii) (key html : string) (pre v : string) : Prop :=
  ∃ key' ws1 ws2 post,
    html = pre +:+ String q key' +:+ String q ws1 +:+ String HtmlScan.COLON ws2
               +:+ String q v +:+ String q post ∧
    Js.toLowerCase key' = Js.toLowerCase key ∧
    allSpace ws1 = true ∧ allSpace ws2 = true ∧
    v ≠ "" ∧ hasChar q v = false.

(** [v] is the value of the leftmost occurrence of [key] quoted by [q]. *)
Definition leftmostValue (q : ascii) (key html v : string) : Prop :=
  ∃ pre, occursAt q key html pre v ∧
    ∀ pre' v', occursAt q key html pre' v' →
               (String.length pre ≤ String.length pre')%nat.

(** [v] is what the scan reports for [key]: the value of the leftmost
    double-quoted occurrence or, when there is no double-quoted
    occurrence, of the leftmost single-quoted one. *)
Definition scannedValue (key html v : string) : Prop :=
  leftmostValue HtmlScan.DQUOTE key html v ∨
  ((∀ pre v', ¬ occursAt HtmlScan.DQUOTE key html pre v') ∧
   leftmostValue HtmlScan.SQUOTE key html v).

(** ** Example inputs *)

Definition exampleVariant (sku : string) : Variant.t :=
  Variant.mk (Some sku) "9.99" "USD" ∅ None None.

(** A product with [n] variants of pairwise distinct SKUs and no option axis. *)
Definition exampleProduct (n : nat) : Canonical.t :=
  Canonical.mk (Some "Example") None [] [] None
    ((λ i, exampleVariant ("SKU-" +:+ pretty i)) <$> seq 0 n) [].

Definition colorVariant (sku color : string) (imageUrl : option string)
    (imageUrls : list string) : Variant.t :=
  Variant.mk (Some sku) "9.99" "USD" {["Color" := color]} imageUrl (Some imageUrls).

Definition exampleColorProduct : Canonical.t :=
  Canonical.mk (Some "Shirt") None [] [] None
    [colorVariant "A1" "Red" (Some "r.png") ["r1.png"; "r.png"; ""];
     colorVariant "B1" "Blue" None [];
     colorVariant " a1" "RED " (Some "dup.png") []]
    ["Color"].

(** A product with the axis [constructor], a name that is also a property
    of [Object.prototype], and a third variant without a value for it. *)
Definition inheritedAxisProduct : Canonical.t :=
  Canonical.mk (Some "Shirt") (Some "") [] [] None
    [Variant.mk (Some "A1") "9.99" "USD" {["constructor" := "Red"]} None (Some []);
     Variant.mk (Some "B1") "9.99" "USD" {["constructor" := "Blue"]} None (Some []);
     Variant.mk (Some "C1") "9.99" "USD" ∅ None (Some [])]
    ["constructor"].

(** A group that has it as canonical product: the aspect [constructor]
    takes two values and the third member lacks it. *)
Definition inheritedAxisMember (legacy : string) (aspects : list Aspect.t)
    : EbayData :=
  mkEbayData (Some "Shirt") None None None (Some aspects) None
    (Some (Price.mk (Some "9.99") (Some "USD")))
    None None (Some legacy) None None None None None None None None None.

Definition inheritedAxisGroup : EbayData :=
  mkEbayData None None None None None None None None None None None None None
    None None
    (Some [inheritedAxisMember "A1" [Aspect.mk (Some "constructor") (ValScalar "Red")];
           inheritedAxisMember "B1" [Aspect.mk (Some "constructor") (ValScalar "Blue")];
           inheritedAxisMember "C1" []])
    None None None.

Definition set_variants (variants : list Variant.t) (p : Canonical.t)
    : Canonical.t :=
  Canonical.mk (Canonical.title p) (Canonical.description p)
    (Canonical.imageUrls p) (Canonical.tags p) (Canonical.vendor p)
    variants (Canonical.optionsOrder p).

(** ** An example world

    A deterministic outside world for the examples: its state counts the
    remote calls made so far.  The URL parser covers absolute URLs of the
    form [scheme://authority/path?query#fragment] written without dot
    segments or escapes, on which it returns the path as the platform's
    parser does. *)

Module Example.

Fixpoint afterFirst (sub s : string) : option string :=
  match Regex.stripPrefix sub s with
  | Some rest => Some rest
  | None =>
      match s with
      | "" => None
      | String _ s' => afterFirst sub s'
      end
  end.

Fixpoint takeUntil (stop : ascii → bool) (s : string) : string :=
  match s with
  | "" => ""
  | String c s' => if stop c then "" else String c (takeUntil stop s')
  end.

Fixpoint dropUntil (stop : ascii → bool) (s : string) : string :=
  match s with
  | "" => ""
  | String c s' => if stop c then s else dropUntil stop s'
  end.

Definition pathname (url : string) : option string :=
  rest ← afterFirst "://" url;
  let path :=
    takeUntil (λ c, bool_decide (c = "?"%char) || bool_decide (c = "#"%char))
      (dropUntil (λ c, bool_decide (c = "/"%char)) rest) in
  Some (if bool_decide (path = "") then "/" else path).

Definition item (legacy : string) : EbayData :=
  mkEbayData (Some "Dried leaf herb") (Some "Ceylon herb") None
    (Some "Home & Garden/Herbs")
    (Some [Aspect.mk (Some "Brand") (ValScalar "Ceylon")]) None
    (Some (Price.mk (Some "4.50") (Some "USD")))
    None None (Some legacy) None (Some "https://img.example/1.jpg") None
    None None None None None None.

Definition member (legacy color size : string) : EbayData :=
  mkEbayData (Some "Shirt") None None None
    (Some [Aspect.mk (Some "Color") (ValScalar color);
           Aspect.mk (Some "Size") (ValScalar size);
           Aspect.mk (Some "Brand") (ValScalar "Acme")]) None
    (Some (Price.mk (Some "19.00") (Some "USD")))
    None None (Some legacy) None None None None None None None None None.

Definition group : EbayData :=
  mkEbayData None None None None None None None None None None None None None
    None None
    (Some [member "501" "Red" "S"; member "502" "Blue" "S"; member "503" "Red" "M"])
    None None None.

Definition createdVariantOf (i : nat) (v : VariantInput.t) : CreatedVariant.t :=
  CreatedVariant.mk ("gid://shopify/ProductVariant/" +:+ pretty i)
    (VariantInput.inventoryItem_sku v)
    (Some ((λ o, SelectedOption.mk (optionName o) (Some (name o)))
             <$> VariantInput.optionValues v)).

#[global] Instance world : Collaborators nat := {|
  URL_pathname := pathname;
  Date_now := λ w, pretty w;
  SHOPIFY_SHOP := Some "example.myshopify.com";
  ebayGetItemByLegacyId := λ id w,
    (if bool_decide (id = "262742221410") then Ok (Some (item id))
     else if bool_decide (id = "317074302407")
          then Throw (Error "EBAY_LEGACY_FAIL 400 use item_group_id=900000001 instead")
          else Throw (Error "EBAY_LEGACY_FAIL 404 not found"),
     S w);
  ebayGetItem := λ id w, (Throw (Error "eBay item failed: 404 "), S w);
  ebayGetItemGroup := λ id w,
    (if bool_decide (id = "317074302407") then Ok (Some group)
     else Throw (Error "eBay item_group failed: 404 "),
     S w);
  ebayGetItemsByItemGroup := λ id w,
    (Throw (Error "eBay get_items_by_item_group failed: 404 "), S w);
  ebayExtractListingIdentifiers := λ url w, (Ok None, S w);
  productCreate := λ input w,
    (Ok (Product.mk ("gid://shopify/Product/" +:+ pretty w) "imported"
           (Js.tpl (ProductInput.title input))),
     S w);
  productCreateMedia := λ id media w,
    (Ok (imap (λ i _, Some ("gid://shopify/MediaImage/" +:+ pretty i)) media), S w);
  productVariantsBulkCreate_gql := λ id variants w,
    (Ok (imap createdVariantOf variants), S w);
  productVariantAppendMedia_gql := λ id variantMedia w, (Ok (), S w)
|}.

(** Sixty distinct listing URLs without a listing behind them. *)
Definition urls60 : list string :=
  (λ i, "https://www.ebay.com/itm/" +:+ pretty (100000000 + N.of_nat i)%N)
  <$> seq 0 60.

End Example.

(** * Properties *)

(** ** JavaScript primitives *)

Section JsFacts.

Lemma set_add_elem (acc : list string) (x y : string) :
  y ∈ Js.set_add acc x ↔ y ∈ acc ∨ y = x.
Proof.
  unfold Js.set_add. case_decide as Hx.
  - split; [by left|]. intros [?| ->]; done.
  - rewrite elem_of_app, list_elem_of_singleton. done.
Qed.

Lemma set_add_NoDup (acc : list string) (x : string) :
  NoDup acc → NoDup (Js.set_add acc x).
Proof.
  intros Hnd. unfold Js.set_add. case_decide as Hx; [done|].
  apply NoDup_app. split_and!; [done| |apply NoDup_singleton].
  intros y Hy ->%list_elem_of_singleton. done.
Qed.

Lemma foldl_set_add_elem (xs acc : list string) (y : string) :
  y ∈ foldl Js.set_add acc xs ↔ y ∈ acc ∨ y ∈ xs.
Proof.
  revert acc. induction xs as [|x xs IH]; intros acc; simpl.
  - rewrite elem_of_nil. tauto.
  - rewrite IH, set_add_elem, elem_of_cons. tauto.
Qed.

Lemma foldl_set_add_NoDup (xs acc : list string) :
  NoDup acc → NoDup (foldl Js.set_add acc xs).
Proof.
  revert acc. induction xs as [|x xs IH]; intros acc Hnd; simpl; [done|].
  by apply IH, set_add_NoDup.
Qed.

Lemma array_from_set_elem (xs : list string) (y : string) :
  y ∈ Js.array_from_set xs ↔ y ∈ xs.
Proof.
  unfold Js.array_from_set. rewrite foldl_set_add_elem, elem_of_nil. tauto.
Qed.

Lemma array_from_set_NoDup (xs : list string) : NoDup (Js.array_from_set xs).
Proof. apply foldl_set_add_NoDup, NoDup_nil_2. Qed.

Lemma array_from_set_snoc (xs : list string) (y : string) :
  Js.array_from_set (xs ++ [y]) = Js.set_add (Js.array_from_set xs) y.
Proof. unfold Js.array_from_set. by rewrite foldl_app. Qed.

Lemma filter_truthy_elem (xs : list (option string)) (y : string) :
  y ∈ Js.filter_truthy xs ↔ y ≠ "" ∧ Some y ∈ xs.
Proof.
  unfold Js.filter_truthy. rewrite list_elem_of_omap. split.
  - intros (x & Hx & Hy). destruct x as [s|]; simpl in Hy; [|done].
    case_bool_decide; simpl in Hy; [done|]. by simplify_eq.
  - intros [Hne Hin]. exists (Some y). split; [done|]. simpl.
    by rewrite bool_decide_eq_false_2.
Qed.

Lemma filter_truthy_app (xs ys : list (option string)) :
  Js.filter_truthy (xs ++ ys) = Js.filter_truthy xs ++ Js.filter_truthy ys.
Proof. apply omap_app. Qed.

End JsFacts.
(** ** Plain objects and their prototype (JsObject) *)

Section JsObjectFacts.

Lemma get_Str (o : gmap string string) (key s : string) :
  JsObject.get o key = Some (JsObject.Str s) ↔ o !! key = Some s.
Proof.
  unfold JsObject.get. destruct (o !! key) as [s'|].
  - split; intros [= ->]; done.
  - case_decide; split; intros [=].
Qed.

Lemma get_Inherited (o : gmap string string) (key k : string) :
  JsObject.get o key = Some (JsObject.Inherited k) ↔
    o !! key = None ∧ key ∈ JsObject.PROTOTYPE_KEYS ∧ k = key.
Proof.
  unfold JsObject.get. destruct (o !! key) as [s'|].
  - split; [intros [=]|intros ([=] & _)].
  - case_decide as Hk; split.
    + intros [= ->]. done.
    + intros (_ & _ & ->). done.
    + intros [=].
    + intros (_ & Hin & _). done.
Qed.

Lemma get_None (o : gmap string string) (key : string) :
  JsObject.get o key = None ↔ o !! key = None ∧ key ∉ JsObject.PROTOTYPE_KEYS.
Proof.
  unfold JsObject.get. destruct (o !! key) as [s'|].
  - split; [intros [=]|intros ([=] & _)].
  - case_decide as Hk; split; try done. intros [_ Hn]. done.
Qed.

Lemma obj_set_add_elem (acc : list JsObject.value) (x y : JsObject.value) :
  y ∈ JsObject.set_add acc x ↔ y ∈ acc ∨ y = x.
Proof.
  unfold JsObject.set_add. case_decide as Hx.
  - split; [by left|]. intros [?| ->]; done.
  - rewrite elem_of_app, list_elem_of_singleton. done.
Qed.

Lemma obj_set_add_NoDup (acc : list JsObject.value) (x : JsObject.value) :
  NoDup acc → NoDup (JsObject.set_add acc x).
Proof.
  intros Hnd. unfold JsObject.set_add. case_decide as Hx; [done|].
  apply NoDup_app. split_and!; [done| |apply NoDup_singleton].
  intros y Hy ->%list_elem_of_singleton. done.
Qed.

Lemma obj_foldl_set_add_elem (xs acc : list JsObject.value) (y : JsObject.value) :
  y ∈ foldl JsObject.set_add acc xs ↔ y ∈ acc ∨ y ∈ xs.
Proof.
  revert acc. induction xs as [|x xs IH]; intros acc; simpl.
  - rewrite elem_of_nil. tauto.
  - rewrite IH, obj_set_add_elem, elem_of_cons. tauto.
Qed.

Lemma obj_foldl_set_add_NoDup (xs acc : list JsObject.value) :
  NoDup acc → NoDup (foldl JsObject.set_add acc xs).
Proof.
  revert acc. induction xs as [|x xs IH]; intros acc Hnd; simpl; [done|].
  by apply IH, obj_set_add_NoDup.
Qed.

Lemma obj_array_from_set_elem (xs : list JsObject.value) (y : JsObject.value) :
  y ∈ JsObject.array_from_set xs ↔ y ∈ xs.
Proof.
  unfold JsObject.array_from_set. rewrite obj_foldl_set_add_elem, elem_of_nil. tauto.
Qed.

Lemma obj_array_from_set_NoDup (xs : list JsObject.value) :
  NoDup (JsObject.array_from_set xs).
Proof. apply obj_foldl_set_add_NoDup, NoDup_nil_2. Qed.

Lemma obj_filter_truthy_elem (xs : list (option JsObject.value)) (y : JsObject.value) :
  y ∈ JsObject.filter_truthy xs ↔ y ≠ JsObject.Str "" ∧ Some y ∈ xs.
Proof.
  unfold JsObject.filter_truthy. rewrite list_elem_of_omap. split.
  - intros (x & Hx & Hy). destruct x as [[s|k]|]; simpl in Hy; [| |done].
    + case_bool_decide as Hs; simpl in Hy; [done|]. simplify_eq.
      split; [|done]. intros [= ->]. done.
    + by simplify_eq.
  - intros [Hne Hin]. exists (Some y). split; [done|]. destruct y as [s|k]; simpl; [|done].
    rewrite bool_decide_eq_false_2; [done|]. by intros ->.
Qed.

End JsObjectFacts.

(** ** The platform payload (buildShopifyProductInputFromEbay) *)

Lemma fmap_imap_indep {A B C} (g : B → C) (f : nat → A → B) (h : A → C)
    (l : list A) :
  (∀ i x, g (f i x) = h x) → g <$> imap f l = h <$> l.
Proof.
  revert f. induction l as [|x l IH]; intros f Hf; [done|].
  simpl. rewrite Hf. f_equal. apply IH. intros i y. apply Hf.
Qed.

Lemma forEach_snoc {S A : Type} (f : S → A → result S) (st : S) (xs : list A) (x : A) :
  forEach f st (xs ++ [x])
  = match forEach f st xs with Ok st' => f st' x | Throw e => Throw e end.
Proof.
  revert st. induction xs as [|y xs IH]; intros st; simpl.
  - by destruct (f st x).
  - destruct (f st y); [apply IH|done].
Qed.

Lemma omap_imap_ext {A B C} (f g : nat → A → B) (h h' : B → option C) (l : list A) :
  (∀ i x, l !! i = Some x → h (f i x) = h' (g i x)) →
  omap h (imap f l) = omap h' (imap g l).
Proof.
  revert f g. induction l as [|x l IH]; intros f g Hfg; [done|].
  simpl. rewrite (Hfg 0 x eq_refl).
  assert (omap h (imap (f ∘ S) l) = omap h' (imap (g ∘ S) l)) as Hrec.
  { apply IH. intros i y Hy. apply (Hfg (S i) y Hy). }
  destruct (h' (g 0 x)); [f_equal|]; exact Hrec.
Qed.

Section Payload.
Variable p : Canonical.t.

Lemma inferredOptions_names :
  ProductOption.name <$> inferredOptions p = Canonical.optionsOrder p.
Proof.
  unfold inferredOptions. rewrite (fmap_imap_indep _ _ id); [|done].
  by rewrite list_fmap_id.
Qed.

Lemma hasDefinedOptions_spec :
  hasDefinedOptions p = negb (bool_decide (Canonical.optionsOrder p = [])).
Proof.
  unfold hasDefinedOptions, inferredOptions. rewrite length_imap.
  by destruct (Canonical.optionsOrder p).
Qed.

Lemma optionValuesOf_optionsOrder (v : Variant.t) :
  optionValuesOf p v =
    if bool_decide (Canonical.optionsOrder p = [])
    then [OptionValue.mk DEFAULT_OPTION_NAME (JsObject.Str DEFAULT_OPTION_VALUE)]
    else
      (λ name, OptionValue.mk name
                 (default (JsObject.Str (fallbackOptionValue name))
                          (JsObject.get (Variant.options v) name)))
      <$> Canonical.optionsOrder p.
Proof.
  unfold optionValuesOf, productOptions. rewrite hasDefinedOptions_spec.
  case_bool_decide; simpl; [done|].
  unfold inferredOptions. by apply fmap_imap_indep.
Qed.

Lemma readOptionValues_names (o : gmap string string) (names : list string) :
  readOptionValues
    ((λ name, OptionValue.mk name
                (default (JsObject.Str (fallbackOptionValue name)) (JsObject.get o name)))
     <$> names)
  = if decide (Forall (λ name, name ∈ JsObject.PROTOTYPE_KEYS → is_Some (o !! name))
                      names)
    then Ok ((λ name, mkVariantOptionValue (Some name)
                        (default (fallbackOptionValue name) (o !! name))) <$> names)
    else Throw trimIsNotAFunction.
Proof.
  induction names as [|name names IH]; [done|].
  rewrite !fmap_cons. cbn [readOptionValues OptionValue.name OptionValue.optionName].
  rewrite IH. clear IH. unfold JsObject.get.
  destruct (o !! name) as [s|] eqn:Hs; simpl.
  - case_decide as Hall.
    + rewrite decide_True; [done|]. constructor; [by rewrite Hs|done].
    + rewrite decide_False; [done|]. by intros [_ ?]%Forall_cons.
  - case_decide as Hproto; simpl.
    + rewrite decide_False; [done|]. intros [Hh _]%Forall_cons.
      destruct (Hh Hproto) as [? Hx]. by rewrite Hs in Hx.
    + case_decide as Hall.
      * rewrite decide_True; [done|]. constructor; [done|done].
      * rewrite decide_False; [done|]. by intros [_ ?]%Forall_cons.
Qed.

(** Reading the option values of a variant returns its own values, and
    throws exactly when an axis names a property of the prototype that
    the variant does not carry. *)
Lemma readOptionValues_spec (v : Variant.t) :
  readOptionValues (optionValuesOf p v)
  = if decide (readsOwn p v) then Ok (ownOptionValues p v)
    else Throw trimIsNotAFunction.
Proof.
  rewrite optionValuesOf_optionsOrder. unfold ownOptionValues.
  case_bool_decide as Hnil.
  - case_decide as Hown; [done|]. destruct Hown. unfold readsOwn.
    rewrite Hnil. constructor.
  - rewrite readOptionValues_names. by repeat case_decide.
Qed.

Lemma variantStep_spec (seen : gset string) (raw : list RawVariant.t) (v : Variant.t) :
  variantStep p (seen, raw) v
  = if decide (readsOwn p v) then
      Ok (if decide (variantKeyOf p v ∈ seen) then (seen, raw)
          else ({[variantKeyOf p v]} ∪ seen, raw ++ [rawPayloadOf p v]))
    else Throw trimIsNotAFunction.
Proof.
  unfold variantStep. rewrite readOptionValues_spec.
  case_decide; [|done]. fold (variantKeyOf p v). by case_decide.
Qed.

Lemma firstOccurrences_snoc (l : list Variant.t) (v : Variant.t) :
  firstOccurrences p (l ++ [v])
  = firstOccurrences p l
      ++ (if decide (variantKeyOf p v ∈ variantKeyOf p <$> l) then [] else [v]).
Proof.
  unfold firstOccurrences. rewrite imap_app, omap_app. f_equal.
  - apply omap_imap_ext. intros i x Hx. simpl.
    rewrite take_app_le; [done|]. apply lookup_lt_Some in Hx. lia.
  - simpl. rewrite Nat.add_0_r, take_app_length. by case_decide.
Qed.

Lemma firstOccurrences_app (l1 l2 : list Variant.t) :
  ∃ rest, firstOccurrences p (l1 ++ l2) = firstOccurrences p l1 ++ rest.
Proof.
  induction l2 as [|x l2 [rest IH]] using rev_ind.
  - exists []. by rewrite !app_nil_r.
  - rewrite app_assoc, firstOccurrences_snoc, IH, <- app_assoc. eauto.
Qed.

Lemma firstOccurrences_keys (l : list Variant.t) (k : string) :
  k ∈ variantKeyOf p <$> firstOccurrences p l ↔ k ∈ variantKeyOf p <$> l.
Proof.
  induction l as [|x l IH] using rev_ind; [done|].
  rewrite firstOccurrences_snoc, !fmap_app, !elem_of_app, IH.
  case_decide as Hin; simpl; [|done].
  rewrite list_elem_of_singleton, elem_of_nil. split; [tauto|].
  intros [?| ->]; by left.
Qed.

Lemma firstOccurrences_keys_NoDup (l : list Variant.t) :
  NoDup (variantKeyOf p <$> firstOccurrences p l).
Proof.
  induction l as [|x l IH] using rev_ind; [apply NoDup_nil_2|].
  rewrite firstOccurrences_snoc, fmap_app. case_decide as Hin; simpl.
  - by rewrite app_nil_r.
  - apply NoDup_app. split_and!; [done| |apply NoDup_singleton].
    intros k Hk ->%list_elem_of_singleton. by apply Hin, firstOccurrences_keys.
Qed.

Lemma firstOccurrences_sublist (l : list Variant.t) : firstOccurrences p l `sublist_of` l.
Proof.
  induction l as [|x l IH] using rev_ind; [done|].
  rewrite firstOccurrences_snoc. apply sublist_app; [done|].
  case_decide; [apply sublist_nil_l|done].
Qed.

Lemma firstWithKey_take (l : list Variant.t) (i : nat) (v : Variant.t) :
  firstWithKey p l i v ↔
    l !! i = Some v ∧ variantKeyOf p v ∉ variantKeyOf p <$> take i l.
Proof.
  unfold firstWithKey. split; intros [Hi Hfirst]; (split; [done|]).
  - intros (y & Heq & Hy)%list_elem_of_fmap.
    apply list_elem_of_lookup in Hy as [j Hj].
    apply lookup_take_Some in Hj as [Hj Hlt]. by apply (Hfirst j y Hlt Hj).
  - intros j y Hj Hy Heq. apply Hfirst. apply list_elem_of_fmap.
    exists y. split; [done|]. apply list_elem_of_lookup. exists j.
    by apply lookup_take_Some.
Qed.

Lemma firstWithKey_snoc (l : list Variant.t) (i : nat) (v x : Variant.t) :
  firstWithKey p (l ++ [x]) i v ↔
    firstWithKey p l i v
    ∨ (i = length l ∧ v = x ∧ variantKeyOf p x ∉ variantKeyOf p <$> l).
Proof.
  rewrite !firstWithKey_take. split.
  - intros [Hi Hfirst]. destruct (decide (i < length l)) as [Hlt|Hge].
    + left. rewrite lookup_app_l in Hi by done. split; [done|].
      by rewrite take_app_le in Hfirst by lia.
    + right. rewrite lookup_app_r in Hi by lia.
      destruct (i - length l) as [|n] eqn:Hn; [|by destruct n].
      simpl in Hi. simplify_eq. assert (i = length l) as -> by lia.
      by rewrite take_app_length in Hfirst.
  - intros [[Hi Hfirst]|(-> & -> & Hfirst)].
    + split; [by apply lookup_app_l_Some|].
      rewrite take_app_le; [done|]. apply lookup_lt_Some in Hi. lia.
    + split; [by rewrite lookup_app_r, Nat.sub_diag by lia|].
      by rewrite take_app_length.
Qed.

(** The deduplicated list holds, in the order of the input, exactly the
    first occurrences: its entry [k] is the variant that is first with
    its key and has [k] first occurrences before it. *)
Lemma firstOccurrences_lookup (l : list Variant.t) (k : nat) (v : Variant.t) :
  firstOccurrences p l !! k = Some v ↔
    ∃ i, firstWithKey p l i v ∧ length (firstOccurrences p (take i l)) = k.
Proof.
  revert k v. induction l as [|x l IH] using rev_ind; intros k v.
  - split; [done|]. intros (i & [Hi _] & _). done.
  - rewrite firstOccurrences_snoc. split.
    + intros Hk. destruct (decide (k < length (firstOccurrences p l))) as [Hlt|Hge].
      * rewrite lookup_app_l in Hk by done. apply IH in Hk as (i & Hf & Hlen).
        exists i. split; [apply firstWithKey_snoc; by left|].
        rewrite take_app_le; [done|]. destruct Hf as [Hi _].
        apply lookup_lt_Some in Hi. lia.
      * rewrite lookup_app_r in Hk by lia. case_decide as Hin; [done|].
        destruct (k - length (firstOccurrences p l)) as [|n] eqn:Hn; [|by destruct n].
        simpl in Hk. simplify_eq. exists (length l). split.
        -- apply firstWithKey_snoc. by right.
        -- rewrite take_app_length. lia.
    + intros (i & [Hf|(-> & -> & Hnew)]%firstWithKey_snoc & Hlen).
      * assert (i < length l) as Hlt by (destruct Hf as [Hi _]; by apply lookup_lt_Some in Hi).
        rewrite take_app_le in Hlen by lia.
        apply lookup_app_l_Some, IH. eauto.
      * rewrite take_app_length in Hlen. rewrite decide_False by done.
        by rewrite lookup_app_r, <- Hlen, Nat.sub_diag by lia.
Qed.

Lemma firstOccurrences_elem (l : list Variant.t) (v : Variant.t) :
  v ∈ firstOccurrences p l ↔ ∃ i, firstWithKey p l i v.
Proof.
  rewrite list_elem_of_lookup. setoid_rewrite firstOccurrences_lookup.
  naive_solver.
Qed.

(** A variant whose key an earlier variant has does not change the
    deduplicated list. *)
Lemma firstOccurrences_skip (l1 l2 l3 : list Variant.t) (v w : Variant.t) :
  variantKeyOf p v = variantKeyOf p w →
  firstOccurrences p (l1 ++ v :: l2 ++ w :: l3) = firstOccurrences p (l1 ++ v :: l2 ++ l3).
Proof.
  intros Hkey.
  replace (l1 ++ v :: l2 ++ w :: l3) with ((l1 ++ v :: l2) ++ w :: l3)
    by (by rewrite <- app_assoc).
  replace (l1 ++ v :: l2 ++ l3) with ((l1 ++ v :: l2) ++ l3)
    by (by rewrite <- app_assoc).
  assert (Hv : variantKeyOf p w ∈ variantKeyOf p <$> (l1 ++ v :: l2)).
  { rewrite <- Hkey. apply list_elem_of_fmap_2, elem_of_app. right.
    apply elem_of_cons. by left. }
  generalize dependent (l1 ++ v :: l2). clear l1 l2 Hkey. intros l Hv.
  induction l3 as [|x l3 IH] using rev_ind.
  - rewrite app_nil_r. by rewrite firstOccurrences_snoc, decide_True, app_nil_r.
  - replace (l ++ w :: l3 ++ [x]) with ((l ++ w :: l3) ++ [x])
      by (by rewrite <- app_assoc).
    rewrite (app_assoc l l3 [x]). rewrite !firstOccurrences_snoc, IH. f_equal.
    assert (variantKeyOf p x ∈ variantKeyOf p <$> (l ++ w :: l3)
            ↔ variantKeyOf p x ∈ variantKeyOf p <$> (l ++ l3)) as Hiff.
    { rewrite !fmap_app, fmap_cons, !elem_of_app, elem_of_cons.
      split; [|tauto]. intros [?|[->|?]]; tauto. }
    case_decide as H1; case_decide as H2; tauto.
Qed.

(** The loop over the variants: it ends with the keys of all variants
    seen and one entry for each first occurrence, in order, when every
    variant reads own values; otherwise it throws. *)
Lemma forEach_variantStep_Ok (l : list Variant.t) :
  Forall (readsOwn p) l →
  forEach (variantStep p) (∅, []) l
  = Ok (list_to_set (variantKeyOf p <$> l), rawPayloadOf p <$> firstOccurrences p l).
Proof.
  induction l as [|x l IH] using rev_ind; intros Hall; [done|].
  apply Forall_app in Hall as [Hl Hx]. rewrite Forall_singleton in Hx.
  rewrite forEach_snoc, IH, variantStep_spec, decide_True by done.
  rewrite firstOccurrences_snoc, !fmap_app, list_to_set_app_L. simpl.
  f_equal. case_decide as Hseen.
  - rewrite decide_True by (by apply elem_of_list_to_set in Hseen).
    rewrite app_nil_r. f_equal. set_solver.
  - rewrite decide_False by (by rewrite elem_of_list_to_set in Hseen).
    simpl. f_equal. set_solver.
Qed.

Lemma forEach_variantStep_Throw (l : list Variant.t) :
  ¬ Forall (readsOwn p) l →
  forEach (variantStep p) (∅, []) l = Throw trimIsNotAFunction.
Proof.
  induction l as [|x l IH] using rev_ind; intros Hall; [by destruct Hall|].
  rewrite forEach_snoc. destruct (decide (Forall (readsOwn p) l)) as [Hl|Hl].
  - rewrite forEach_variantStep_Ok, variantStep_spec by done.
    rewrite decide_False; [done|]. intros Hx. apply Hall, Forall_app.
    split; [done|by apply Forall_singleton].
  - by rewrite IH.
Qed.

Lemma rawVariantPayloads_spec :
  rawVariantPayloads p
  = if decide (Forall (readsOwn p) (Canonical.variants p))
    then Ok (rawPayloadOf p <$> firstOccurrences p (Canonical.variants p))
    else Throw trimIsNotAFunction.
Proof.
  unfold rawVariantPayloads. case_decide as Hall.
  - by rewrite forEach_variantStep_Ok.
  - by rewrite forEach_variantStep_Throw.
Qed.

(** The payload when the build returns. *)
Lemma build_fields (out : Payload.t) :
  buildShopifyProductInputFromEbay p = Ok out →
  let kept := firstOccurrences p (Canonical.variants p) in
  Forall (readsOwn p) (Canonical.variants p) ∧
  Payload.productInput out
    = ProductInput.mk (Canonical.title p) (Js.or_str (Canonical.description p) "")
        (if Js.truthy (Canonical.vendor p) then Canonical.vendor p else None)
        (uniqueTags p) "ACTIVE" (productOptions p) ∧
  Payload.variantInputs out = inputOf p <$> take MAX_SHOPIFY_VARIANTS kept ∧
  Payload.variantAssets out = assetOf p <$> take MAX_SHOPIFY_VARIANTS kept ∧
  Payload.meta out
    = if bool_decide (MAX_SHOPIFY_VARIANTS < length kept)
      then Some (Meta.mk (length kept - MAX_SHOPIFY_VARIANTS)) else None.
Proof.
  unfold buildShopifyProductInputFromEbay. rewrite rawVariantPayloads_spec.
  case_decide as Hall; [|done]. intros [= <-]. simpl.
  split_and!; [done|done| | |].
  - by rewrite <- fmap_take, <- list_fmap_compose.
  - by rewrite <- fmap_take, <- list_fmap_compose.
  - rewrite length_take, length_fmap.
    case_bool_decide as H1; case_bool_decide as H2; try lia; [|done].
    do 2 f_equal. lia.
Qed.

Lemma build_returns :
  Forall (readsOwn p) (Canonical.variants p) →
  ∃ out, buildShopifyProductInputFromEbay p = Ok out.
Proof.
  intros Hall. unfold buildShopifyProductInputFromEbay.
  rewrite rawVariantPayloads_spec, decide_True by done. eauto.
Qed.

Lemma build_throws (e : Exn.t) :
  buildShopifyProductInputFromEbay p = Throw e →
  e = trimIsNotAFunction ∧ ¬ Forall (readsOwn p) (Canonical.variants p).
Proof.
  unfold buildShopifyProductInputFromEbay. rewrite rawVariantPayloads_spec.
  case_decide as Hall; [done|]. by intros [= <-].
Qed.

End Payload.

Lemma ownOptionValues_set_variants (vs : list Variant.t) (p : Canonical.t) (v : Variant.t) :
  ownOptionValues (set_variants vs p) v = ownOptionValues p v.
Proof. done. Qed.

Lemma variantKeyOf_set_variants (vs : list Variant.t) (p : Canonical.t) (v : Variant.t) :
  variantKeyOf (set_variants vs p) v = variantKeyOf p v.
Proof. done. Qed.

Lemma firstOccurrences_set_variants (vs l : list Variant.t) (p : Canonical.t) :
  firstOccurrences (set_variants vs p) l = firstOccurrences p l.
Proof. done. Qed.

Lemma imageSources_spec (v : Variant.t) :
  let own :=
    Js.array_from_set (Js.filter_truthy (Some <$> default [] (Variant.imageUrls v))) in
  imageSources v =
    own ++ match Variant.imageUrl v with
           | Some u => if decide (u ≠ "" ∧ u ∉ own) then [u] else []
           | None => []
           end.
Proof.
  simpl. unfold imageSources. rewrite filter_truthy_app.
  destruct (Variant.imageUrl v) as [u|]; simpl.
  - case_bool_decide as Hu; simpl.
    + rewrite app_nil_r. rewrite decide_False; [by rewrite app_nil_r|]. tauto.
    + rewrite array_from_set_snoc. unfold Js.set_add.
      case_decide as Hin.
      * rewrite decide_False; [by rewrite app_nil_r|]. tauto.
      * by rewrite decide_True.
  - by rewrite !app_nil_r.
Qed.

Lemma imageSources_elem (v : Variant.t) (u : string) :
  u ∈ imageSources v ↔
    u ≠ "" ∧ (u ∈ default [] (Variant.imageUrls v) ∨ Variant.imageUrl v = Some u).
Proof.
  unfold imageSources.
  rewrite array_from_set_elem, filter_truthy_elem, elem_of_app,
    list_elem_of_singleton, list_elem_of_fmap.
  split.
  - intros [Hne [(y & Hy & Hin)|Hu]]; split; try done.
    + left. by simplify_eq.
    + by right.
  - intros [Hne [Hin| ->]]; split; try done; [left|by right].
    by exists u.
Qed.

(** *** Product options *)

Section OptionFacts.

Lemma array_from_set_nil (xs : list string) :
  Js.array_from_set xs = [] ↔ xs = [].
Proof.
  split; [|by intros ->]. intros Hnil. destruct xs as [|x xs]; [done|].
  assert (x ∈ Js.array_from_set (x :: xs)) as Hx
    by (apply array_from_set_elem, elem_of_cons; by left).
  rewrite Hnil in Hx. by apply elem_of_nil in Hx.
Qed.

Lemma foldl_set_add_NoDup_id (xs acc : list string) :
  NoDup (acc ++ xs) → foldl Js.set_add acc xs = acc ++ xs.
Proof.
  revert acc. induction xs as [|x xs IH]; intros acc Hnd; simpl.
  - by rewrite app_nil_r.
  - unfold Js.set_add at 2. rewrite decide_False.
    + rewrite IH; rewrite <- app_assoc; done.
    + apply NoDup_app in Hnd as (_ & Hdis & _). intros Hin.
      apply (Hdis x Hin), elem_of_cons. by left.
Qed.

Lemma array_from_set_NoDup_id (xs : list string) :
  NoDup xs → Js.array_from_set xs = xs.
Proof. intros Hnd. by apply (foldl_set_add_NoDup_id xs []). Qed.

Lemma fallbackOptionValue_nonempty (name : string) : fallbackOptionValue name ≠ "".
Proof. unfold fallbackOptionValue. by case_bool_decide. Qed.

(** The values collected for the axis [name]. *)
Lemma inferredOptions_lookup (p : Canonical.t) (i : nat) (o : ProductOption.t) :
  inferredOptions p !! i = Some o →
  ∃ name, Canonical.optionsOrder p !! i = Some name ∧
    ProductOption.name o = name ∧ ProductOption.position o = i + 1 ∧
    let found :=
      JsObject.array_from_set
        (JsObject.filter_truthy
           ((λ v, JsObject.get (Variant.options v) name) <$> Canonical.variants p)) in
    ProductOption.values o
    = if bool_decide (length found = 0)
      then [JsObject.Str (fallbackOptionValue name)] else found.
Proof.
  unfold inferredOptions. rewrite list_lookup_imap.
  destruct (Canonical.optionsOrder p !! i) as [name|]; [|done].
  simpl. intros [= <-]. by exists name.
Qed.

Lemma productOptions_cases (p : Canonical.t) :
  (Canonical.optionsOrder p ≠ [] ∧ productOptions p = inferredOptions p) ∨
  (Canonical.optionsOrder p = [] ∧
   productOptions p
   = [ProductOption.mk DEFAULT_OPTION_NAME 1 [JsObject.Str DEFAULT_OPTION_VALUE]]).
Proof.
  unfold productOptions, hasDefinedOptions, inferredOptions.
  rewrite length_imap. destruct (Canonical.optionsOrder p); simpl; [by right|].
  by left.
Qed.

(** The values found for an axis, in general and when every variant reads
    own values. *)
Lemma found_elem (p : Canonical.t) (name : string) (y : JsObject.value) :
  y ∈ JsObject.array_from_set
        (JsObject.filter_truthy
           ((λ v, JsObject.get (Variant.options v) name) <$> Canonical.variants p))
  ↔ y ≠ JsObject.Str "" ∧
    ∃ v, v ∈ Canonical.variants p ∧ JsObject.get (Variant.options v) name = Some y.
Proof.
  rewrite obj_array_from_set_elem, obj_filter_truthy_elem, list_elem_of_fmap.
  naive_solver.
Qed.

Lemma found_elem_own (p : Canonical.t) (name : string) (y : JsObject.value) :
  Forall (readsOwn p) (Canonical.variants p) → name ∈ Canonical.optionsOrder p →
  y ∈ JsObject.array_from_set
        (JsObject.filter_truthy
           ((λ v, JsObject.get (Variant.options v) name) <$> Canonical.variants p))
  ↔ ∃ s, y = JsObject.Str s ∧ s ≠ "" ∧
      ∃ v, v ∈ Canonical.variants p ∧ Variant.options v !! name = Some s.
Proof.
  intros Hall Hname. rewrite found_elem. split.
  - intros (Hne & v & Hv & Hget). destruct y as [s|k].
    + exists s. split; [done|]. split; [by intros ->|].
      exists v. split; [done|]. by apply get_Str.
    + apply get_Inherited in Hget as (Hnone & Hproto & _).
      rewrite Forall_forall in Hall. specialize (Hall v Hv).
      unfold readsOwn in Hall. rewrite Forall_forall in Hall.
      destruct (Hall name Hname Hproto) as [s Hs]. by rewrite Hnone in Hs.
  - intros (s & -> & Hne & v & Hv & Hs). split; [by intros [= ->]|].
    exists v. split; [done|]. by apply get_Str.
Qed.

End OptionFacts.

(** The group [inheritedAxisGroup] maps to [inheritedAxisProduct], on
    which the build throws. *)
Lemma inheritedAxis_throws :
  mapEbayItemGroup (Some inheritedAxisGroup) = Ok inheritedAxisProduct ∧
  buildShopifyProductInputFromEbay inheritedAxisProduct = Throw trimIsNotAFunction.
Proof. split; vm_compute; reflexivity. Qed.

(** The first occurrences keep the order of the input. *)
Lemma firstOccurrences_order (p : Canonical.t) (l : list Variant.t) (k1 k2 : nat)
    (v1 v2 : Variant.t) :
  (k1 < k2)%nat →
  firstOccurrences p l !! k1 = Some v1 → firstOccurrences p l !! k2 = Some v2 →
  ∃ i1 i2, (i1 < i2)%nat ∧ firstWithKey p l i1 v1 ∧ firstWithKey p l i2 v2.
Proof.
  intros Hlt (i1 & Hf1 & Hl1)%firstOccurrences_lookup
         (i2 & Hf2 & Hl2)%firstOccurrences_lookup.
  exists i1, i2. split; [|done].
  destruct (decide (i1 < i2)) as [|Hge]; [done|]. exfalso.
  assert (take i1 l = take i2 l ++ drop i2 (take i1 l)) as Hsplit.
  { rewrite <- (take_drop i2 (take i1 l)) at 1. f_equal.
    rewrite take_take. f_equal. lia. }
  destruct (firstOccurrences_app p (take i2 l) (drop i2 (take i1 l))) as [rest Hrest].
  rewrite <- Hsplit in Hrest. rewrite Hrest, length_app in Hl1. lia.
Qed.

(** A later variant with the key of an earlier one is no first
    occurrence. *)
Lemma firstWithKey_later (p : Canonical.t) (l : list Variant.t) (i j : nat)
    (v w : Variant.t) :
  (i < j)%nat → l !! i = Some v → variantKeyOf p v = variantKeyOf p w →
  ¬ firstWithKey p l j w.
Proof. intros Hlt Hi Hkey [_ Hfirst]. by apply (Hfirst i v Hlt Hi). Qed.

Lemma productOptions_names (p : Canonical.t) :
  ProductOption.name <$> productOptions p
  = if bool_decide (Canonical.optionsOrder p = []) then [DEFAULT_OPTION_NAME]
    else Canonical.optionsOrder p.
Proof.
  unfold productOptions. rewrite hasDefinedOptions_spec.
  case_bool_decide; simpl; [done|]. apply inferredOptions_names.
Qed.

Lemma productOptions_positions (p : Canonical.t) :
  ProductOption.position <$> productOptions p
  = S <$> seq 0 (length (productOptions p)).
Proof.
  unfold productOptions. rewrite hasDefinedOptions_spec.
  case_bool_decide; simpl; [done|]. unfold inferredOptions.
  rewrite length_imap. generalize (Canonical.optionsOrder p). intros names.
  rewrite fmap_imap. unfold compose. simpl.
  induction names as [|x names IH] using rev_ind; [done|].
  rewrite imap_app, length_app, seq_app, fmap_app, IH. simpl.
  do 3 f_equal. lia.
Qed.

(** C1: the build throws on the canonical product of the group
    [inheritedAxisGroup], whose axis [constructor] the third variant
    reads from the prototype; it throws only that error and only on such
    products.  On every other product it returns a payload with the
    inputs of the first 100 deduplicated variants, the deduplicated
    variants being the first occurrences of their keys in input order:
    at most 100 variant inputs; beyond 100 deduplicated variants exactly
    100 and [meta.droppedVariants] is the number of the others, and none
    is reported otherwise; 150 deduplicated variants yield exactly 100
    variant inputs and [meta.droppedVariants = 50]. *)
Theorem C1_variant_cap :
  (mapEbayItemGroup (Some inheritedAxisGroup) = Ok inheritedAxisProduct ∧
   buildShopifyProductInputFromEbay inheritedAxisProduct = Throw trimIsNotAFunction) ∧
  (∀ p e, buildShopifyProductInputFromEbay p = Throw e →
     e = trimIsNotAFunction ∧ ¬ Forall (readsOwn p) (Canonical.variants p)) ∧
  ∀ p, Forall (readsOwn p) (Canonical.variants p) →
    ∃ out, buildShopifyProductInputFromEbay p = Ok out ∧
      let kept := firstOccurrences p (Canonical.variants p) in
      Payload.variantInputs out = inputOf p <$> take 100 kept ∧
      (∀ v, v ∈ kept ↔ ∃ i, firstWithKey p (Canonical.variants p) i v) ∧
      (∀ k1 k2 v1 v2,
         (k1 < k2)%nat → kept !! k1 = Some v1 → kept !! k2 = Some v2 →
         ∃ i1 i2, (i1 < i2)%nat ∧ firstWithKey p (Canonical.variants p) i1 v1
                  ∧ firstWithKey p (Canonical.variants p) i2 v2) ∧
      (length (Payload.variantInputs out) ≤ 100)%nat ∧
      (∀ n, length kept = n → (100 < n)%nat →
         length (Payload.variantInputs out) = 100 ∧
         Payload.meta out = Some (Meta.mk (n - 100))) ∧
      ((length kept ≤ 100)%nat →
         length (Payload.variantInputs out) = length kept ∧ Payload.meta out = None) ∧
      (length kept = 150 →
         length (Payload.variantInputs out) = 100 ∧
         Payload.meta out = Some (Meta.mk 50)).
Proof.
  split; [exact inheritedAxis_throws|]. split; [intros p e; apply build_throws|].
  intros p Hall. destruct (build_returns p Hall) as [out Hout]. exists out.
  split; [done|]. apply build_fields in Hout as (_ & _ & Hin & _ & Hmeta).
  unfold MAX_SHOPIFY_VARIANTS in *. simpl. rewrite Hin, Hmeta, length_fmap, length_take.
  split_and!; [done|apply firstOccurrences_elem|apply firstOccurrences_order|lia| | |].
  - intros n Hn Hlt. rewrite Hn, bool_decide_eq_true_2 by lia. split; [lia|done].
  - intros Hle. rewrite bool_decide_eq_false_2 by lia. split; [lia|done].
  - intros ->. done.
Qed.

Lemma C1_variant_cap_witness :
  Forall (readsOwn (exampleProduct 150)) (Canonical.variants (exampleProduct 150)) ∧
  ∃ out, buildShopifyProductInputFromEbay (exampleProduct 150) = Ok out ∧
    Payload.variantInputs out
    = inputOf (exampleProduct 150)
        <$> take 100 (firstOccurrences (exampleProduct 150)
                        (Canonical.variants (exampleProduct 150))) ∧
    length (Payload.variantInputs out) = 100 ∧
    Payload.meta out = Some (Meta.mk 50).
Proof.
  assert (Forall (readsOwn (exampleProduct 150))
            (Canonical.variants (exampleProduct 150))) as Hall.
  { apply (bool_decide_unpack _). vm_compute. exact I. }
  split; [exact Hall|].
  destruct (proj2 (proj2 C1_variant_cap) (exampleProduct 150) Hall)
    as (out & Hout & Hin & _ & _ & _ & _ & _ & H150).
  exists out. split; [exact Hout|]. split; [exact Hin|].
  apply H150. vm_compute. reflexivity.
Defined.

(** C3: when the build returns, its variant inputs and assets are those
    of the first 100 deduplicated variants, and the deduplicated variants
    are exactly the first occurrences of their keys, in input order: every
    variant that no earlier variant shares its key with is among them,
    every one of them is such a variant, a later variant with the key of
    an earlier one is none of them, they come in the order of the input
    and their keys are pairwise distinct.  Without a later variant whose
    key was already seen the build returns the same [variantInputs],
    [variantAssets] and [meta], and the same product input up to the
    values listed in [productOptions], which hold every non-empty value
    that any variant, kept or not, has for an axis. *)
Theorem C3_first_occurrence_wins (p : Canonical.t) (out : Payload.t) :
  buildShopifyProductInputFromEbay p = Ok out →
  let l := Canonical.variants p in
  let kept := firstOccurrences p l in
  Payload.variantInputs out = inputOf p <$> take 100 kept ∧
  Payload.variantAssets out = assetOf p <$> take 100 kept ∧
  (∀ v, v ∈ kept ↔ ∃ i, firstWithKey p l i v) ∧
  (∀ i j v w, (i < j)%nat → l !! i = Some v → l !! j = Some w →
     variantKeyOf p v = variantKeyOf p w → ¬ firstWithKey p l j w) ∧
  (∀ k1 k2 v1 v2, (k1 < k2)%nat → kept !! k1 = Some v1 → kept !! k2 = Some v2 →
     ∃ i1 i2, (i1 < i2)%nat ∧ firstWithKey p l i1 v1 ∧ firstWithKey p l i2 v2) ∧
  NoDup (variantKeyOf p <$> kept) ∧
  NoDup (VariantAsset.key <$> Payload.variantAssets out) ∧
  (∀ v i o s,
     v ∈ l →
     ProductInput.productOptions (Payload.productInput out) !! i = Some o →
     Canonical.optionsOrder p ≠ [] →
     Variant.options v !! ProductOption.name o = Some s → s ≠ "" →
     JsObject.Str s ∈ ProductOption.values o) ∧
  (∀ l1 v l2 w l3,
     l = l1 ++ v :: l2 ++ w :: l3 →
     variantKeyOf p v = variantKeyOf p w →
     ∃ out',
       buildShopifyProductInputFromEbay (set_variants (l1 ++ v :: l2 ++ l3) p)
       = Ok out' ∧
       Payload.variantInputs out' = Payload.variantInputs out ∧
       Payload.variantAssets out' = Payload.variantAssets out ∧
       Payload.meta out' = Payload.meta out ∧
       let input := Payload.productInput out in
       let input' := Payload.productInput out' in
       ProductInput.title input' = ProductInput.title input ∧
       ProductInput.descriptionHtml input' = ProductInput.descriptionHtml input ∧
       ProductInput.vendor input' = ProductInput.vendor input ∧
       ProductInput.tags input' = ProductInput.tags input ∧
       ProductInput.status input' = ProductInput.status input ∧
       ProductOption.name <$> ProductInput.productOptions input'
       = ProductOption.name <$> ProductInput.productOptions input ∧
       ProductOption.position <$> ProductInput.productOptions input'
       = ProductOption.position <$> ProductInput.productOptions input).
Proof.
  intros Hout. pose proof (build_fields p out Hout) as (Hall & Hprod & Hin & Has & Hmeta).
  unfold MAX_SHOPIFY_VARIANTS in *. simpl in *. split_and!; [done|done| | | | | | |].
  - apply firstOccurrences_elem.
  - intros i j v w Hlt Hi _ Hkey. by eapply firstWithKey_later.
  - apply firstOccurrences_order.
  - apply firstOccurrences_keys_NoDup.
  - rewrite Has, <- list_fmap_compose.
    change (VariantAsset.key ∘ assetOf p) with (variantKeyOf p).
    eapply sublist_NoDup; [apply (firstOccurrences_keys_NoDup p)|].
    apply fmap_sublist, sublist_take.
  - intros v i o s Hv Ho Hne Hs Hs'. rewrite Hprod in Ho. simpl in Ho.
    destruct (productOptions_cases p) as [[_ Hopt]|[Hnil _]]; [|done].
    rewrite Hopt in Ho.
    apply inferredOptions_lookup in Ho as (name & Hname & Hn & _ & Hval).
    simpl in Hval. rewrite Hn in Hs. rewrite Hval.
    assert (JsObject.Str s
            ∈ JsObject.array_from_set
                (JsObject.filter_truthy
                   ((λ v0, JsObject.get (Variant.options v0) name)
                      <$> Canonical.variants p))) as Hfound.
    { apply found_elem_own; [done|by eapply list_elem_of_lookup_2|]. eauto 10. }
    case_bool_decide as Hlen; [|done].
    apply nil_length_inv in Hlen. rewrite Hlen in Hfound.
    by apply elem_of_nil in Hfound.
  - intros l1 v l2 w l3 Hl Hkey.
    set (p' := set_variants (l1 ++ v :: l2 ++ l3) p).
    assert (Forall (readsOwn p') (Canonical.variants p')) as Hall'.
    { simpl. rewrite Hl in Hall. rewrite !Forall_app, !Forall_cons, !Forall_app in *.
      rewrite Forall_cons in Hall. tauto. }
    destruct (build_returns p' Hall') as [out' Hout']. exists out'.
    split; [done|].
    pose proof (build_fields p' out' Hout') as (_ & Hprod' & Hin' & Has' & Hmeta').
    unfold MAX_SHOPIFY_VARIANTS in *. simpl in *.
    change (firstOccurrences p') with (firstOccurrences p) in Hin', Has', Hmeta'.
    change (inputOf p') with (inputOf p) in Hin'.
    change (assetOf p') with (assetOf p) in Has'.
    rewrite <- (firstOccurrences_skip p l1 l2 l3 v w Hkey), <- Hl in Hin', Has', Hmeta'.
    rewrite Hin, Has, Hmeta, Hin', Has', Hmeta', Hprod, Hprod'. simpl.
    split_and!; try done.
    + by rewrite !productOptions_names.
    + rewrite !productOptions_positions. do 2 f_equal.
      rewrite <- !(length_fmap ProductOption.name), !productOptions_names. done.
Qed.

Lemma C3_first_occurrence_wins_witness :
  let p := exampleColorProduct in
  let v := colorVariant "A1" "Red" (Some "r.png") ["r1.png"; "r.png"; ""] in
  let w := colorVariant " a1" "RED " (Some "dup.png") [] in
  ∃ out out',
    buildShopifyProductInputFromEbay p = Ok out ∧
    buildShopifyProductInputFromEbay
      (set_variants [v; colorVariant "B1" "Blue" None []] p) = Ok out' ∧
    Payload.variantInputs out
    = inputOf p <$> take 100 (firstOccurrences p (Canonical.variants p)) ∧
    ¬ firstWithKey p (Canonical.variants p) 2 w ∧
    Payload.variantInputs out' = Payload.variantInputs out ∧
    Payload.variantAssets out' = Payload.variantAssets out ∧
    Payload.meta out' = Payload.meta out.
Proof.
  simpl. eexists. 
  assert (buildShopifyProductInputFromEbay exampleColorProduct = Ok ?[out]) as Hout
    by (vm_compute; reflexivity).
  destruct (C3_first_occurrence_wins exampleColorProduct _ Hout)
    as (Hin & _ & _ & Hlater & _ & _ & _ & _ & Hskip).
  destruct (Hskip [] (colorVariant "A1" "Red" (Some "r.png") ["r1.png"; "r.png"; ""])
              [colorVariant "B1" "Blue" None []]
              (colorVariant " a1" "RED " (Some "dup.png") []) [])
    as (out' & Hout' & Hin' & Has' & Hmeta' & _);
    [vm_compute; reflexivity | vm_compute; reflexivity |].
  exists out'. split_and!; [exact Hout | exact Hout' | exact Hin | | exact Hin'
                           | exact Has' | exact Hmeta'].
  apply (Hlater 0 2 (colorVariant "A1" "Red" (Some "r.png") ["r1.png"; "r.png"; ""]));
    [lia | vm_compute; reflexivity | vm_compute; reflexivity | vm_compute; reflexivity].
Defined.

(** C3 as specified fails: a later variant with an already-seen
    key is not omitted from the payload, its value [RED ] is listed in
    [productOptions], which the build without it does not list. *)
Lemma C3_counterexample :
  ¬ (∀ p l1 v l2 w l3 out,
       Canonical.variants p = l1 ++ v :: l2 ++ w :: l3 →
       variantKeyOf p v = variantKeyOf p w →
       buildShopifyProductInputFromEbay p = Ok out →
       buildShopifyProductInputFromEbay (set_variants (l1 ++ v :: l2 ++ l3) p) = Ok out).
Proof.
  intros Hclaim.
  specialize (Hclaim exampleColorProduct []
                (colorVariant "A1" "Red" (Some "r.png") ["r1.png"; "r.png"; ""])
                [colorVariant "B1" "Blue" None []]
                (colorVariant " a1" "RED " (Some "dup.png") []) [] _
                eq_refl eq_refl eq_refl).
  vm_compute in Hclaim. discriminate Hclaim.
Qed.

(** C10: the build throws on the canonical product of the group
    [inheritedAxisGroup].  On every product whose variants read own
    values it returns [variantInputs] and [variantAssets] that correspond
    position by position: equal lengths, and at every index the asset key
    is [buildVariantKey] of the input's option values and SKU, both are
    built from the deduplicated variant at that index, the asset images
    are that variant's deduplicated images (its [imageUrls] first, then
    the fallback [imageUrl]) and [mediaSrc] holds the first of them or is
    absent. *)
Theorem C10_inputs_assets_correspond :
  (mapEbayItemGroup (Some inheritedAxisGroup) = Ok inheritedAxisProduct ∧
   buildShopifyProductInputFromEbay inheritedAxisProduct = Throw trimIsNotAFunction) ∧
  ∀ p, Forall (readsOwn p) (Canonical.variants p) →
    ∃ out, buildShopifyProductInputFromEbay p = Ok out ∧
      length (Payload.variantInputs out) = length (Payload.variantAssets out) ∧
      ∀ i inp asset,
        Payload.variantInputs out !! i = Some inp →
        Payload.variantAssets out !! i = Some asset →
        VariantAsset.key asset
          = buildVariantKey (VariantInput.optionValues inp)
                            (VariantInput.inventoryItem_sku inp) ∧
        VariantInput.mediaSrc inp
          = match VariantAsset.imageUrls asset with
            | [] => None
            | first :: _ => Some [first]
            end ∧
        ∃ variant,
          firstOccurrences p (Canonical.variants p) !! i = Some variant ∧
          variant ∈ Canonical.variants p ∧
          VariantInput.inventoryItem_sku inp = Variant.sku variant ∧
          VariantInput.price inp = Variant.price variant ∧
          VariantInput.optionValues inp = ownOptionValues p variant ∧
          let own :=
            Js.array_from_set
              (Js.filter_truthy (Some <$> default [] (Variant.imageUrls variant))) in
          VariantAsset.imageUrls asset
            = own ++ match Variant.imageUrl variant with
                     | Some u => if decide (u ≠ "" ∧ u ∉ own) then [u] else []
                     | None => []
                     end ∧
          NoDup (VariantAsset.imageUrls asset) ∧
          ∀ u, u ∈ VariantAsset.imageUrls asset ↔
               u ≠ "" ∧ (u ∈ default [] (Variant.imageUrls variant)
                         ∨ Variant.imageUrl variant = Some u).
Proof.
  split; [exact inheritedAxis_throws|].
  intros p Hall. destruct (build_returns p Hall) as [out Hout]. exists out.
  split; [done|]. apply build_fields in Hout as (_ & _ & Hin & Has & _).
  rewrite Hin, Has, !length_fmap. split; [done|].
  intros i inp asset Hinp Hasset.
  rewrite list_lookup_fmap in Hinp. rewrite list_lookup_fmap in Hasset.
  destruct (take MAX_SHOPIFY_VARIANTS (firstOccurrences p (Canonical.variants p)) !! i)
    as [v|] eqn:Hv; [|done].
  simpl in Hinp, Hasset. simplify_eq.
  apply lookup_take_Some in Hv as [Hv _].
  split_and!; [done|done|]. exists v.
  split_and!; [done| |done|done|done|].
  { eapply elem_of_sublist; [|apply (firstOccurrences_sublist p)].
    by eapply list_elem_of_lookup_2. }
  cbv zeta. split_and!.
  - apply imageSources_spec.
  - apply array_from_set_NoDup.
  - apply imageSources_elem.
Qed.

Lemma C10_inputs_assets_correspond_witness :
  let inp :=
    VariantInput.mk "9.99" "DENY" (Some "A1")
      [mkVariantOptionValue (Some "Color") "Red"] (Some ["r1.png"]) in
  let asset := VariantAsset.mk "color=red|sku=a1" ["r1.png"; "r.png"] in
  Forall (readsOwn exampleColorProduct) (Canonical.variants exampleColorProduct) ∧
  ∃ out, buildShopifyProductInputFromEbay exampleColorProduct = Ok out ∧
    Payload.variantInputs out !! 0 = Some inp ∧
    Payload.variantAssets out !! 0 = Some asset ∧
    VariantAsset.key asset
      = buildVariantKey (VariantInput.optionValues inp)
                        (VariantInput.inventoryItem_sku inp) ∧
    VariantInput.mediaSrc inp = Some ["r1.png"] ∧
    ∃ variant,
      firstOccurrences exampleColorProduct (Canonical.variants exampleColorProduct) !! 0
      = Some variant ∧
      VariantInput.inventoryItem_sku inp = Variant.sku variant ∧
      VariantInput.price inp = Variant.price variant ∧
      NoDup (VariantAsset.imageUrls asset) ∧
      ∀ u, u ∈ VariantAsset.imageUrls asset ↔
           u ≠ "" ∧ (u ∈ default [] (Variant.imageUrls variant)
                     ∨ Variant.imageUrl variant = Some u).
Proof.
  assert (Forall (readsOwn exampleColorProduct)
            (Canonical.variants exampleColorProduct)) as Hall.
  { apply (bool_decide_unpack _). vm_compute. exact I. }
  split; [exact Hall|].
  destruct (proj2 C10_inputs_assets_correspond exampleColorProduct Hall)
    as (out & Hout & _ & Hpos).
  exists out. split; [exact Hout|].
  assert (Ok out = Ok _) as Heq by (rewrite <- Hout; vm_compute; reflexivity).
  injection Heq as Heq.
  assert (Payload.variantInputs out !! 0
          = Some (VariantInput.mk "9.99" "DENY" (Some "A1")
                    [mkVariantOptionValue (Some "Color") "Red"] (Some ["r1.png"])))
    as Hinp by (rewrite Heq; reflexivity).
  assert (Payload.variantAssets out !! 0
          = Some (VariantAsset.mk "color=red|sku=a1" ["r1.png"; "r.png"]))
    as Hasset by (rewrite Heq; reflexivity).
  split; [exact Hinp|]. split; [exact Hasset|].
  destruct (Hpos 0 _ _ Hinp Hasset)
    as (Hkey & Hmedia & variant & Hk & _ & Hsku & Hprice & _ & _ & Hnd & Helem).
  split_and!; [exact Hkey | exact Hmedia |].
  exists variant.
  split_and!; [exact Hk | exact Hsku | exact Hprice | exact Hnd | exact Helem].
Defined.
(** ** Variant keys *)

Section VariantKey.

Lemma isWhiteSpace_toLowerChar (c : ascii) :
  Js.isWhiteSpace (Js.toLowerChar c) = Js.isWhiteSpace c.
Proof. destruct c as [[] [] [] [] [] [] [] []]; reflexivity. Qed.

Lemma toLowerCase_app (s1 s2 : string) :
  Js.toLowerCase (s1 +:+ s2) = Js.toLowerCase s1 +:+ Js.toLowerCase s2.
Proof. induction s1 as [|c s1 IH]; simpl; [done|]. by rewrite IH. Qed.

Lemma toLowerCase_empty (s : string) : Js.toLowerCase s = "" ↔ s = "".
Proof. destruct s; simpl; split; congruence. Qed.

Lemma trimStart_toLowerCase (s : string) :
  Js.toLowerCase (Js.trimStart s) = Js.trimStart (Js.toLowerCase s).
Proof.
  induction s as [|c s IH]; simpl; [done|].
  rewrite isWhiteSpace_toLowerChar. by destruct (Js.isWhiteSpace c).
Qed.

Lemma trimEnd_toLowerCase (s : string) :
  Js.toLowerCase (Js.trimEnd s) = Js.trimEnd (Js.toLowerCase s).
Proof.
  induction s as [|c s IH]; simpl; [done|].
  rewrite isWhiteSpace_toLowerChar, <- IH.
  rewrite (bool_decide_ext _ _ (toLowerCase_empty (Js.trimEnd s))).
  by destruct (Js.isWhiteSpace c && bool_decide (Js.trimEnd s = "")).
Qed.

Lemma trim_toLowerCase (s : string) :
  Js.toLowerCase (Js.trim s) = Js.trim (Js.toLowerCase s).
Proof. unfold Js.trim. by rewrite trimEnd_toLowerCase, trimStart_toLowerCase. Qed.

Lemma trimEnd_snoc (w : ascii) (s : string) :
  Js.isWhiteSpace w = true → Js.trimEnd (s +:+ String w "") = Js.trimEnd s.
Proof.
  intros Hw. induction s as [|c s IH]; simpl.
  - by rewrite Hw.
  - by rewrite IH.
Qed.

Lemma trim_lead (w : ascii) (s : string) :
  Js.isWhiteSpace w = true → Js.trim (String w s) = Js.trim s.
Proof. intros Hw. unfold Js.trim. simpl. by rewrite Hw. Qed.

Lemma trim_trail (w : ascii) (s : string) :
  Js.isWhiteSpace w = true → Js.trim (s +:+ String w "") = Js.trim s.
Proof.
  intros Hw. unfold Js.trim. induction s as [|c s IH]; simpl.
  - by rewrite Hw.
  - destruct (Js.isWhiteSpace c); [done|].
    by rewrite <- (trimEnd_snoc w (String c s)).
Qed.

Lemma toLowerCase_case (s1 s2 : string) (c c' : ascii) :
  Js.toLowerChar c = Js.toLowerChar c' →
  Js.toLowerCase (s1 +:+ String c s2) = Js.toLowerCase (s1 +:+ String c' s2).
Proof. intros Hc. rewrite !toLowerCase_app. simpl. by rewrite Hc. Qed.

(** Strings equal up to case and surrounding white space normalise to the
    same text. *)
Lemma eq_case_ws_normalize (a b : string) :
  eq_case_ws a b → Js.toLowerCase (Js.trim a) = Js.toLowerCase (Js.trim b).
Proof.
  induction 1 as [s|a b _ IH|a b c _ IH1 _ IH2|s1 c c' s2 Hc|w s Hw|w s Hw].
  - done.
  - done.
  - congruence.
  - rewrite !trim_toLowerCase. by rewrite (toLowerCase_case s1 s2 c c').
  - by rewrite trim_lead.
  - by rewrite trim_trail.
Qed.

Lemma or_str_empty (s : string) : Js.or_str (Some s) "" = s.
Proof. unfold Js.or_str. by case_bool_decide. Qed.

Lemma normalizeKeyPart_equiv (a b : option string) :
  eq_case_ws_opt a b → same_presence a b →
  normalizeKeyPart a = normalizeKeyPart b.
Proof.
  intros Heq Hpres. destruct Heq as [|a b Hab]; [done|].
  unfold normalizeKeyPart, same_presence in *. simpl in *.
  do 2 case_bool_decide; simplify_eq; try done. by apply eq_case_ws_normalize.
Qed.

Lemma keyPart_equiv (x y : VariantOptionValue) :
  optionValue_equiv x y → same_presence (optionName x) (optionName y) →
  keyPart x = keyPart y.
Proof.
  intros [Hname Hvalue] Hpres. unfold keyPart.
  assert (normalizeKeyPart (Some (Js.or_str (optionName x) DEFAULT_OPTION_NAME))
          = normalizeKeyPart (Some (Js.or_str (optionName y) DEFAULT_OPTION_NAME)))
    as ->.
  { unfold normalizeKeyPart, same_presence in *.
    destruct Hname as [|a b Hab]; [done|]. simpl in *.
    do 2 case_bool_decide; simplify_eq; try done. simpl.
    do 2 (rewrite bool_decide_eq_false_2 by done).
    by apply eq_case_ws_normalize. }
  assert (normalizeKeyPart (Some (name x)) = normalizeKeyPart (Some (name y)))
    as ->; [|done].
  unfold normalizeKeyPart. rewrite !or_str_empty.
  by apply eq_case_ws_normalize.
Qed.

End VariantKey.

(** C4, in the form that holds for the code: [buildVariantKey] is
    invariant under changes of letter case and of surrounding white space
    in option names, option values and SKU, provided corresponding option
    names, and the two SKUs, are both absent-or-empty or both non-empty;
    the two keys of the example coincide for every SKU. *)
Theorem C4_key_case_ws_insensitive :
  (∀ (ovs1 ovs2 : list VariantOptionValue) (sku1 sku2 : option string),
     Forall2 (λ x y, optionValue_equiv x y
                     ∧ same_presence (optionName x) (optionName y)) ovs1 ovs2 →
     eq_case_ws_opt sku1 sku2 → same_presence sku1 sku2 →
     buildVariantKey ovs1 sku1 = buildVariantKey ovs2 sku2) ∧
  (∀ sku : option string,
     buildVariantKey [mkVariantOptionValue (Some "Color") " Red "] sku
     = buildVariantKey [mkVariantOptionValue (Some "color") "red"] sku).
Proof.
  split.
  - intros ovs1 ovs2 sku1 sku2 Hovs Hsku Hpres. unfold buildVariantKey.
    assert (keyPart <$> ovs1 = keyPart <$> ovs2) as ->.
    { induction Hovs as [|x y l1 l2 [Hxy Hp] _ IH]; [done|].
      simpl. f_equal; [by apply keyPart_equiv|done]. }
    rewrite Hpres. destruct (Js.truthy sku2); [|done].
    by rewrite (normalizeKeyPart_equiv sku1 sku2).
  - intros sku. unfold buildVariantKey. simpl.
    destruct (Js.truthy sku); reflexivity.
Qed.

Lemma C4_key_case_ws_insensitive_witness :
  buildVariantKey [mkVariantOptionValue (Some "Color") " Red "] (Some "AB-1 ")
  = buildVariantKey [mkVariantOptionValue (Some "color") "red"] (Some "ab-1").
Proof.
  apply (proj1 C4_key_case_ws_insensitive).
  - constructor; [|constructor]. split; [split|]; simpl.
    + constructor. apply (ecw_case "" "C" "c" "olor"). reflexivity.
    + apply ecw_trans with "Red ".
      { apply ecw_sym, (ecw_lead " " "Red "). reflexivity. }
      apply ecw_trans with "Red".
      { apply ecw_sym, (ecw_trail " " "Red"). reflexivity. }
      apply (ecw_case "" "R" "r" "ed"). reflexivity.
    + reflexivity.
  - constructor. apply ecw_trans with "AB-1".
    { apply ecw_sym, (ecw_trail " " "AB-1"). reflexivity. }
    apply ecw_trans with "aB-1".
    { apply (ecw_case "" "A" "a" "B-1"). reflexivity. }
    apply (ecw_case "a" "B" "b" "-1"). reflexivity.
  - reflexivity.
Defined.

(** C4 does not hold without the presence condition: an empty and a blank
    option name, or SKU, differ only by white space and give different
    keys. *)
Lemma C4_counterexample :
  let ovs1 := [mkVariantOptionValue (Some "") "red"] in
  let ovs2 := [mkVariantOptionValue (Some " ") "red"] in
  Forall2 optionValue_equiv ovs1 ovs2 ∧
  eq_case_ws_opt (Some "") (Some " ") ∧
  buildVariantKey ovs1 (Some "") = "title=red" ∧
  buildVariantKey ovs2 (Some " ") = "=red|sku=" ∧
  buildVariantKey ovs1 (Some "") ≠ buildVariantKey ovs2 (Some " ").
Proof.
  simpl. split_and!.
  - constructor; [|constructor]. split; simpl.
    + constructor. apply (ecw_lead " " ""). reflexivity.
    + apply ecw_refl.
  - constructor. apply (ecw_lead " " ""). reflexivity.
  - reflexivity.
  - reflexivity.
  - discriminate.
Qed.

(** ** The identifier extractor *)

Section RegexFacts.

Lemma string_app_nil_l (b : string) : "" +:+ b = b.
Proof. reflexivity. Qed.

Lemma string_app_cons (x : ascii) (a b : string) :
  String x a +:+ b = String x (a +:+ b).
Proof. reflexivity. Qed.

Lemma string_app_assoc (a b c : string) : (a +:+ b) +:+ c = a +:+ b +:+ c.
Proof.
  induction a as [|x a IH]; [done|]. rewrite !string_app_cons. by rewrite IH.
Qed.

Lemma string_length_app (a b : string) :
  String.length (a +:+ b) = (String.length a + String.length b)%nat.
Proof.
  induction a as [|x a IH]; [done|]. rewrite string_app_cons. simpl.
  by rewrite IH.
Qed.

Lemma allDigits_app (a b : string) :
  Regex.allDigits (a +:+ b) = Regex.allDigits a && Regex.allDigits b.
Proof.
  induction a as [|x a IH]; [done|]. rewrite string_app_cons. simpl.
  by rewrite IH, andb_assoc.
Qed.

Lemma hasSlash_allDigits (s : string) :
  hasSlash s = true → Regex.allDigits s = false.
Proof.
  induction s as [|c s IH]; simpl; [done|].
  case_bool_decide as Hc; simpl.
  - intros _. by subst c.
  - intros Hs. rewrite IH by done. apply andb_false_r.
Qed.

Lemma matchDigitsAtEnd_head (n : nat) (s : string) :
  Regex.allDigits s = true → (n ≤ String.length s)%nat →
  Regex.matchDigitsAtEnd n s = Some s.
Proof.
  intros Hd Hn. destruct s; simpl in *.
  - by rewrite bool_decide_eq_true_2.
  - rewrite Hd. simpl. by rewrite bool_decide_eq_true_2.
Qed.

Lemma matchDigitsAtEnd_cons (n : nat) (c : ascii) (s : string) :
  Regex.allDigits (String c s) = false →
  Regex.matchDigitsAtEnd n (String c s) = Regex.matchDigitsAtEnd n s.
Proof. intros Hd. cbn [Regex.matchDigitsAtEnd]. by rewrite Hd. Qed.

(** A trailing segment of digits is what the end-anchored search finds. *)
Lemma matchDigitsAtEnd_trailing (n : nat) (p : string) :
  Regex.allDigits (trailingSegment p) = true →
  (n ≤ String.length (trailingSegment p))%nat →
  Regex.matchDigitsAtEnd n p = Some (trailingSegment p).
Proof.
  induction p as [|c p IH]; intros Hd Hn.
  - by apply matchDigitsAtEnd_head.
  - cbn [trailingSegment] in *. destruct (hasSlash p) eqn:Hs.
    + rewrite matchDigitsAtEnd_cons; [by apply IH|].
      simpl. rewrite (hasSlash_allDigits p Hs). apply andb_false_r.
    + case_bool_decide as Hc.
      * subst c. rewrite matchDigitsAtEnd_cons by done.
        by apply matchDigitsAtEnd_head.
      * by apply matchDigitsAtEnd_head.
Qed.

Lemma matchDigitsAtEnd_Some (n : nat) (s t : string) :
  Regex.matchDigitsAtEnd n s = Some t →
  ∃ pre, s = pre +:+ t ∧ Regex.allDigits t = true ∧ (n ≤ String.length t)%nat.
Proof.
  induction s as [|c s IH]; cbn [Regex.matchDigitsAtEnd].
  - destruct (Regex.allDigits "" && bool_decide (n ≤ String.length "")%nat) eqn:Hc;
      [|done].
    intros [= <-]. apply andb_true_iff in Hc as [Hd Hn%bool_decide_eq_true].
    by exists "".
  - destruct (Regex.allDigits (String c s)
              && bool_decide (n ≤ String.length (String c s))%nat) eqn:Hc.
    + intros [= <-]. apply andb_true_iff in Hc as [Hd Hn%bool_decide_eq_true].
      by exists "".
    + intros (pre & -> & Hd & Hn)%IH. by exists (String c pre).
Qed.

Lemma matchDigitsAtEnd_complete (n : nat) (s : string) :
  endsWithDigits n s → is_Some (Regex.matchDigitsAtEnd n s).
Proof.
  intros (pre & d & -> & Hd & Hn). induction pre as [|c pre IH].
  - rewrite string_app_nil_l. by rewrite matchDigitsAtEnd_head.
  - rewrite string_app_cons. cbn [Regex.matchDigitsAtEnd].
    by destruct (Regex.allDigits (String c (pre +:+ d)) && _).
Qed.

Lemma stripPrefix_Some (pre s rest : string) :
  Regex.stripPrefix pre s = Some rest ↔ s = pre +:+ rest.
Proof.
  revert s. induction pre as [|a pre IH]; intros s.
  - rewrite string_app_nil_l. destruct s; simpl; split; congruence.
  - rewrite string_app_cons. destruct s as [|b s]; simpl; [split; congruence|].
    case_bool_decide as Hab.
    + subst b. rewrite IH. split; congruence.
    + split; congruence.
Qed.

Lemma takeDigits_allDigits (s : string) : Regex.allDigits (Regex.takeDigits s) = true.
Proof.
  induction s as [|c s IH]; simpl; [done|].
  destruct (Js.isDigit c) eqn:Hc; simpl; [|done]. by rewrite Hc.
Qed.

Lemma takeDigits_prefix (s : string) : ∃ post, s = Regex.takeDigits s +:+ post.
Proof.
  induction s as [|c s [post IH]]; simpl; [by exists ""|].
  destruct (Js.isDigit c).
  - exists post. rewrite string_app_cons. by f_equal.
  - by exists (String c s).
Qed.

Lemma takeDigits_app (d post : string) :
  Regex.allDigits d = true →
  (String.length d ≤ String.length (Regex.takeDigits (d +:+ post)))%nat.
Proof.
  induction d as [|c d IH]; [simpl; lia|]. rewrite string_app_cons. simpl.
  intros [Hc Hd]%andb_true_iff. rewrite Hc. simpl. specialize (IH Hd). lia.
Qed.

Lemma prefixDigitsHere_Some (pre : string) (n : nat) (s d : string) :
  Regex.prefixDigitsHere pre n s = Some d →
  ∃ post, s = pre +:+ d +:+ post ∧ Regex.allDigits d = true
          ∧ (n ≤ String.length d)%nat.
Proof.
  unfold Regex.prefixDigitsHere.
  destruct (Regex.stripPrefix pre s) as [rest|] eqn:Hp; [|done].
  apply stripPrefix_Some in Hp as ->.
  case_bool_decide as Hn; [|done]. intros [= <-].
  destruct (takeDigits_prefix rest) as [post Hpost].
  exists post. split_and!; [by rewrite <- Hpost|apply takeDigits_allDigits|done].
Qed.

Lemma matchPrefixDigits_Some (pre : string) (n : nat) (s d : string) :
  Regex.matchPrefixDigits pre n s = Some d →
  ∃ l post, s = l +:+ pre +:+ d +:+ post ∧ Regex.allDigits d = true
            ∧ (n ≤ String.length d)%nat.
Proof.
  induction s as [|c s IH]; cbn [Regex.matchPrefixDigits].
  - destruct (Regex.prefixDigitsHere pre n "") as [d'|] eqn:Hh; [|done].
    intros [= ->]. apply prefixDigitsHere_Some in Hh as (post & ? & ? & ?).
    by exists "", post.
  - destruct (Regex.prefixDigitsHere pre n (String c s)) as [d'|] eqn:Hh.
    + intros [= ->]. apply prefixDigitsHere_Some in Hh as (post & ? & ? & ?).
      by exists "", post.
    + intros (l & post & -> & ? & ?)%IH. by exists (String c l), post.
Qed.

Lemma matchPrefixDigits_complete (pre : string) (n : nat) (s : string) :
  containsPrefixDigits pre n s → is_Some (Regex.matchPrefixDigits pre n s).
Proof.
  intros (l & d & post & -> & Hd & Hn). induction l as [|c l IH].
  - assert (is_Some (Regex.prefixDigitsHere pre n (pre +:+ d +:+ post))) as [d' Hh].
    { unfold Regex.prefixDigitsHere.
      rewrite (proj2 (stripPrefix_Some pre _ (d +:+ post)) eq_refl).
      rewrite bool_decide_eq_true_2; [done|].
      pose proof (takeDigits_app d post Hd). lia. }
    rewrite string_app_nil_l.
    destruct (pre +:+ d +:+ post); cbn [Regex.matchPrefixDigits];
      by rewrite Hh.
  - rewrite string_app_cons. cbn [Regex.matchPrefixDigits].
    by destruct (Regex.prefixDigitsHere pre n _).
Qed.

Lemma numericTailOfPathname_None (p : string) :
  numericTailOfPathname p = None ↔
  ¬ endsWithDigits 9 p ∧ ¬ containsPrefixDigits "/itm/" 9 p.
Proof.
  unfold numericTailOfPathname.
  destruct (Regex.matchDigitsAtEnd 9 p) as [t|] eqn:Ht.
  - pose proof (matchDigitsAtEnd_Some _ _ _ Ht) as (pre & -> & Hd & Hn).
    assert (Js.truthy (Some t) = true) as ->.
    { simpl. destruct t; [simpl in Hn; lia|done]. }
    split; [done|]. intros [Hno _]. exfalso. apply Hno. by exists pre, t.
  - simpl.
    assert (¬ endsWithDigits 9 p) as Hno.
    { intros [t Hsome]%matchDigitsAtEnd_complete. congruence. }
    destruct (Regex.matchPrefixDigits "/itm/" 9 p) as [d|] eqn:Hd.
    + split; [done|]. intros [_ Hno']. exfalso. apply Hno'.
      apply matchPrefixDigits_Some in Hd as (l & post & -> & ? & ?).
      by exists l, d, post.
    + split; [|done]. intros _. split; [done|].
      intros [d Hsome]%matchPrefixDigits_complete. congruence.
Qed.

Lemma numericTailOfPathname_Some (p t : string) :
  numericTailOfPathname p = Some t →
  Regex.allDigits t = true ∧ (9 ≤ String.length t)%nat.
Proof.
  unfold numericTailOfPathname.
  destruct (Regex.matchDigitsAtEnd 9 p) as [t'|] eqn:Ht.
  - pose proof (matchDigitsAtEnd_Some _ _ _ Ht) as (pre & -> & Hd & Hn).
    assert (Js.truthy (Some t') = true) as ->.
    { simpl. destruct t'; [simpl in Hn; lia|done]. }
    by intros [= <-].
  - simpl. destruct (Regex.matchPrefixDigits "/itm/" 9 p) as [d|] eqn:Hd; [|done].
    intros [= <-]. apply matchPrefixDigits_Some in Hd as (l & post & -> & ? & ?).
    done.
Qed.

End RegexFacts.

(** C7, in the form that holds for the code: for every URL whose path
    has a trailing segment of at least 9 digits, [parseNumericTail] returns
    exactly that segment; it returns none exactly when the URL is malformed
    or its path neither ends in a run of at least 9 digits nor contains
    [/itm/] followed by at least 9 digits; whatever it returns is a run of
    at least 9 digits. *)
Theorem C7_parseNumericTail `{Collaborators World} (url : string) :
  (∀ pathname,
     URL_pathname url = Some pathname →
     Regex.allDigits (trailingSegment pathname) = true →
     (9 ≤ String.length (trailingSegment pathname))%nat →
     parseNumericTail url = Some (trailingSegment pathname)) ∧
  (parseNumericTail url = None ↔
   URL_pathname url = None
   ∨ ∃ pathname,
       URL_pathname url = Some pathname
       ∧ ¬ endsWithDigits 9 pathname
       ∧ ¬ containsPrefixDigits "/itm/" 9 pathname) ∧
  (∀ t, parseNumericTail url = Some t →
        Regex.allDigits t = true ∧ (9 ≤ String.length t)%nat).
Proof.
  unfold parseNumericTail. split_and!.
  - intros pathname -> Hd Hn. unfold numericTailOfPathname.
    rewrite matchDigitsAtEnd_trailing by done. simpl.
    destruct (trailingSegment pathname); [simpl in Hn; lia|done].
  - destruct (URL_pathname url) as [pathname|]; [|naive_solver].
    rewrite numericTailOfPathname_None. naive_solver.
  - intros t. destruct (URL_pathname url) as [pathname|]; [|done].
    apply numericTailOfPathname_Some.
Qed.

Lemma C7_parseNumericTail_witness :
  parseNumericTail (World:=nat)
    "https://www.ebay.com/itm/30-Calotropis-Procera-Leave-/317074302407"
  = Some "317074302407".
Proof.
  apply (proj1 (C7_parseNumericTail (World:=nat)
                  "https://www.ebay.com/itm/30-Calotropis-Procera-Leave-/317074302407")
           "/itm/30-Calotropis-Procera-Leave-/317074302407");
    vm_compute; [reflexivity|reflexivity|lia].
Defined.

(** The second half of C7 as specified fails on the code's fallback: a path
    whose trailing segment is no number, with [/itm/<digits>/] before it. *)
Lemma C7_counterexample :
  let url := "https://www.ebay.com/itm/123456789012/anything" in
  URL_pathname (World:=nat) url = Some "/itm/123456789012/anything" ∧
  trailingSegment "/itm/123456789012/anything" = "anything" ∧
  Regex.allDigits "anything" = false ∧
  parseNumericTail (World:=nat) url = Some "123456789012" ∧
  parseNumericTail (World:=nat) url ≠ None.
Proof. simpl. split_and!; [reflexivity..|discriminate]. Qed.

(** ** Group normalisation *)

(** C6: on the response [summariesOnlyGroup], whose [items] is an empty
    array while [itemSummaries] is the populated field, the normalised
    [items] is empty and nothing is backfilled, although
    [collectEbayItems] finds the populated array.  The same happens
    whenever the first field that holds an array holds an empty one and
    another field is populated; on every other response that is an object
    the normalised [items] is the populated array, the first one in the
    order [items], [itemSummaries], [itemSummariesV2], and the empty list
    when there is none, and [title] and [description] are the group-level
    values when non-empty and otherwise those of the first element of
    that list. *)
Theorem C6_group_normalisation :
  (populatedItems_spec summariesOnlyGroup
   = [default [] (itemSummaries summariesOnlyGroup)] ∧
   collectEbayItems (Some summariesOnlyGroup)
   = default [] (itemSummaries summariesOnlyGroup) ∧
   ∃ out,
     normalizeGroupResponse (Some summariesOnlyGroup) = Some out ∧
     items out = Some [] ∧
     title summariesOnlyGroup = None ∧
     (head (default [] (itemSummaries summariesOnlyGroup)) ≫= title) = Some "Shirt" ∧
     title out = None ∧
     description out = None) ∧
  (∀ data,
     emptyArrayFirst data → populatedItems_spec data ≠ [] →
     ∃ out,
       normalizeGroupResponse (Some data) = Some out ∧
       items out = Some [] ∧
       title out = (if Js.truthy (title data) then title data else None) ∧
       description out
       = (if Js.truthy (description data) then description data else None)) ∧
  (∀ data,
     (emptyArrayFirst data → populatedItems_spec data = []) →
     let l := default [] (head (populatedItems_spec data)) in
     ∃ out,
       normalizeGroupResponse (Some data) = Some out ∧
       items out = Some l ∧
       title out
       = (if Js.truthy (title data) then title data else head l ≫= title) ∧
       description out
       = (if Js.truthy (description data) then description data
          else head l ≫= description)).
Proof.
  split; [|split].
  - split; [reflexivity|]. split; [reflexivity|]. eexists. split; [reflexivity|].
    simpl. split_and!; done.
  - intros data Hfirst Hpop. unfold normalizeGroupResponse.
    eexists. split; [done|]. simpl. unfold Js.or_opt.
    unfold emptyArrayFirst, populatedItems_spec in *.
    destruct (items data) as [[|x1 l1]|], (itemSummaries data) as [[|x2 l2]|],
      (itemSummariesV2 data) as [[|x3 l3]|]; simpl in *;
      try (exfalso; naive_solver);
      by destruct (Js.truthy (title data)), (Js.truthy (description data)).
  - intros data Hfirst. unfold normalizeGroupResponse.
    eexists. split; [done|]. simpl. unfold Js.or_opt.
    unfold emptyArrayFirst, populatedItems_spec in *.
    destruct (items data) as [[|x1 l1]|], (itemSummaries data) as [[|x2 l2]|],
      (itemSummariesV2 data) as [[|x3 l3]|]; simpl in *;
      try (exfalso; naive_solver);
      by destruct (Js.truthy (title data)), (Js.truthy (description data)).
Qed.

Lemma C6_group_normalisation_witness :
  (emptyArrayFirst summariesOnlyGroup ∧ populatedItems_spec summariesOnlyGroup ≠ [] ∧
   ∃ out,
     normalizeGroupResponse (Some summariesOnlyGroup) = Some out ∧
     items out = Some []) ∧
  ∃ out,
    normalizeGroupResponse (Some Example.group) = Some out ∧
    items out = items Example.group ∧
    title out = Some "Shirt".
Proof.
  destruct C6_group_normalisation as (_ & Hslip & Hother). split.
  - assert (emptyArrayFirst summariesOnlyGroup) as Hfirst by (by left).
    assert (populatedItems_spec summariesOnlyGroup ≠ []) as Hpop by discriminate.
    split; [exact Hfirst|]. split; [exact Hpop|].
    destruct (Hslip summariesOnlyGroup Hfirst Hpop) as (out & Hout & Hitems & _).
    exists out. split; [exact Hout | exact Hitems].
  - destruct (Hother Example.group) as (out & Hout & Hitems & Htitle & _).
    + intros [Hi|[Hi _]]; vm_compute in Hi; discriminate Hi.
    + exists out. split_and!.
      * exact Hout.
      * rewrite Hitems. vm_compute. reflexivity.
      * rewrite Htitle. vm_compute. reflexivity.
Defined.
(** ** The resolver *)

Section ResolverFacts.
Context `{Collaborators World}.

Lemma parseGroupIdFromErrorText_truthy (text hinted : string) :
  parseGroupIdFromErrorText text = Some hinted → Js.truthy (Some hinted) = true.
Proof.
  unfold parseGroupIdFromErrorText.
  destruct (Js.truthy (Regex.matchPrefixDigits "item_group_id=" 6 text)) eqn:Ht;
    [|done].
  intros Hm. by rewrite Hm in Ht.
Qed.

Lemma truthy_Some (s : string) : s ≠ "" → Js.truthy (Some s) = true.
Proof. intros Hs. simpl. by rewrite bool_decide_eq_false_2. Qed.

(** A group lookup that fails on both endpoints leaves two notes. *)
Lemma tryGroupId_fails (id : string) (c : Ctx.t) (w w' : World) (e1 e2 : Exn.t) :
  Js.truthy (Some id) = true → Ctx.itemOrGroup c = None →
  id ∉ Ctx.attemptedGroupIds c →
  GroupLookupFails id w e1 e2 w' →
  tryGroupId (Some id) c w
  = (Ctx.push_note (attemptNote "get_items_by_item_group" id (errText e2))
       (Ctx.push_note (attemptNote "item_group" id (errText e1))
          (Ctx.add_group id c)), w').
Proof.
  intros Hid Hnone Hnew (w1 & Hg1 & Hg2). unfold tryGroupId.
  rewrite Hid, Hnone. simpl. rewrite decide_False by done.
  rewrite Hnone. simpl. rewrite Hg1. simpl. rewrite Hnone. simpl.
  by rewrite Hg2.
Qed.

(** A group lookup that succeeds sets [itemOrGroup] and [isGroup]. *)
Lemma tryGroupId_succeeds (id : string) (c : Ctx.t) (w w' : World)
    (label : string) (failed : list string) (g : EbayData) :
  Js.truthy (Some id) = true → Ctx.itemOrGroup c = None →
  id ∉ Ctx.attemptedGroupIds c →
  GroupLookupSucceeds id w label failed g w' →
  ∃ c',
    tryGroupId (Some id) c w = (c', w') ∧
    Ctx.itemOrGroup c' = normalizeGroupResponse (Some g) ∧
    Ctx.isGroup c' = true ∧
    Ctx.attemptNotes c'
    = Ctx.attemptNotes c ++ failed ++ [attemptNote label id "success"].
Proof.
  intros Hid Hnone Hnew Hok. unfold tryGroupId.
  rewrite Hid, Hnone. simpl. rewrite decide_False by done.
  destruct Hok as [g w' Hg1|e w1 g w' Hg1 Hg2].
  - rewrite Hnone. simpl. rewrite Hg1. simpl. eexists. split; [done|]. done.
  - rewrite Hnone. simpl. rewrite Hg1. simpl. rewrite Hnone. simpl.
    rewrite Hg2. eexists. split; [done|]. simpl.
    by rewrite <- app_assoc.
Qed.

Lemma scrapeRetries_resolved (sourceUrl numeric : string) (c : Ctx.t) (w : World) :
  is_Some (Ctx.itemOrGroup c) → scrapeRetries sourceUrl numeric c w = (c, w).
Proof. intros Hs. unfold scrapeRetries. by rewrite bool_decide_eq_true_2. Qed.

Lemma directItemFetches_resolved (numeric : string) (c : Ctx.t) (w : World) :
  is_Some (Ctx.itemOrGroup c) → directItemFetches numeric c w = (c, w).
Proof. intros Hs. unfold directItemFetches. by rewrite bool_decide_eq_true_2. Qed.

End ResolverFacts.

(** C5: when the legacy lookup on the numeric tail fails, the lookup of
    the group hinted in the error text fails on both group endpoints, and
    the lookup of the numeric tail as a group returns a payload, the
    resolver returns that payload, normalised, with [isGroup = true]; the
    note list holds the failure of the legacy attempt and the two failures
    of the hinted-group attempt before the success entry.  (The hinted id
    differs from the numeric tail, else the numeric tail is not looked up
    as a group a second time.) *)
Theorem C5_recovery_sequence `{Collaborators World}
    (sourceUrl numeric hinted label : string) (w0 w1 w3 w4 : World)
    (err e1 e2 : Exn.t) (failed : list string) (g : EbayData) :
  numeric ≠ "" →
  ebayGetItemByLegacyId numeric w0 = (Throw err, w1) →
  parseGroupIdFromErrorText (errText err) = Some hinted →
  hinted ≠ numeric →
  GroupLookupFails hinted w1 e1 e2 w3 →
  GroupLookupSucceeds numeric w3 label failed g w4 →
  resolve sourceUrl numeric w0 = (Ok (normalizeGroupResponse (Some g), true), w4) ∧
  is_Some (normalizeGroupResponse (Some g)) ∧
  Ctx.isGroup (recover sourceUrl numeric err w1).1 = true ∧
  Ctx.attemptNotes (recover sourceUrl numeric err w1).1
  = [attemptNote "legacy" numeric (errText err);
     attemptNote "item_group" hinted (errText e1);
     attemptNote "get_items_by_item_group" hinted (errText e2)]
    ++ failed ++ [attemptNote label numeric "success"].
Proof.
  intros Hnum Hlegacy Hhint Hne Hfail Hok.
  assert (∃ c, recover sourceUrl numeric err w1 = (c, w4) ∧
               Ctx.itemOrGroup c = normalizeGroupResponse (Some g) ∧
               Ctx.isGroup c = true ∧
               Ctx.attemptNotes c
               = [attemptNote "legacy" numeric (errText err);
                  attemptNote "item_group" hinted (errText e1);
                  attemptNote "get_items_by_item_group" hinted (errText e2)]
                 ++ failed ++ [attemptNote label numeric "success"])
    as (c & Hrec & Hitem & Hgroup & Hnotes).
  { unfold recover. rewrite Hhint.
    rewrite (tryGroupId_fails hinted _ w1 w3 e1 e2);
      [|by eapply parseGroupIdFromErrorText_truthy|done|set_solver|done].
    destruct (tryGroupId_succeeds numeric
                (Ctx.push_note (attemptNote "get_items_by_item_group" hinted (errText e2))
                   (Ctx.push_note (attemptNote "item_group" hinted (errText e1))
                      (Ctx.add_group hinted (recoveryStart numeric (errText err)))))
                w3 w4 label failed g)
      as (c & Htry & Hitem & Hgroup & Hnotes);
      [by apply truthy_Some|done|simpl; set_solver|done|].
    rewrite Htry.
    assert (is_Some (Ctx.itemOrGroup c)) as Hsome by by rewrite Hitem.
    rewrite scrapeRetries_resolved, directItemFetches_resolved by done.
    exists c. split_and!; [done|done|done|]. rewrite Hnotes. done. }
  split_and!.
  - unfold resolve. rewrite Hlegacy, Hrec. rewrite Hitem. simpl. by rewrite Hgroup.
  - done.
  - by rewrite Hrec.
  - by rewrite Hrec.
Qed.

Lemma C5_recovery_sequence_witness :
  let sourceUrl := "https://www.ebay.com/itm/Shirt-/317074302407?hash=1" in
  let numeric := "317074302407" in
  resolve sourceUrl numeric 0
  = (Ok (normalizeGroupResponse (Some Example.group), true), 4) ∧
  Ctx.attemptNotes
    (recover sourceUrl numeric
       (Error "EBAY_LEGACY_FAIL 400 use item_group_id=900000001 instead") 1).1
  = ["legacy(317074302407): EBAY_LEGACY_FAIL 400 use item_group_id=900000001 instead";
     "item_group(900000001): eBay item_group failed: 404 ";
     "get_items_by_item_group(900000001): eBay get_items_by_item_group failed: 404 ";
     "item_group(317074302407): success"].
Proof.
  destruct (C5_recovery_sequence (World:=nat)
              "https://www.ebay.com/itm/Shirt-/317074302407?hash=1"
              "317074302407" "900000001" "item_group" 0 1 3 4
              (Error "EBAY_LEGACY_FAIL 400 use item_group_id=900000001 instead")
              (Error "eBay item_group failed: 404 ")
              (Error "eBay get_items_by_item_group failed: 404 ")
              [] Example.group)
    as (Hres & _ & _ & Hnotes).
  - discriminate.
  - vm_compute. reflexivity.
  - vm_compute. reflexivity.
  - discriminate.
  - exists 2. split; vm_compute; reflexivity.
  - apply gls_detail. vm_compute. reflexivity.
  - split; [exact Hres|]. rewrite Hnotes. vm_compute. reflexivity.
Defined.

(** ** The import loop and the history *)

Section History.
Context `{Collaborators World}.

Lemma pushHistory_take (r : ImportResult.t) (cache : list ImportResult.t) :
  (length cache ≤ 50)%nat → pushHistory r cache = take 50 (r :: cache).
Proof.
  intros Hlen. unfold pushHistory. case_bool_decide as Hgt.
  - rewrite removelast_firstn_len. simpl length in *.
    replace (Nat.pred (S (length cache))) with 50 by lia. done.
  - rewrite take_ge; [done|]. simpl length in *. lia.
Qed.

Lemma take_app_take {A} (n : nat) (l k : list A) :
  take n (l ++ take n k) = take n (l ++ k).
Proof.
  rewrite !take_app. f_equal. rewrite take_take. f_equal. lia.
Qed.

Lemma recordAll_take (rs cache : list ImportResult.t) :
  (length cache ≤ 50)%nat → recordAll cache rs = take 50 (reverse rs ++ cache).
Proof.
  unfold recordAll. revert cache. induction rs as [|r rs IH]; intros cache Hlen.
  - simpl. by rewrite take_ge.
  - simpl. rewrite IH.
    + rewrite pushHistory_take by done. rewrite take_app_take.
      by rewrite reverse_cons, <- app_assoc.
    + rewrite pushHistory_take by done. rewrite length_take. lia.
Qed.

Lemma importLoop_runUrls (urls : list string) (results : list ImportResult.t)
    (w : World) (cache : list ImportResult.t) :
  foldl importLoopStep (results, w, cache) urls
  = (results ++ (runUrls w urls).1, (runUrls w urls).2,
     recordAll cache (runUrls w urls).1).
Proof.
  induction urls as [|url urls IH] using rev_ind.
  - simpl. by rewrite app_nil_r.
  - unfold runUrls, recordAll in *. rewrite !foldl_app, IH. simpl.
    destruct (importUrl url _) as [r w'] eqn:Hr. simpl.
    by rewrite foldl_app, app_assoc.
Qed.

Lemma runUrls_snoc (w : World) (urls : list string) (url : string) :
  runUrls w (urls ++ [url])
  = ((runUrls w urls).1 ++ [(importUrl url (runUrls w urls).2).1],
     (importUrl url (runUrls w urls).2).2).
Proof.
  unfold runUrls. rewrite foldl_app. simpl.
  by destruct (importUrl url _) as [r w'].
Qed.

Lemma runUrls_app (w : World) (urls1 urls2 : list string) :
  runUrls w (urls1 ++ urls2)
  = ((runUrls w urls1).1 ++ (runUrls (runUrls w urls1).2 urls2).1,
     (runUrls (runUrls w urls1).2 urls2).2).
Proof.
  induction urls2 as [|url urls2 IH] using rev_ind.
  - rewrite app_nil_r. destruct (runUrls w urls1) as [rs w1]. simpl.
    unfold runUrls. simpl. by rewrite app_nil_r.
  - rewrite app_assoc, !runUrls_snoc, IH. simpl. by rewrite app_assoc.
Qed.

Lemma runUrls_length (w : World) (urls : list string) :
  length (runUrls w urls).1 = length urls.
Proof.
  induction urls as [|url urls IH] using rev_ind; [done|].
  rewrite runUrls_snoc. simpl. rewrite !length_app, IH. done.
Qed.

Lemma runUrls_lookup (w : World) (urls : list string) (i : nat) (url : string) :
  urls !! i = Some url →
  (runUrls w urls).1 !! i = Some (importUrl url (runUrls w (take i urls)).2).1.
Proof.
  intros Hi. rewrite <- (take_drop_middle urls i url Hi) at 1.
  change (url :: drop (S i) urls) with ([url] ++ drop (S i) urls).
  rewrite app_assoc, runUrls_app, runUrls_snoc. simpl.
  assert (length (runUrls w (take i urls)).1 = i) as Hlen.
  { rewrite runUrls_length, length_take_le; [done|].
    apply lookup_lt_Some in Hi. lia. }
  rewrite <- app_assoc. rewrite lookup_app_r by lia.
  by rewrite Hlen, Nat.sub_diag.
Qed.

End History.

Section ImportBody.
Context `{Collaborators World}.

Lemma keeps_ret {A} (a : A) : keepsSourceUrl (World:=World) (ret a).
Proof. done. Qed.

Lemma keeps_throw {A} (e : Exn.t) : keepsSourceUrl (World:=World) (throw (A:=A) e).
Proof. done. Qed.

Lemma keeps_call {A} (f : World → result A * World) : keepsSourceUrl (call f).
Proof. intros r w. unfold call. by destruct (f w). Qed.

Lemma keeps_lift {A} (o : result A) : keepsSourceUrl (World:=World) (lift o).
Proof. done. Qed.

Lemma keeps_get_now : keepsSourceUrl get_now.
Proof. done. Qed.

Lemma keeps_modify (f : ImportResult.t → ImportResult.t) :
  (∀ r, ImportResult.sourceUrl (f r) = ImportResult.sourceUrl r) →
  keepsSourceUrl (World:=World) (modify_r f).
Proof. intros Hf r w. apply Hf. Qed.

Lemma keeps_bind {A B} (m : M (World:=World) A) (k : A → M (World:=World) B) :
  keepsSourceUrl m → (∀ a, keepsSourceUrl (k a)) → keepsSourceUrl (bind m k).
Proof.
  intros Hm Hk r w. unfold bind. specialize (Hm r w).
  destruct (m r w) as [[[a|e] r'] w']; simpl in *; [|done].
  by rewrite Hk.
Qed.

Ltac keeps_step :=
  first
    [ apply keeps_ret | apply keeps_throw | apply keeps_call | apply keeps_lift
    | apply keeps_get_now | apply keeps_modify; done
    | apply keeps_bind; [|intros ?] ].

Lemma payloadOf_keeps (itemOrGroup : option EbayData) (isGroup : bool) :
  keepsSourceUrl (payloadOf itemOrGroup isGroup).
Proof.
  unfold payloadOf. repeat (first [keeps_step | case_match]).
Qed.

Lemma importBody_keeps (sourceUrl : string) : keepsSourceUrl (importBody sourceUrl).
Proof.
  unfold importBody.
  repeat (first [keeps_step | apply payloadOf_keeps | case_match | progress cbv zeta]).
Qed.

Lemma importUrl_sourceUrl (sourceUrl : string) (w : World) :
  ImportResult.sourceUrl (importUrl sourceUrl w).1 = sourceUrl.
Proof.
  unfold importUrl. pose proof (importBody_keeps sourceUrl (freshResult sourceUrl) w) as Hk.
  unfold freshResult in Hk.
  destruct (importBody sourceUrl _ w) as [[[?|e] r] w']; simpl in *; done.
Qed.

Lemma runUrls_sourceUrl (w : World) (urls : list string) :
  ImportResult.sourceUrl <$> (runUrls w urls).1 = urls.
Proof.
  induction urls as [|url urls IH] using rev_ind; [done|].
  rewrite runUrls_snoc. simpl. rewrite fmap_app, IH. simpl.
  by rewrite importUrl_sourceUrl.
Qed.

End ImportBody.

Section Batches.
Context `{Collaborators World}.

Lemma requestUrls_batch (urls : list string) :
  Forall (λ u, u ≠ "") urls →
  requestUrls (Some (Body.mk None (Some urls))) = urls.
Proof.
  intros Hne. unfold requestUrls. simpl. unfold Js.filter_truthy.
  induction Hne as [|u urls Hu _ IH]; [done|].
  rewrite fmap_cons. simpl. rewrite bool_decide_eq_false_2 by done. simpl.
  f_equal. exact IH.
Qed.

Lemma POST_ok (body : option Body.t) (w : World) (cache : list ImportResult.t) :
  requestUrls body ≠ [] →
  POST (Ok body) w cache
  = (Json (runUrls w (requestUrls body)).1, (runUrls w (requestUrls body)).2,
     recordAll cache (runUrls w (requestUrls body)).1).
Proof.
  intros Hne. unfold POST. rewrite bool_decide_eq_false_2.
  - by rewrite importLoop_runUrls.
  - by destruct (requestUrls body).
Qed.

Lemma POST_history (req : result (option Body.t)) (w : World)
    (cache : list ImportResult.t) :
  ∃ rs, (POST req w cache).2 = recordAll cache rs.
Proof.
  destruct req as [body|e]; [|by exists []].
  destruct (decide (requestUrls body = [])) as [Hnil|Hne].
  - exists []. unfold POST. by rewrite Hnil.
  - eexists. by rewrite POST_ok.
Qed.

Lemma postState_run (w : World) (cache : list ImportResult.t) (urls : list string) :
  Forall (λ u, u ≠ "") urls →
  postState (w, cache) urls
  = ((runUrls w urls).2, recordAll cache (runUrls w urls).1).
Proof.
  intros Hne. unfold postState, batchRequest. cbn [fst snd].
  destruct urls as [|u urls]; [done|].
  rewrite POST_ok; rewrite requestUrls_batch by done; done.
Qed.

Lemma postState_batches (batches : list (list string)) (w : World)
    (cache : list ImportResult.t) :
  Forall (λ u, u ≠ "") (concat batches) →
  foldl postState (w, cache) batches
  = ((runUrls w (concat batches)).2,
     recordAll cache (runUrls w (concat batches)).1).
Proof.
  induction batches as [|b batches IH] using rev_ind; intros Hne; [done|].
  rewrite concat_app in Hne. simpl in Hne. rewrite app_nil_r in Hne.
  apply Forall_app in Hne as [Hne1 Hne2].
  rewrite foldl_app, IH by done. simpl.
  rewrite postState_run by done.
  rewrite concat_app. simpl. rewrite app_nil_r, runUrls_app. simpl.
  unfold recordAll. by rewrite foldl_app.
Qed.

End Batches.

(** C9: the history never holds more than 50 entries and is newest-first:
    recording a result puts it in front and keeps the first 50 entries;
    after importing 60 distinct URLs in one or more batches the history
    holds exactly the 50 most recent imports, the 60th in front, and none
    of the first 10. *)
Theorem C9_history_bounded `{Collaborators World} :
  (∀ req (w : World) cache,
     (length cache ≤ 50)%nat →
     (length (_getImportedCache (POST req w cache).2) ≤ 50)%nat) ∧
  (∀ r cache,
     (length cache ≤ 50)%nat → pushHistory r cache = take 50 (r :: cache)) ∧
  (∀ (batches : list (list string)) (w : World),
     let urls := concat batches in
     NoDup urls → Forall (λ u, u ≠ "") urls → length urls = 60 →
     let history := _getImportedCache (foldl postState (w, []) batches).2 in
     length history = 50 ∧
     ImportResult.sourceUrl <$> history = reverse (drop 10 urls) ∧
     (∃ r, head history = Some r ∧ Some (ImportResult.sourceUrl r) = urls !! 59) ∧
     (∀ u, u ∈ take 10 urls → u ∉ ImportResult.sourceUrl <$> history)).
Proof.
  split_and!.
  - intros req w cache Hlen. unfold _getImportedCache.
    destruct (POST_history req w cache) as [rs ->].
    rewrite recordAll_take by done. rewrite length_take. lia.
  - intros r cache Hlen. by apply pushHistory_take.
  - intros batches w urls Hnd Hne Hlen. simpl. unfold _getImportedCache.
    rewrite postState_batches by done. simpl. fold urls.
    rewrite recordAll_take by (simpl; lia). rewrite app_nil_r.
    assert (ImportResult.sourceUrl <$> take 50 (reverse (runUrls w urls).1)
            = reverse (drop 10 urls)) as Hsrc.
    { rewrite fmap_take, fmap_reverse, runUrls_sourceUrl, take_reverse, Hlen.
      done. }
    assert (length (take 50 (reverse (runUrls w urls).1)) = 50) as Hlen50.
    { rewrite length_take, length_reverse, runUrls_length, Hlen. done. }
    split_and!; [done|done| |].
    + destruct (take 50 (reverse (runUrls w urls).1)) as [|r rest] eqn:Hhist;
        [done|].
      exists r. split; [done|].
      assert (head (ImportResult.sourceUrl <$> r :: rest)
              = head (reverse (drop 10 urls))) as Hhead by by rewrite Hsrc.
      simpl in Hhead. rewrite Hhead, head_reverse, last_lookup, length_drop, Hlen.
      rewrite lookup_drop. done.
    + intros u Hu. rewrite Hsrc, elem_of_reverse.
      rewrite <- (take_drop 10 urls) in Hnd.
      apply NoDup_app in Hnd as (_ & Hdisj & _). by apply Hdisj.
Qed.

Lemma C9_history_bounded_witness :
  let history := _getImportedCache (foldl postState (0, []) [Example.urls60]).2 in
  (length (_getImportedCache (POST (batchRequest Example.urls60) 0 []).2) ≤ 50)%nat ∧
  length history = 50 ∧
  head (ImportResult.sourceUrl <$> history)
    = Some "https://www.ebay.com/itm/100000059" ∧
  "https://www.ebay.com/itm/100000009" ∉ ImportResult.sourceUrl <$> history.
Proof.
  destruct (C9_history_bounded (World:=nat)) as (Hbound & _ & H60).
  split.
  - apply Hbound. simpl. lia.
  - destruct (H60 [Example.urls60] 0) as (Hlen & Hsrc & _ & Hold).
    + apply (bool_decide_unpack _). vm_compute. exact I.
    + apply (bool_decide_unpack _). vm_compute. exact I.
    + vm_compute. reflexivity.
    + split_and!.
      * exact Hlen.
      * rewrite Hsrc. vm_compute. reflexivity.
      * apply Hold. apply (bool_decide_unpack _). vm_compute. exact I.
Defined.

(** C8: a failure raised while one URL is processed is caught and becomes
    that URL's result, with [status = "failed"] and the failure's message
    as [error]; the loop goes on with the next URL from the world the
    failed import left, and a request with a non-empty URL list is
    answered with exactly one result per URL, in order. *)
Theorem C8_failures_caught `{Collaborators World} :
  (∀ (sourceUrl : string) (w : World) e r' w',
     importBody sourceUrl (freshResult sourceUrl) w = (Throw e, r', w') →
     let r := (importUrl sourceUrl w).1 in
     ImportResult.status r = "failed" ∧
     ImportResult.error r = Some (errText e) ∧
     ImportResult.sourceUrl r = sourceUrl ∧
     (importUrl sourceUrl w).2 = w') ∧
  (∀ (sourceUrl : string) (w : World),
     parseNumericTail sourceUrl = None →
     importUrl sourceUrl w
     = (ImportResult.mk sourceUrl None None None None None "failed"
          (Some "Cannot parse numeric id from URL") None, w)) ∧
  (∀ (sourceUrl numeric : string) (w : World) e w',
     parseNumericTail sourceUrl = Some numeric → numeric ≠ "" →
     resolve sourceUrl numeric w = (Throw e, w') →
     importUrl sourceUrl w
     = (ImportResult.mk sourceUrl (Some numeric) None None None None "failed"
          (Some (errText e)) None, w')) ∧
  (∀ (sourceUrl numeric : string) (w w1 w2 : World) itemOrGroup isGroup
      payload r2 e,
     parseNumericTail sourceUrl = Some numeric → numeric ≠ "" →
     resolve sourceUrl numeric w = (Ok (itemOrGroup, isGroup), w1) →
     payloadOf itemOrGroup isGroup
       (ImportResult.set_legacyItemId (Some numeric) (freshResult sourceUrl)) w1
     = (Ok payload, r2, w2) →
     buildShopifyProductInputFromEbay payload = Throw e →
     importUrl sourceUrl w
     = (ImportResult.set_status "failed" (ImportResult.set_error (errText e) r2),
        w2)) ∧
  (∀ (sourceUrl numeric : string) (w w1 w2 w3 : World) itemOrGroup isGroup
      payload r2 built e,
     parseNumericTail sourceUrl = Some numeric → numeric ≠ "" →
     resolve sourceUrl numeric w = (Ok (itemOrGroup, isGroup), w1) →
     payloadOf itemOrGroup isGroup
       (ImportResult.set_legacyItemId (Some numeric) (freshResult sourceUrl)) w1
     = (Ok payload, r2, w2) →
     buildShopifyProductInputFromEbay payload = Ok built →
     productCreate (Payload.productInput built) w2 = (Throw e, w3) →
     importUrl sourceUrl w
     = (ImportResult.set_status "failed" (ImportResult.set_error (errText e) r2),
        w3)) ∧
  (∀ (body : option Body.t) (w : World) (cache : list ImportResult.t),
     requestUrls body ≠ [] →
     ∃ results w' cache',
       POST (Ok body) w cache = (Json results, w', cache') ∧
       length results = length (requestUrls body) ∧
       ImportResult.sourceUrl <$> results = requestUrls body ∧
       ∀ i url,
         requestUrls body !! i = Some url →
         results !! i
         = Some (importUrl url (runUrls w (take i (requestUrls body))).2).1).
Proof.
  split_and!.
  - intros sourceUrl w e r' w' Hbody. simpl.
    pose proof (importUrl_sourceUrl sourceUrl w) as Hsrc.
    unfold importUrl in *. unfold freshResult in Hbody. rewrite Hbody in *.
    done.
  - intros sourceUrl w Hnone. unfold importUrl, importBody. rewrite Hnone.
    done.
  - intros sourceUrl numeric w e w' Hnum Hne Hres.
    unfold importUrl, importBody. rewrite Hnum. simpl.
    rewrite bool_decide_eq_false_2 by done. simpl.
    unfold bind, ret, modify_r, call at 1. simpl. rewrite Hres. done.
  - intros sourceUrl numeric w w1 w2 itemOrGroup isGroup payload r2 e
      Hnum Hne Hres Hpayload Hbuild.
    unfold importUrl, importBody. rewrite Hnum, (truthy_Some numeric Hne).
    change (default "" (Some numeric)) with numeric.
    unfold bind, ret, modify_r, call, lift. cbn beta iota zeta delta [negb].
    rewrite Hres. cbn beta iota zeta.
    unfold freshResult in Hpayload. rewrite Hpayload. cbn beta iota zeta.
    rewrite Hbuild. done.
  - intros sourceUrl numeric w w1 w2 w3 itemOrGroup isGroup payload r2 built e
      Hnum Hne Hres Hpayload Hbuild Hcreate.
    unfold importUrl, importBody. rewrite Hnum, (truthy_Some numeric Hne).
    change (default "" (Some numeric)) with numeric.
    unfold bind, ret, modify_r, call, lift. cbn beta iota zeta delta [negb].
    rewrite Hres. cbn beta iota zeta.
    unfold freshResult in Hpayload. rewrite Hpayload. cbn beta iota zeta.
    rewrite Hbuild. cbn beta iota zeta. rewrite Hcreate. done.
  - intros body w cache Hne. eexists _, _, _. split; [by apply POST_ok|].
    split_and!.
    + apply runUrls_length.
    + apply runUrls_sourceUrl.
    + intros i url Hi. by apply runUrls_lookup.
Qed.

Lemma C8_failures_caught_witness :
  let urls :=
    ["https://www.ebay.com/itm/262742221410"; "not a url";
     "https://www.ebay.com/itm/Shirt-/317074302407?hash=1"] in
  (ImportResult.status (importUrl "not a url" 5).1 = "failed" ∧
   ImportResult.error (importUrl "not a url" 5).1
   = Some "Cannot parse numeric id from URL") ∧
  ∃ results w' cache',
    POST (batchRequest urls) 0 [] = (Json results, w', cache') ∧
    length results = 3 ∧
    ImportResult.status <$> results = ["created"; "failed"; "created"].
Proof.
  destruct (C8_failures_caught (World:=nat)) as (Hcatch & _ & _ & _ & _ & Hpost).
  split.
  - destruct (Hcatch "not a url" 5 (Error "Cannot parse numeric id from URL")
                (freshResult "not a url") 5) as (Hst & Herr & _);
      [vm_compute; reflexivity|].
    split; [exact Hst | exact Herr].
  - destruct (Hpost (Some (Body.mk None (Some
        ["https://www.ebay.com/itm/262742221410"; "not a url";
         "https://www.ebay.com/itm/Shirt-/317074302407?hash=1"]))) 0 [])
      as (results & w' & cache' & HPOST & Hlen & Hsrc & Hres);
      [vm_compute; discriminate|].
    exists results, w', cache'. split_and!.
    + exact HPOST.
    + exact Hlen.
    + vm_compute in HPOST. injection HPOST as <- _ _. vm_compute. reflexivity.
Defined.

(** ** Option axes *)

Section Aggregation.

Lemma normAspectValue_nonempty (v : AspectValue) (s : string) :
  normAspectValue v = Some s → s ≠ "".
Proof.
  destruct v as [|elems|str]; simpl; [done| |];
    case_bool_decide; [done|congruence|done|congruence].
Qed.

Lemma addAspect_observation (st : AspectTable * nat) (a : Aspect.t) :
  addAspect st a
  = match observation a with
    | Some o => addObservation st o
    | None => st
    end.
Proof.
  destruct st as [tbl cnt]. unfold addAspect, observation.
  destruct (Aspect.name a) as [n|]; simpl; [|done].
  destruct (normAspectValue (Aspect.value a)) as [v|] eqn:Hv; simpl.
  - apply normAspectValue_nonempty in Hv.
    case_bool_decide; simpl; [done|].
    rewrite bool_decide_eq_false_2 by done. done.
  - by rewrite orb_true_r.
Qed.

Lemma foldl_addAspect (l : list Aspect.t) (st : AspectTable * nat) :
  foldl addAspect st l = foldl addObservation st (omap observation l).
Proof.
  revert st. induction l as [|a l IH]; intros st; [done|].
  simpl. rewrite IH, addAspect_observation.
  by destruct (observation a).
Qed.

Lemma aspectMetaOf_observations (items : list EbayData) :
  aspectMetaOf items = (foldl addObservation ([], 0) (observations items)).1.
Proof.
  unfold aspectMetaOf, observations. f_equal.
  generalize (@nil (string * AspectMeta.t), 0).
  induction items as [|item items IH]; intros st; [done|].
  simpl. rewrite foldl_app, <- foldl_addAspect. apply IH.
Qed.

(** *** The aggregation table in closed form *)

Lemma table_add_value_fmap (key value : string) (tbl : AspectTable) :
  NoDup tbl.*1 → table_add_value key value tbl = addValue key value <$> tbl.
Proof.
  induction tbl as [|[k m] tbl IH]; intros Hnd; [done|].
  apply NoDup_cons in Hnd as [Hk Hnd]. simpl. unfold addValue at 1. simpl.
  case_bool_decide as Hkey.
  - f_equal. subst k. clear IH. induction tbl as [|[k' m'] tbl IH]; [done|].
    simpl in *. apply not_elem_of_cons in Hk as [Hne Hk].
    apply NoDup_cons in Hnd as [_ Hnd].
    unfold addValue at 1. simpl. rewrite bool_decide_eq_false_2 by done.
    f_equal. by apply IH.
  - f_equal. by apply IH.
Qed.

Lemma tableOf_keys (obs : list (string * string)) :
  (tableOf obs).*1 = Js.array_from_set (keyOf <$> obs).
Proof.
  unfold tableOf. rewrite (fmap_imap_indep fst _ id); [apply list_fmap_id|done].
Qed.

Lemma key_seen (obs : list (string * string)) (key : string) :
  key ∈ Js.array_from_set (keyOf <$> obs)
  ↔ is_Some (list_find (λ o, keyOf o = key) obs).
Proof.
  rewrite array_from_set_elem, list_elem_of_fmap. split.
  - intros (o & -> & Ho). by eapply list_find_elem_of.
  - intros [[i o] (Hi & Hk & _)%list_find_Some]. exists o. split; [done|].
    by eapply list_elem_of_lookup_2.
Qed.

Lemma observationsOf_snoc (obs : list (string * string)) (o : string * string)
    (key : string) :
  observationsOf (obs ++ [o]) key
  = observationsOf obs key ++ (if decide (keyOf o = key) then [o] else []).
Proof.
  unfold observationsOf. by rewrite filter_app.
Qed.

Lemma observationsOf_unseen (obs : list (string * string)) (key : string) :
  list_find (λ o, keyOf o = key) obs = None → observationsOf obs key = [].
Proof.
  intros Hnone%list_find_None. unfold observationsOf.
  induction Hnone as [|o obs Ho _ IH]; [done|].
  rewrite filter_cons. by rewrite decide_False.
Qed.

Lemma metaOf_snoc_other (obs : list (string * string)) (o : string * string)
    (i : nat) (key : string) :
  key ∈ Js.array_from_set (keyOf <$> obs) → keyOf o ≠ key →
  metaOf (obs ++ [o]) i key = metaOf obs i key.
Proof.
  intros [[j x] Hfind]%key_seen Hne. unfold metaOf, spelling_spec.
  rewrite observationsOf_snoc, decide_False, app_nil_r by done.
  by rewrite (list_find_app_l _ _ _ _ _ Hfind), Hfind.
Qed.

Lemma metaOf_snoc_same (obs : list (string * string)) (o : string * string)
    (i : nat) :
  keyOf o ∈ Js.array_from_set (keyOf <$> obs) →
  metaOf (obs ++ [o]) i (keyOf o) = addValue (keyOf o) o.2 (metaOf obs i (keyOf o)).
Proof.
  intros [[j x] Hfind]%key_seen. unfold metaOf, addValue, spelling_spec. simpl.
  rewrite bool_decide_eq_true_2 by done.
  rewrite observationsOf_snoc, decide_True by done.
  rewrite fmap_app. change (snd <$> [o]) with [o.2].
  rewrite array_from_set_snoc.
  by rewrite (list_find_app_l _ _ _ _ _ Hfind), Hfind.
Qed.

Lemma metaOf_snoc_new (obs : list (string * string)) (o : string * string)
    (i : nat) :
  keyOf o ∉ Js.array_from_set (keyOf <$> obs) →
  metaOf (obs ++ [o]) i (keyOf o) = (keyOf o, AspectMeta.mk o.1 [o.2] i).
Proof.
  intros Hnew. unfold metaOf, spelling_spec.
  assert (list_find (λ x, keyOf x = keyOf o) obs = None) as Hnone.
  { destruct (list_find _ obs) eqn:Hf; [|done].
    exfalso. apply Hnew, key_seen. by rewrite Hf. }
  rewrite observationsOf_snoc, decide_True, (observationsOf_unseen _ _ Hnone) by done.
  rewrite list_find_app_r by done. simpl. by rewrite decide_True.
Qed.

(** One more observation takes the table of [obs] to that of [obs ++ [o]]. *)
Lemma addObservation_tableOf (obs : list (string * string)) (o : string * string) :
  addObservation (tableOf obs, length (tableOf obs)) o
  = (tableOf (obs ++ [o]), length (tableOf (obs ++ [o]))).
Proof.
  unfold addObservation, table_has. rewrite tableOf_keys.
  pose proof (array_from_set_NoDup (keyOf <$> obs)) as Hnd.
  case_bool_decide as Hseen; simpl.
  - assert (tableOf (obs ++ [o]) = addValue (keyOf o) o.2 <$> tableOf obs) as ->.
    { unfold tableOf. rewrite fmap_app. change (keyOf <$> [o]) with [keyOf o].
      rewrite array_from_set_snoc.
      unfold Js.set_add. rewrite decide_True by done.
      rewrite fmap_imap. apply imap_ext. intros i key Hkey. simpl.
      destruct (decide (keyOf o = key)) as [<-|Hne].
      - by apply metaOf_snoc_same.
      - rewrite metaOf_snoc_other; [|by eapply list_elem_of_lookup_2|done].
        unfold addValue. simpl. by rewrite bool_decide_eq_false_2. }
    rewrite table_add_value_fmap by by rewrite tableOf_keys.
    by rewrite length_fmap.
  - assert (tableOf (obs ++ [o])
            = tableOf obs ++ [(keyOf o, AspectMeta.mk o.1 [o.2] (length (tableOf obs)))])
      as ->.
    { unfold tableOf. rewrite fmap_app. change (keyOf <$> [o]) with [keyOf o].
      rewrite array_from_set_snoc.
      unfold Js.set_add. rewrite decide_False by done.
      rewrite imap_app. simpl. f_equal.
      - apply imap_ext. intros i key Hkey. apply metaOf_snoc_other.
        + by eapply list_elem_of_lookup_2.
        + intros <-. apply Hseen. by eapply list_elem_of_lookup_2.
      - rewrite Nat.add_0_r, length_imap. by rewrite metaOf_snoc_new. }
    rewrite table_add_value_fmap.
    + rewrite fmap_app. simpl. unfold addValue at 2. simpl.
      rewrite bool_decide_eq_true_2 by done. rewrite length_app. simpl.
      f_equal; [|lia]. f_equal.
      rewrite <- (list_fmap_id (tableOf obs)) at 2.
      apply list_fmap_ext. intros i [k m] Hkm. unfold addValue. simpl.
      rewrite bool_decide_eq_false_2; [done|]. intros ->. apply Hseen.
      rewrite <- tableOf_keys. apply list_elem_of_fmap. exists (keyOf o, m).
      split; [done|]. by eapply list_elem_of_lookup_2.
    + rewrite fmap_app, tableOf_keys. simpl. apply NoDup_app.
      split_and!; [done| |apply NoDup_singleton].
      intros k Hk ->%list_elem_of_singleton. done.
Qed.

Lemma foldl_addObservation (obs : list (string * string)) :
  foldl addObservation ([], 0) obs = (tableOf obs, length (tableOf obs)).
Proof.
  induction obs as [|o obs IH] using rev_ind; [done|].
  rewrite foldl_app, IH. cbn [foldl]. apply addObservation_tableOf.
Qed.

Lemma aspectMetaOf_tableOf (items : list EbayData) :
  aspectMetaOf items = tableOf (observations items).
Proof. by rewrite aspectMetaOf_observations, foldl_addObservation. Qed.

End Aggregation.

Section SortFacts.
Context {A : Type} (cmp : A → A → Z).

Let R (x y : A) : Prop := (cmp x y ≤ 0)%Z.

Lemma JsSort_insert_perm (x : A) (l : list A) : JsSort.insert cmp x l ≡ₚ x :: l.
Proof.
  induction l as [|y l IH]; simpl; [done|].
  case_bool_decide; [done|]. rewrite IH. apply Permutation_swap.
Qed.

Lemma JsSort_sort_perm (l : list A) : JsSort.sort cmp l ≡ₚ l.
Proof.
  unfold JsSort.sort. induction l as [|x l IH]; simpl; [done|].
  by rewrite JsSort_insert_perm, IH.
Qed.

Hypothesis R_total : ∀ x y, R x y ∨ R y x.
Hypothesis R_trans : ∀ x y z, R x y → R y z → R x z.

Lemma JsSort_insert_sorted (x : A) (l : list A) :
  StronglySorted R l → StronglySorted R (JsSort.insert cmp x l).
Proof.
  induction 1 as [|y l Hl IH Hy]; simpl.
  - repeat constructor.
  - case_bool_decide as Hxy.
    + constructor; [by constructor|]. constructor; [done|].
      eapply Forall_impl; [exact Hy|]. intros z Hyz. by eapply R_trans.
    + constructor; [done|].
      rewrite (JsSort_insert_perm x l). constructor; [|done].
      by destruct (R_total x y).
Qed.

Lemma JsSort_sort_sorted (l : list A) : StronglySorted R (JsSort.sort cmp l).
Proof.
  unfold JsSort.sort. induction l as [|x l IH]; simpl; [constructor|].
  by apply JsSort_insert_sorted.
Qed.

Lemma StronglySorted_lookup (l : list A) (i j : nat) (x y : A) :
  StronglySorted R l → (i < j)%nat → l !! i = Some x → l !! j = Some y → R x y.
Proof.
  intros Hl Hij Hi Hj. rewrite <- (take_drop j l) in Hl.
  eapply StronglySorted_app_1_elem_of; [exact Hl| |].
  - apply elem_of_take. by exists i.
  - apply list_elem_of_lookup. exists 0. by rewrite lookup_drop, Nat.add_0_r.
Qed.

End SortFacts.

Section OptionAxes.
Variable obs : list (string * string).

Lemma metaLe_total (a b : AspectMeta.t) : metaLe a b ∨ metaLe b a.
Proof. unfold metaLe, compareMeta. repeat case_bool_decide; lia. Qed.

Lemma metaLe_trans (a b c : AspectMeta.t) : metaLe a b → metaLe b c → metaLe a c.
Proof. unfold metaLe, compareMeta. repeat case_bool_decide; lia. Qed.

Lemma metaLe_strict (a b : AspectMeta.t) :
  metaLe a b → AspectMeta.order a ≠ AspectMeta.order b →
  (length (AspectMeta.values b) < length (AspectMeta.values a))%nat
  ∨ (length (AspectMeta.values a) = length (AspectMeta.values b)
     ∧ (AspectMeta.order a < AspectMeta.order b)%nat).
Proof. unfold metaLe, compareMeta. repeat case_bool_decide; lia. Qed.

(** What an entry of the table says about the observations. *)
Lemma tableOf_entry (i : nat) (key : string) (meta : AspectMeta.t) :
  tableOf obs !! i = Some (key, meta) →
  AspectMeta.order meta = i
  ∧ Js.toLowerCase (AspectMeta.originalName meta) = key
  ∧ spelling_spec obs key = Some (AspectMeta.originalName meta)
  ∧ is_Some (firstSeen_spec obs key)
  ∧ length (AspectMeta.values meta)
    = cardinality_spec obs (AspectMeta.originalName meta).
Proof.
  intros Hi. unfold tableOf in Hi. rewrite list_lookup_imap in Hi.
  destruct (Js.array_from_set (keyOf <$> obs) !! i) as [k|] eqn:Hk; [|done].
  simpl in Hi. unfold metaOf in Hi. injection Hi as <- <-. simpl.
  apply list_elem_of_lookup_2, key_seen in Hk as [[j o] Hfind].
  unfold spelling_spec, firstSeen_spec. rewrite Hfind. simpl.
  apply list_find_Some in Hfind as (_ & Hkey & _).
  split_and!; [done|done|done|done|].
  unfold cardinality_spec, valueSet_spec. unfold keyOf in Hkey. rewrite Hkey.
  rewrite <- (size_list_to_set (C:=gset string)) by apply array_from_set_NoDup.
  f_equal. apply set_eq. intros v.
  by rewrite !elem_of_list_to_set, array_from_set_elem.
Qed.

(** Keys are listed in the order they are first seen. *)
Lemma keys_firstSeen (l : list (string * string)) (i i' : nat) (k k' : string) :
  (i < i')%nat →
  Js.array_from_set (keyOf <$> l) !! i = Some k →
  Js.array_from_set (keyOf <$> l) !! i' = Some k' →
  ∃ j j', firstSeen_spec l k = Some j ∧ firstSeen_spec l k' = Some j'
          ∧ (j < j')%nat.
Proof.
  revert i i' k k'. induction l as [|o l IH] using rev_ind;
    intros i i' k k' Hlt Hi Hi'; [done|].
  rewrite fmap_app in Hi, Hi'. change (keyOf <$> [o]) with [keyOf o] in Hi, Hi'.
  rewrite array_from_set_snoc in Hi, Hi'. unfold Js.set_add in Hi, Hi'.
  assert (∀ key j, firstSeen_spec l key = Some j →
                   firstSeen_spec (l ++ [o]) key = Some j) as Hkeep.
  { unfold firstSeen_spec. intros key j Hj.
    destruct (list_find _ l) as [[j0 x]|] eqn:Hf; [|done].
    by rewrite (list_find_app_l _ _ _ _ _ Hf). }
  destruct (decide (keyOf o ∈ Js.array_from_set (keyOf <$> l))) as [Hseen|Hnew].
  - destruct (IH i i' k k' Hlt Hi Hi') as (j & j' & Hj & Hj' & Hjj).
    exists j, j'. auto.
  - destruct (decide (i' < length (Js.array_from_set (keyOf <$> l)))%nat)
      as [Hin|Hout].
    + rewrite lookup_app_l in Hi, Hi' by lia.
      destruct (IH i i' k k' Hlt Hi Hi') as (j & j' & Hj & Hj' & Hjj).
      exists j, j'. auto.
    + assert (i' = length (Js.array_from_set (keyOf <$> l))) as ->.
      { apply lookup_lt_Some in Hi'. rewrite length_app in Hi'. simpl in Hi'. lia. }
      rewrite lookup_app_l in Hi by lia.
      rewrite lookup_app_r, Nat.sub_diag in Hi' by lia. simpl in Hi'.
      injection Hi' as <-.
      apply list_elem_of_lookup_2, key_seen in Hi as [[j x] Hfind].
      exists j, (length l). split_and!.
      * apply Hkeep. unfold firstSeen_spec. by rewrite Hfind.
      * unfold firstSeen_spec. rewrite list_find_app_r.
        -- simpl. rewrite decide_True by done. simpl. f_equal.
        -- destruct (list_find (λ x, keyOf x = keyOf o) l) eqn:Hf; [|done].
           exfalso. apply Hnew, key_seen. by rewrite Hf.
      * apply list_find_Some in Hfind as (Hj & _). by apply lookup_lt_Some in Hj.
Qed.

Lemma tableOf_lookup_order (meta : AspectMeta.t) :
  meta ∈ (tableOf obs).*2 →
  tableOf obs !! AspectMeta.order meta
  = Some (Js.toLowerCase (AspectMeta.originalName meta), meta).
Proof.
  intros ([k m] & -> & [i Hi]%list_elem_of_lookup_1)%list_elem_of_fmap.
  destruct (tableOf_entry i k m Hi) as (Ho & Hk & _). simpl.
  by rewrite Ho, Hk.
Qed.

Lemma tableOf_metas_NoDup : NoDup (tableOf obs).*2.
Proof.
  apply NoDup_fmap_2_strong.
  - intros [k1 m1] [k2 m2] [i1 H1]%list_elem_of_lookup_1
      [i2 H2]%list_elem_of_lookup_1 Heq.
    simpl in Heq. subst m2.
    destruct (tableOf_entry i1 k1 m1 H1) as (Ho1 & Hk1 & _).
    destruct (tableOf_entry i2 k2 m1 H2) as (Ho2 & Hk2 & _). congruence.
  - apply (NoDup_fmap_1 fst). rewrite tableOf_keys. apply array_from_set_NoDup.
Qed.

(** In the table, a smaller [order] means seen first. *)
Lemma tableOf_order_firstSeen (a b : AspectMeta.t) :
  a ∈ (tableOf obs).*2 → b ∈ (tableOf obs).*2 →
  (AspectMeta.order a < AspectMeta.order b)%nat →
  ∃ j j',
    firstSeen_spec obs (Js.toLowerCase (AspectMeta.originalName a)) = Some j
    ∧ firstSeen_spec obs (Js.toLowerCase (AspectMeta.originalName b)) = Some j'
    ∧ (j < j')%nat.
Proof.
  intros Ha%tableOf_lookup_order Hb%tableOf_lookup_order Hlt.
  eapply keys_firstSeen; [exact Hlt| |].
  - rewrite <- tableOf_keys, list_lookup_fmap, Ha. done.
  - rewrite <- tableOf_keys, list_lookup_fmap, Hb. done.
Qed.

End OptionAxes.

Section OptionNames.
Variable items : list EbayData.

Let obs : list (string * string) := observations items.
Let metas : list AspectMeta.t := (tableOf obs).*2.

(** The entries that pass the three filters, sorted. *)
Let sorted : list AspectMeta.t :=
  JsSort.sort compareMeta
    (filter (λ meta, Js.toLowerCase (AspectMeta.originalName meta)
                       ∉ DENIED_OPTION_NAMES)
    (filter (λ meta, (String.length (AspectMeta.originalName meta) ≤ 30)%nat
                     ∧ (length (AspectMeta.values meta) ≤ 50)%nat)
    (filter (λ meta, (1 < length (AspectMeta.values meta))%nat) metas))).

Lemma optionMetas_sorted : optionMetas items = take 3 sorted.
Proof. unfold optionMetas, sorted, metas, obs. by rewrite aspectMetaOf_tableOf. Qed.

Lemma sorted_elem (meta : AspectMeta.t) :
  meta ∈ sorted ↔ meta ∈ metas ∧ keepsMeta meta.
Proof.
  unfold sorted. rewrite JsSort_sort_perm, !list_elem_of_filter.
  unfold keepsMeta. tauto.
Qed.

Lemma sorted_NoDup : NoDup sorted.
Proof.
  unfold sorted. rewrite JsSort_sort_perm.
  do 3 apply NoDup_filter. apply tableOf_metas_NoDup.
Qed.

Lemma sorted_StronglySorted : StronglySorted metaLe sorted.
Proof.
  apply JsSort_sort_sorted; [apply metaLe_total|apply metaLe_trans].
Qed.

Lemma meta_qualifies (meta : AspectMeta.t) :
  meta ∈ metas → keepsMeta meta →
  qualifies_spec obs (AspectMeta.originalName meta).
Proof.
  intros Hin (H1 & [H2 H3] & H4).
  destruct (tableOf_entry obs _ _ _ (tableOf_lookup_order obs meta Hin))
    as (_ & _ & Hsp & _ & Hcard).
  unfold qualifies_spec. rewrite <- Hcard. done.
Qed.

Lemma qualifies_meta (n : string) :
  qualifies_spec obs n →
  ∃ meta, meta ∈ metas ∧ keepsMeta meta ∧ AspectMeta.originalName meta = n.
Proof.
  intros (Hsp & H1 & H2 & H3 & H4).
  assert (Js.toLowerCase n ∈ Js.array_from_set (keyOf <$> obs)) as Hkey.
  { apply key_seen. unfold spelling_spec in Hsp.
    by destruct (list_find _ obs). }
  apply list_elem_of_lookup_1 in Hkey as [i Hi].
  assert (tableOf obs !! i = Some (metaOf obs i (Js.toLowerCase n))) as Hentry.
  { unfold tableOf. by rewrite list_lookup_imap, Hi. }
  destruct (metaOf obs i (Js.toLowerCase n)) as [k meta] eqn:Hm.
  assert (k = Js.toLowerCase n) as -> by (unfold metaOf in Hm; congruence).
  destruct (tableOf_entry obs _ _ _ Hentry) as (_ & _ & Hsp' & _ & Hcard).
  assert (AspectMeta.originalName meta = n) as Hname by congruence.
  exists meta. split_and!; [|unfold keepsMeta; rewrite Hcard, Hname; done|done].
  unfold metas. apply list_elem_of_fmap. exists (Js.toLowerCase n, meta).
  split; [done|]. by eapply list_elem_of_lookup_2.
Qed.

Lemma metas_name_inj (a b : AspectMeta.t) :
  a ∈ metas → b ∈ metas →
  AspectMeta.originalName a = AspectMeta.originalName b → a = b.
Proof.
  intros Ha%tableOf_lookup_order Hb%tableOf_lookup_order Hname.
  rewrite Hname in Ha.
  assert (AspectMeta.order a = AspectMeta.order b) as Hord.
  { eapply (NoDup_lookup (tableOf obs).*1);
      [rewrite tableOf_keys; apply array_from_set_NoDup| |].
    - by rewrite list_lookup_fmap, Ha.
    - by rewrite list_lookup_fmap, Hb. }
  rewrite Hord in Ha. congruence.
Qed.

Lemma metas_rank (a b : AspectMeta.t) :
  a ∈ metas → b ∈ metas → metaLe a b → a ≠ b →
  ranksBefore_spec obs (AspectMeta.originalName a) (AspectMeta.originalName b).
Proof.
  intros Ha Hb Hle Hne.
  pose proof (tableOf_lookup_order obs a Ha) as Hla.
  pose proof (tableOf_lookup_order obs b Hb) as Hlb.
  destruct (tableOf_entry obs _ _ _ Hla) as (_ & _ & _ & _ & Hca).
  destruct (tableOf_entry obs _ _ _ Hlb) as (_ & _ & _ & _ & Hcb).
  assert (AspectMeta.order a ≠ AspectMeta.order b) as Hord.
  { intros Heq. rewrite Heq in Hla. congruence. }
  unfold ranksBefore_spec. rewrite <- Hca, <- Hcb.
  destruct (metaLe_strict a b Hle Hord) as [Hlt|[Heq Hlt]]; [by left|right].
  split; [done|]. by apply tableOf_order_firstSeen.
Qed.

(** The option names of a group with the members [items]. *)
Lemma optionNamesOf_spec :
  let optionsOrder := optionNamesOf items in
  (length optionsOrder ≤ 3)%nat ∧
  NoDup optionsOrder ∧
  (∀ n, n ∈ optionsOrder → qualifies_spec obs n) ∧
  (∀ i j n1 n2,
     (i < j)%nat → optionsOrder !! i = Some n1 → optionsOrder !! j = Some n2 →
     ranksBefore_spec obs n1 n2) ∧
  (∀ n, qualifies_spec obs n → n ∉ optionsOrder →
        length optionsOrder = 3 ∧ ∀ m, m ∈ optionsOrder → ranksBefore_spec obs m n).
Proof.
  simpl. unfold optionNamesOf. rewrite optionMetas_sorted.
  assert (∀ meta, meta ∈ take 3 sorted → meta ∈ metas ∧ keepsMeta meta) as Htake.
  { intros meta (i & Hi & _)%elem_of_take. apply sorted_elem.
    by eapply list_elem_of_lookup_2. }
  pose proof sorted_StronglySorted as Hss.
  pose proof sorted_NoDup as Hnd.
  rewrite <- (take_drop 3 sorted) in Hss, Hnd.
  split_and!.
  - rewrite length_fmap, length_take. lia.
  - apply NoDup_fmap_2_strong.
    + intros a b [Ha _]%Htake [Hb _]%Htake. by apply metas_name_inj.
    + by apply NoDup_app in Hnd as (? & _ & _).
  - intros n (meta & -> & Hin)%list_elem_of_fmap.
    destruct (Htake meta Hin). by apply meta_qualifies.
  - intros i j n1 n2 Hij Hi Hj. rewrite list_lookup_fmap in Hi, Hj.
    destruct (take 3 sorted !! i) as [a|] eqn:Ha; [|done].
    destruct (take 3 sorted !! j) as [b|] eqn:Hb; [|done].
    simpl in *. simplify_eq.
    destruct (Htake a) as [Hain _]; [by eapply list_elem_of_lookup_2|].
    destruct (Htake b) as [Hbin _]; [by eapply list_elem_of_lookup_2|].
    apply metas_rank; [done|done| |].
    + eapply (StronglySorted_lookup compareMeta); [|exact Hij|exact Ha|exact Hb].
      by apply StronglySorted_app_1_l in Hss.
    + intros ->. apply NoDup_app in Hnd as (Hnd & _ & _).
      pose proof (NoDup_lookup _ _ _ _ Hnd Ha Hb). lia.
  - intros n (meta & Hin & Hkeep & <-)%qualifies_meta Hnot.
    assert (meta ∈ drop 3 sorted) as Hdrop.
    { assert (meta ∈ take 3 sorted ++ drop 3 sorted) as [Ht|Hd]%elem_of_app;
        [rewrite take_drop; by apply sorted_elem| |done].
      exfalso. apply Hnot. by apply list_elem_of_fmap_2. }
    split.
    + rewrite length_fmap, length_take.
      assert (3 < length sorted)%nat; [|lia].
      apply list_elem_of_lookup_1 in Hdrop as [i Hi].
      rewrite lookup_drop in Hi. apply lookup_lt_Some in Hi. lia.
    + intros m (a & -> & Ha)%list_elem_of_fmap.
      destruct (Htake a Ha) as [Hain _].
      apply metas_rank; [done|done| |].
      * by eapply StronglySorted_app_1_elem_of.
      * intros ->. apply NoDup_app in Hnd as (_ & Hdisj & _).
        by apply (Hdisj meta).
Qed.

End OptionNames.

(** C2: for a group payload with at least one member, [optionsOrder] holds
    exactly the aspect names, aggregated by lower-cased name and kept in
    their first-seen spelling, that have more than one distinct
    normalised value, at most 30 characters and at most 50 distinct
    values, and are not on the deny-list; they are ordered by the number
    of distinct values, larger first, then by first appearance, and only
    the first three are kept. *)
Theorem C2_optionsOrder (group : option EbayData) :
  collectEbayItems group ≠ [] →
  ∃ payload,
    mapEbayItemGroup group = Ok payload ∧
    let obs := observations (collectEbayItems group) in
    let optionsOrder := Canonical.optionsOrder payload in
    (length optionsOrder ≤ 3)%nat ∧
    NoDup optionsOrder ∧
    (∀ n, n ∈ optionsOrder → qualifies_spec obs n) ∧
    (∀ i j n1 n2,
       (i < j)%nat → optionsOrder !! i = Some n1 → optionsOrder !! j = Some n2 →
       ranksBefore_spec obs n1 n2) ∧
    (∀ n, qualifies_spec obs n → n ∉ optionsOrder →
          length optionsOrder = 3
          ∧ ∀ m, m ∈ optionsOrder → ranksBefore_spec obs m n).
Proof.
  intros Hitems. unfold mapEbayItemGroup.
  destruct group as [g|]; [|done].
  destruct (collectEbayItems (Some g)) as [|first rest] eqn:Hcollect; [done|].
  eexists. split; [done|]. simpl.
  apply (optionNamesOf_spec (first :: rest)).
Qed.

Lemma C2_optionsOrder_witness :
  ∃ payload,
    mapEbayItemGroup (Some Example.group) = Ok payload ∧
    Canonical.optionsOrder payload = ["Color"; "Size"] ∧
    qualifies_spec (observations (collectEbayItems (Some Example.group))) "Size" ∧
    ranksBefore_spec (observations (collectEbayItems (Some Example.group)))
      "Color" "Size".
Proof.
  destruct (C2_optionsOrder (Some Example.group))
    as (payload & Hmap & _ & _ & Hqual & Hrank & _);
    [vm_compute; discriminate|].
  exists payload.
  assert (Canonical.optionsOrder payload = ["Color"; "Size"]) as Horder.
  { unfold mapEbayItemGroup in Hmap. simpl in Hmap. injection Hmap as <-.
    vm_compute. reflexivity. }
  split_and!.
  - exact Hmap.
  - exact Horder.
  - apply Hqual. rewrite Horder. apply elem_of_cons. right. apply elem_of_cons.
    by left.
  - apply (Hrank 0 1); [lia|by rewrite Horder|by rewrite Horder].
Defined.

(** * Further properties *)

(** ** The identifier extractor *)

Section GroupHint.

Lemma takeDigits_rest (s : string) :
  ∃ post, s = Regex.takeDigits s +:+ post ∧ Regex.takeDigits post = "".
Proof.
  induction s as [|c s (post & IH & Hpost)]; simpl; [by exists ""|].
  destruct (Js.isDigit c) eqn:Hc.
  - exists post. rewrite string_app_cons. split; [by f_equal|done].
  - exists (String c s). split; [done|]. simpl. by rewrite Hc.
Qed.

Lemma matchPrefixDigits_Some_run (pre : string) (n : nat) (s d : string) :
  Regex.matchPrefixDigits pre n s = Some d →
  ∃ l post, s = l +:+ pre +:+ d +:+ post ∧ Regex.takeDigits post = "".
Proof.
  assert (∀ s, Regex.prefixDigitsHere pre n s = Some d →
               ∃ post, s = pre +:+ d +:+ post ∧ Regex.takeDigits post = "")
    as Hhere.
  { intros s'. unfold Regex.prefixDigitsHere.
    destruct (Regex.stripPrefix pre s') as [rest|] eqn:Hp; [|done].
    apply stripPrefix_Some in Hp as ->.
    case_bool_decide; [|done]. intros [= <-].
    destruct (takeDigits_rest rest) as (post & Hrest & Hpost).
    exists post. by rewrite <- Hrest. }
  induction s as [|c s IH]; cbn [Regex.matchPrefixDigits].
  - destruct (Regex.prefixDigitsHere pre n "") as [d'|] eqn:Hh; [|done].
    intros [= ->]. apply Hhere in Hh as (post & ? & ?). by exists "", post.
  - destruct (Regex.prefixDigitsHere pre n (String c s)) as [d'|] eqn:Hh.
    + intros [= ->]. apply Hhere in Hh as (post & ? & ?). by exists "", post.
    + intros (l & post & -> & ?)%IH. by exists (String c l), post.
Qed.

End GroupHint.

(** X1: [parseGroupIdFromErrorText] returns a group id exactly when the
    text contains [item_group_id=] followed by at least 6 digits; the id
    is then a whole run of at least 6 digits standing right after such a
    marker. *)
Theorem X1_parseGroupIdFromErrorText (text : string) :
  (∀ id, parseGroupIdFromErrorText text = Some id →
         Regex.allDigits id = true ∧ (6 ≤ String.length id)%nat ∧
         ∃ l post, text = l +:+ "item_group_id=" +:+ id +:+ post
                   ∧ Regex.takeDigits post = "") ∧
  (parseGroupIdFromErrorText text = None
   ↔ ¬ containsPrefixDigits "item_group_id=" 6 text).
Proof.
  unfold parseGroupIdFromErrorText.
  destruct (Regex.matchPrefixDigits "item_group_id=" 6 text) as [d|] eqn:Hm.
  - pose proof (matchPrefixDigits_Some _ _ _ _ Hm) as (l & post & Htext & Hd & Hn).
    assert (Js.truthy (Some d) = true) as ->.
    { simpl. destruct d; [simpl in Hn; lia|done]. }
    split.
    + intros id [= <-]. split_and!; [done|done|].
      by apply matchPrefixDigits_Some_run in Hm.
    + split; [done|]. intros Hno. exfalso. apply Hno. by exists l, d, post.
  - simpl. split; [done|]. split; [|done]. intros _.
    intros [d Hsome]%matchPrefixDigits_complete. congruence.
Qed.

Lemma X1_parseGroupIdFromErrorText_witness :
  parseGroupIdFromErrorText
    "EBAY_LEGACY_FAIL 400 use item_group_id=900000001 instead"
  = Some "900000001" ∧
  Regex.allDigits "900000001" = true ∧ (6 ≤ String.length "900000001")%nat.
Proof.
  split; [vm_compute; reflexivity|].
  destruct (proj1 (X1_parseGroupIdFromErrorText
                     "EBAY_LEGACY_FAIL 400 use item_group_id=900000001 instead")
              "900000001") as (Hd & Hn & _); [vm_compute; reflexivity|].
  split; [exact Hd | exact Hn].
Defined.

(** ** Members of a group *)

(** X2: [collectEbayItems] returns the first populated item array in the
    order [items], [itemSummaries], [itemSummariesV2], and nothing when
    the group is missing or no array is populated; [mapEbayItemGroup]
    fails, with the missing-items error, exactly in that case. *)
Theorem X2_collectEbayItems (group : option EbayData) :
  collectEbayItems group
  = default [] (group ≫= (λ g, head (populatedItems_spec g))) ∧
  (collectEbayItems group = []
   ↔ group = None ∨ ∃ g, group = Some g ∧ populatedItems_spec g = []) ∧
  (mapEbayItemGroup group = Throw (Error "eBay group payload missing items")
   ↔ collectEbayItems group = []).
Proof.
  destruct group as [g|].
  - unfold mapEbayItemGroup, collectEbayItems, populatedItems_spec. simpl.
    destruct (items g) as [[|x1 l1]|] eqn:H1,
      (itemSummaries g) as [[|x2 l2]|] eqn:H2,
      (itemSummariesV2 g) as [[|x3 l3]|] eqn:H3; simpl;
      (split_and!;
       [ done
       | split; [intros H; try discriminate H; right; exists g;
                 by rewrite H1, H2, H3
                | intros [H|(g' & [= <-] & H)]; try discriminate H;
                  rewrite ?H1, ?H2, ?H3 in H; try discriminate H; done]
       | split; intros H; try discriminate H; done ]).
  - split_and!; [done| |done].
    split; [by left|done].
Qed.

(** X3: the resolver's normalisation of a group response is invisible to
    the reconciler: the normalised response has the same members and maps
    to the same canonical product, or the same failure, as the raw one. *)
Theorem X3_normalisation_transparent (data : option EbayData) :
  collectEbayItems (normalizeGroupResponse data) = collectEbayItems data ∧
  mapEbayItemGroup (normalizeGroupResponse data) = mapEbayItemGroup data.
Proof.
  destruct data as [g|]; [|done].
  assert (collectEbayItems (normalizeGroupResponse (Some g))
          = collectEbayItems (Some g)) as Hcollect.
  { unfold collectEbayItems, normalizeGroupResponse. simpl.
    by destruct (items g) as [[|x1 l1]|], (itemSummaries g) as [[|x2 l2]|],
      (itemSummariesV2 g) as [[|x3 l3]|]. }
  split; [done|].
  unfold mapEbayItemGroup. rewrite Hcollect.
  destruct (collectEbayItems (Some g)) as [|first rest] eqn:Hc; [done|].
  unfold normalizeGroupResponse. cbn beta iota zeta.
  assert (∀ f : EbayData → option string,
            let items_ :=
              match items g with
              | Some l => l
              | None =>
                  match itemSummaries g with
                  | Some l => l
                  | None => match itemSummariesV2 g with
                            | Some l => l
                            | None => []
                            end
                  end
              end in
            Js.or_opt (Js.or_opt (f g) (f (default emptyEbayData (head items_))))
                      (f first)
            = Js.or_opt (f g) (f first)
            ∨ f emptyEbayData ≠ None) as Hback.
  { intros f. simpl. unfold collectEbayItems in Hc.
    destruct (items g) as [[|x1 l1]|], (itemSummaries g) as [[|x2 l2]|],
      (itemSummariesV2 g) as [[|x3 l3]|]; simpl in *; simplify_eq;
      unfold Js.or_opt;
      destruct (Js.truthy (f g)) eqn:Hg; rewrite ?Hg;
      try (left; done);
      try (destruct (f emptyEbayData) eqn:He; [by right|left; by rewrite ?Hg]);
      try (left; by destruct (Js.truthy (f first))). }
  destruct (Hback title) as [Ht|Ht]; [|done].
  destruct (Hback description) as [Hd|Hd]; [|done].
  simpl in Ht, Hd. simpl. rewrite Ht, Hd. done.
Qed.

(** ** Product options and variant option values *)

(** ** Product options and variant option values *)

(** X4: when the build returns, the product options of the payload are
    not empty; their names are the option axes in order, or the single
    default axis [Title] when there is none; the option at index [i] has
    position [i + 1], and its values are non-empty, pairwise distinct
    strings, none of them empty. *)
Theorem X4_productOptions_shape (p : Canonical.t) (out : Payload.t) :
  buildShopifyProductInputFromEbay p = Ok out →
  let options := ProductInput.productOptions (Payload.productInput out) in
  options ≠ [] ∧
  ProductOption.name <$> options
  = (if bool_decide (Canonical.optionsOrder p = []) then [DEFAULT_OPTION_NAME]
     else Canonical.optionsOrder p) ∧
  ∀ i o, options !! i = Some o →
    ProductOption.position o = i + 1 ∧
    ProductOption.values o ≠ [] ∧
    NoDup (ProductOption.values o) ∧
    ∀ y, y ∈ ProductOption.values o → ∃ s, y = JsObject.Str s ∧ s ≠ "".
Proof.
  intros (Hall & -> & _)%build_fields. cbn.
  destruct (productOptions_cases p) as [[Hne ->]|[Hnil ->]].
  - rewrite bool_decide_eq_false_2 by done. split_and!.
    + unfold inferredOptions. intros Hi. apply (f_equal length) in Hi.
      rewrite length_imap in Hi. by destruct (Canonical.optionsOrder p).
    + apply inferredOptions_names.
    + intros i o (name & Hname & _ & Hpos & Hval)%inferredOptions_lookup.
      simpl in Hval. rewrite Hval. split; [done|].
      case_bool_decide as Hlen.
      * split_and!; [done|apply NoDup_singleton|].
        intros y ->%list_elem_of_singleton. eexists. split; [done|].
        apply fallbackOptionValue_nonempty.
      * split_and!.
        -- intros Hnil. by rewrite Hnil in Hlen.
        -- apply obj_array_from_set_NoDup.
        -- intros y Hy. apply found_elem_own in Hy as (s & -> & Hs & _);
             [eauto|done|by eapply list_elem_of_lookup_2].
  - rewrite bool_decide_eq_true_2 by done. split_and!; [done|done|].
    intros [|[|i]] o; simpl; intros [= <-]; simpl.
    split_and!; [done|done|apply NoDup_singleton|].
    intros y ->%list_elem_of_singleton. by eexists.
Qed.

Lemma X4_productOptions_shape_witness :
  ∃ out o,
    buildShopifyProductInputFromEbay exampleColorProduct = Ok out ∧
    ProductInput.productOptions (Payload.productInput out) !! 0 = Some o ∧
    ProductOption.position o = 0 + 1 ∧
    ProductOption.values o ≠ [] ∧
    NoDup (ProductOption.values o) ∧
    ∀ y, y ∈ ProductOption.values o → ∃ s, y = JsObject.Str s ∧ s ≠ "".
Proof.
  eexists. eexists.
  assert (buildShopifyProductInputFromEbay exampleColorProduct = Ok ?[out]) as Hout
    by (vm_compute; reflexivity).
  split; [exact Hout|]. split; [vm_compute; reflexivity|].
  apply (proj2 (proj2 (X4_productOptions_shape exampleColorProduct _ Hout)) 0).
  vm_compute. reflexivity.
Defined.

(** X5: when the build returns and option axes are defined, a value is
    listed under an axis exactly when it is a string that some variant
    carries as a non-empty value of that axis, or, when no variant
    carries a non-empty value for the axis, when it is the axis's
    fallback value. *)
Theorem X5_productOptions_values (p : Canonical.t) (out : Payload.t) (i : nat)
    (o : ProductOption.t) (y : JsObject.value) :
  buildShopifyProductInputFromEbay p = Ok out →
  Canonical.optionsOrder p ≠ [] →
  ProductInput.productOptions (Payload.productInput out) !! i = Some o →
  y ∈ ProductOption.values o ↔
    ∃ s, y = JsObject.Str s ∧
      ((s ≠ "" ∧ ∃ v, v ∈ Canonical.variants p
                      ∧ Variant.options v !! ProductOption.name o = Some s)
       ∨ (s = fallbackOptionValue (ProductOption.name o) ∧
          ∀ v, v ∈ Canonical.variants p →
               Js.truthy (Variant.options v !! ProductOption.name o) = false)).
Proof.
  intros (Hall & -> & _)%build_fields Hne. cbn.
  destruct (productOptions_cases p) as [[_ ->]|[Hnil _]]; [|done].
  intros (name & Hname & -> & _ & Hval)%inferredOptions_lookup. simpl in Hval.
  rewrite Hval. clear Hval.
  apply list_elem_of_lookup_2 in Hname.
  pose proof (λ z, found_elem_own p name z Hall Hname) as Hfound.
  set (found := JsObject.array_from_set _) in *.
  case_bool_decide as Hlen.
  - apply nil_length_inv in Hlen. rewrite list_elem_of_singleton. split.
    + intros ->. eexists. split; [done|]. right. split; [done|]. intros v Hv.
      destruct (Variant.options v !! name) as [z|] eqn:Hz; [|done].
      simpl. apply negb_false_iff, bool_decide_eq_true_2.
      destruct (decide (z = "")) as [|Hz']; [done|]. exfalso.
      assert (JsObject.Str z ∈ found) as Hin by (apply Hfound; eauto 10).
      rewrite Hlen in Hin. by apply elem_of_nil in Hin.
    + intros (s & -> & [[Hy Hv]|[-> _]]); [|done]. exfalso.
      assert (JsObject.Str s ∈ found) as Hin by (apply Hfound; eauto).
      rewrite Hlen in Hin. by apply elem_of_nil in Hin.
  - rewrite Hfound. split; [naive_solver|].
    intros (s & -> & [?|[-> Hnone]]); [eauto|]. exfalso.
    destruct found as [|z found'] eqn:Hf; [done|].
    assert (z ∈ z :: found') as Hin by (apply elem_of_cons; by left).
    apply Hfound in Hin as (s & _ & Hz & v & Hv & Hlook).
    specialize (Hnone v Hv). rewrite Hlook in Hnone. simpl in Hnone.
    apply negb_false_iff, bool_decide_eq_true_1 in Hnone. done.
Qed.

Lemma X5_productOptions_values_witness :
  ∃ out o,
    buildShopifyProductInputFromEbay exampleColorProduct = Ok out ∧
    ProductInput.productOptions (Payload.productInput out) !! 0 = Some o ∧
    (JsObject.Str "Blue" ∈ ProductOption.values o ↔
       ∃ s, JsObject.Str "Blue" = JsObject.Str s ∧
         ((s ≠ "" ∧ ∃ v, v ∈ Canonical.variants exampleColorProduct
                         ∧ Variant.options v !! ProductOption.name o = Some s)
          ∨ (s = fallbackOptionValue (ProductOption.name o) ∧
             ∀ v, v ∈ Canonical.variants exampleColorProduct →
                  Js.truthy (Variant.options v !! ProductOption.name o) = false))).
Proof.
  eexists. eexists.
  assert (buildShopifyProductInputFromEbay exampleColorProduct = Ok ?[out]) as Hout
    by (vm_compute; reflexivity).
  split; [exact Hout|]. split; [vm_compute; reflexivity|].
  apply (X5_productOptions_values exampleColorProduct _ 0 _ _ Hout); [discriminate|].
  vm_compute. reflexivity.
Defined.

(** The option values of a variant input, read against the product
    options and the variant it was built from. *)
Lemma variantInput_optionValues (p : Canonical.t) (out : Payload.t) (k : nat)
    (vi : VariantInput.t) :
  buildShopifyProductInputFromEbay p = Ok out →
  Payload.variantInputs out !! k = Some vi →
  ∃ v, firstOccurrences p (Canonical.variants p) !! k = Some v ∧
  v ∈ Canonical.variants p ∧
  Forall2
    (λ ov o,
       optionName ov = Some (ProductOption.name o) ∧
       (Canonical.optionsOrder p = [] ∧ name ov = DEFAULT_OPTION_VALUE ∨
        Variant.options v !! ProductOption.name o = Some (name ov) ∧ name ov ≠ "" ∨
        Variant.options v !! ProductOption.name o = Some "" ∧ name ov = "" ∨
        Variant.options v !! ProductOption.name o = None
        ∧ name ov = fallbackOptionValue (ProductOption.name o)) ∧
       (JsObject.Str (name ov) ∈ ProductOption.values o
        ∨ name ov = fallbackOptionValue (ProductOption.name o)
        ∨ name ov = ""))
    (VariantInput.optionValues vi)
    (ProductInput.productOptions (Payload.productInput out)).
Proof.
  intros (Hall & -> & -> & _)%build_fields. cbn.
  rewrite list_lookup_fmap, fmap_Some. intros (v & Hv & ->).
  apply lookup_take_Some in Hv as [Hv _].
  exists v. split; [done|].
  assert (v ∈ Canonical.variants p) as Hin.
  { eapply elem_of_sublist; [|apply (firstOccurrences_sublist p)].
    by eapply list_elem_of_lookup_2. }
  split; [done|]. simpl. unfold ownOptionValues.
  destruct (productOptions_cases p) as [[Hne Hopt]|[Hnil Hopt]].
  - rewrite bool_decide_eq_false_2 by done.
    rewrite Hopt. rewrite <- (inferredOptions_names p) at 1.
    rewrite <- list_fmap_compose.
    apply Forall2_fmap_l, Forall_Forall2_diag, Forall_forall.
    intros o Ho. simpl. split; [done|].
    apply list_elem_of_lookup in Ho as [j Ho].
    apply inferredOptions_lookup in Ho as (nm & Hj & Hnm & _ & Hval).
    simpl in Hval. rewrite Hnm in *.
    apply list_elem_of_lookup_2 in Hj.
    destruct (Variant.options v !! nm) as [z|] eqn:Hz; simpl.
    + destruct (decide (z = "")) as [->|Hz'].
      * split; [right; right; by left|]. right; by right.
      * split; [right; by left|]. left. rewrite Hval.
        assert (JsObject.Str z ∈ JsObject.array_from_set
                  (JsObject.filter_truthy
                     ((λ v0, JsObject.get (Variant.options v0) nm)
                        <$> Canonical.variants p)))
          as Hfound by (apply found_elem_own; eauto 10).
        case_bool_decide as Hlen; [|done].
        apply nil_length_inv in Hlen. rewrite Hlen in Hfound.
        by apply elem_of_nil in Hfound.
    + split; [right; right; by right|]. right; by left.
  - rewrite bool_decide_eq_true_2 by done.
    rewrite Hopt. constructor; [|constructor]. simpl.
    split_and!; [done|by left|].
    left. by apply list_elem_of_singleton.
Qed.

(** X6: when the build returns, every variant input names the product
    options in order, one value per option, taken from the deduplicated
    variant at its index; the value is one listed under that option, or
    the option's fallback value when the variant has no entry for the
    axis, or the empty string when the variant's entry is empty. *)
Theorem X6_variant_values_align (p : Canonical.t) (out : Payload.t) (k : nat)
    (vi : VariantInput.t) :
  buildShopifyProductInputFromEbay p = Ok out →
  Payload.variantInputs out !! k = Some vi →
  ∃ v, firstOccurrences p (Canonical.variants p) !! k = Some v ∧
  v ∈ Canonical.variants p ∧
  Forall2
    (λ ov o,
       optionName ov = Some (ProductOption.name o) ∧
       (Canonical.optionsOrder p = [] ∧ name ov = DEFAULT_OPTION_VALUE ∨
        Variant.options v !! ProductOption.name o = Some (name ov) ∧ name ov ≠ "" ∨
        Variant.options v !! ProductOption.name o = Some "" ∧ name ov = "" ∨
        Variant.options v !! ProductOption.name o = None
        ∧ name ov = fallbackOptionValue (ProductOption.name o)) ∧
       (JsObject.Str (name ov) ∈ ProductOption.values o
        ∨ name ov = fallbackOptionValue (ProductOption.name o)
        ∨ name ov = ""))
    (VariantInput.optionValues vi)
    (ProductInput.productOptions (Payload.productInput out)).
Proof. apply variantInput_optionValues. Qed.

Lemma X6_variant_values_align_witness :
  ∃ out vi v,
    buildShopifyProductInputFromEbay exampleColorProduct = Ok out ∧
    Payload.variantInputs out !! 1 = Some vi ∧
    v ∈ Canonical.variants exampleColorProduct ∧
  Forall2
    (λ ov o,
       optionName ov = Some (ProductOption.name o) ∧
       (Canonical.optionsOrder exampleColorProduct = []
        ∧ name ov = DEFAULT_OPTION_VALUE ∨
        Variant.options v !! ProductOption.name o = Some (name ov) ∧ name ov ≠ "" ∨
        Variant.options v !! ProductOption.name o = Some "" ∧ name ov = "" ∨
        Variant.options v !! ProductOption.name o = None
        ∧ name ov = fallbackOptionValue (ProductOption.name o)) ∧
       (JsObject.Str (name ov) ∈ ProductOption.values o
        ∨ name ov = fallbackOptionValue (ProductOption.name o)
        ∨ name ov = ""))
    (VariantInput.optionValues vi)
    (ProductInput.productOptions (Payload.productInput out)).
Proof.
  eexists. eexists.
  assert (buildShopifyProductInputFromEbay exampleColorProduct = Ok ?[out]) as Hout
    by (vm_compute; reflexivity).
  match type of Hout with
  | _ = Ok ?o =>
      assert (Payload.variantInputs o !! 1 = Some ?[vi]) as Hvi
        by (vm_compute; reflexivity)
  end.
  destruct (X6_variant_values_align exampleColorProduct _ 1 _ Hout Hvi)
    as (v & _ & Hin & Hall).
  exists v. split; [exact Hout|]. split; [exact Hvi|]. split; [exact Hin | exact Hall].
Defined.

(** ** Tags *)

Section TrimFacts.

Lemma trimEnd_idem (s : string) : Js.trimEnd (Js.trimEnd s) = Js.trimEnd s.
Proof.
  induction s as [|c s IH]; [done|]. simpl.
  destruct (Js.isWhiteSpace c && bool_decide (Js.trimEnd s = "")) eqn:Hc; [done|].
  simpl. by rewrite IH, Hc.
Qed.

Lemma trimStart_fixed (s : string) :
  Js.trimStart (Js.trimStart s) = Js.trimStart s.
Proof.
  induction s as [|c s IH]; [done|]. simpl.
  destruct (Js.isWhiteSpace c) eqn:Hc; [done|]. simpl. by rewrite Hc.
Qed.

Lemma trimStart_trimEnd (s : string) :
  Js.trimStart s = s → Js.trimStart (Js.trimEnd s) = Js.trimEnd s.
Proof.
  destruct s as [|c s]; [done|]. simpl.
  destruct (Js.isWhiteSpace c) eqn:Hc.
  - intros Heq. exfalso. clear Hc. revert c Heq.
    induction s as [|d s IH]; intros c; simpl; [done|].
    destruct (Js.isWhiteSpace d); [|intros Heq; apply (f_equal String.length) in Heq;
                                     simpl in Heq; lia].
    intros Heq. assert (String.length (Js.trimStart s) ≤ String.length s)%nat.
    { clear. induction s as [|e s IH]; simpl; [lia|].
      destruct (Js.isWhiteSpace e); simpl; lia. }
    apply (f_equal String.length) in Heq. simpl in Heq. lia.
  - intros _. simpl. by rewrite Hc.
Qed.

Lemma trim_idem (s : string) : Js.trim (Js.trim s) = Js.trim s.
Proof.
  unfold Js.trim.
  rewrite (trimStart_trimEnd (Js.trimStart s)) by apply trimStart_fixed.
  apply trimEnd_idem.
Qed.

End TrimFacts.

(** X7: the tags sent to the platform are the trimmed, non-empty tags of
    the canonical product, each listed once; a listed tag has no
    surrounding white space. *)
Theorem X7_tags (p : Canonical.t) :
  let tags := uniqueTags p in
  (∀ out, buildShopifyProductInputFromEbay p = Ok out →
          ProductInput.tags (Payload.productInput out) = tags) ∧
  NoDup tags ∧
  (∀ t, t ∈ tags ↔ t ≠ "" ∧ ∃ tag, tag ∈ Canonical.tags p ∧ Js.trim tag = t) ∧
  (∀ t, t ∈ tags → Js.trim t = t).
Proof.
  cbn. split; [by intros out (_ & -> & _)%build_fields|]. unfold uniqueTags.
  assert (∀ t, t ∈ Js.array_from_set
                 (Js.filter_truthy ((λ tag, Some (Js.trim tag)) <$> Canonical.tags p))
               ↔ t ≠ "" ∧ ∃ tag, tag ∈ Canonical.tags p ∧ Js.trim tag = t) as Hin.
  { intros t. rewrite array_from_set_elem, filter_truthy_elem, list_elem_of_fmap.
    naive_solver. }
  split_and!; [apply array_from_set_NoDup|done|].
  intros t (_ & tag & _ & <-)%Hin. apply trim_idem.
Qed.

Lemma X7_tags_witness :
  let p :=
    Canonical.mk (Some "Shirt") None [] [" Tops "; ""; "Tops"; "Men"] None [] [] in
  ∃ out,
    buildShopifyProductInputFromEbay p = Ok out ∧
    "Tops" ∈ ProductInput.tags (Payload.productInput out) ∧ Js.trim "Tops" = "Tops".
Proof.
  simpl. eexists.
  assert (buildShopifyProductInputFromEbay
            (Canonical.mk (Some "Shirt") None [] [" Tops "; ""; "Tops"; "Men"]
               None [] []) = Ok ?[out]) as Hout by (vm_compute; reflexivity).
  split; [exact Hout|].
  destruct (X7_tags
              (Canonical.mk (Some "Shirt") None [] [" Tops "; ""; "Tops"; "Men"]
                 None [] [])) as (Hsent & _ & Hin & Htrim).
  assert ("Tops" ∈ uniqueTags
            (Canonical.mk (Some "Shirt") None [] [" Tops "; ""; "Tops"; "Men"]
               None [] [])) as Hmem.
  { apply Hin. split; [discriminate|]. exists " Tops ". split; [|reflexivity].
    apply (bool_decide_unpack _). vm_compute. exact I. }
  split; [rewrite (Hsent _ Hout); exact Hmem|]. apply Htrim. exact Hmem.
Defined.

(** ** A single listing *)

Section SingleItem.

Lemma filter_truthy_Some (l : list string) :
  "" ∉ l → Js.filter_truthy (Some <$> l) = l.
Proof.
  induction l as [|x l IH]; [done|]. intros Hl.
  apply not_elem_of_cons in Hl as [Hx Hl].
  change (Js.filter_truthy (Some <$> x :: l))
    with (match (if Js.truthy (Some x) then Some x else None) with
          | Some y => y :: Js.filter_truthy (Some <$> l)
          | None => Js.filter_truthy (Some <$> l)
          end).
  rewrite truthy_Some by done. by rewrite IH.
Qed.

Lemma imageSources_own (sku : option string) (price currency : string)
    (options : gmap string string) (images : list string) :
  NoDup images → "" ∉ images →
  imageSources (Variant.mk sku price currency options (head images) (Some images))
  = images.
Proof.
  intros Hnd Hne. rewrite imageSources_spec. simpl.
  rewrite filter_truthy_Some, array_from_set_NoDup_id by done.
  destruct images as [|u images]; simpl; [done|].
  rewrite decide_False; [by rewrite app_nil_r|].
  intros [_ Hu]. apply Hu, elem_of_cons. by left.
Qed.

Lemma or_opt_head (a b : option string) (l : list (option string)) :
  head (Js.filter_truthy (Js.or_opt a b :: l)) = head (Js.filter_truthy (a :: b :: l)).
Proof.
  unfold Js.or_opt, Js.filter_truthy. simpl.
  destruct (Js.truthy a) eqn:Ha; simpl.
  - rewrite Ha. by destruct a.
  - done.
Qed.

Lemma or_str_head (a : option string) (b : string) :
  b ≠ "" → head (Js.filter_truthy [a; Some b]) = Some (Js.or_str a b).
Proof.
  intros Hb. unfold Js.filter_truthy, Js.or_str. destruct a as [s|]; simpl.
  - case_bool_decide; simpl; [|done]. by rewrite bool_decide_eq_false_2.
  - by rewrite bool_decide_eq_false_2.
Qed.

End SingleItem.

(** X8: a single listing becomes a product with the one default option
    and exactly one variant: its SKU is the first non-empty of the
    listing's [mpn], [epid], [legacyItemId], [itemId] and the generated
    [EBAY-<time>], hence never empty; its price defaults to [0.00]; its
    images are the listing's distinct non-empty images, the first one
    being the variant's media source; nothing is reported as dropped. *)
Theorem X8_single_item_payload (now : string) (item : EbayData) :
  let images := Js.array_from_set (imageCandidatesOf item) in
  ∃ out sku,
    buildShopifyProductInputFromEbay (mapEbaySingleItem now item) = Ok out ∧
    sku ≠ "" ∧
    head (Js.filter_truthy
            [mpn item; epid item; legacyItemId item; itemId item;
             Some ("EBAY-" +:+ now)]) = Some sku ∧
    ProductInput.productOptions (Payload.productInput out)
    = [ProductOption.mk "Title" 1 [JsObject.Str "Default Title"]] ∧
    Payload.variantInputs out
    = [VariantInput.mk (default "0.00" (priceOf item)) "DENY" (Some sku)
         [mkVariantOptionValue (Some "Title") "Default Title"]
         (mediaSrcOf images)] ∧
    Payload.variantAssets out
    = [VariantAsset.mk ("title=default title|sku=" +:+ normalizeKeyPart (Some sku))
         images] ∧
    Payload.meta out = None.
Proof.
  cbn zeta.
  set (sku := Js.or_str
      (Js.or_opt (Js.or_opt (Js.or_opt (mpn item) (epid item)) (legacyItemId item))
                 (itemId item))
      ("EBAY-" +:+ now)).
  assert (Hne : sku ≠ "").
  { unfold sku, Js.or_str.
    destruct (Js.or_opt _ _) as [s|]; [case_bool_decide; done|done]. }
  assert (Himg : NoDup (Js.array_from_set (imageCandidatesOf item))
                 ∧ "" ∉ Js.array_from_set (imageCandidatesOf item)).
  { split; [apply array_from_set_NoDup|].
    rewrite array_from_set_elem. unfold imageCandidatesOf.
    rewrite filter_truthy_elem. tauto. }
  destruct Himg as [Hnd Hno].
  assert (Forall (readsOwn (mapEbaySingleItem now item))
            (Canonical.variants (mapEbaySingleItem now item))) as Hall.
  { apply Forall_forall. intros v _. unfold readsOwn. simpl. constructor. }
  destruct (build_returns _ Hall) as [out Hout]. exists out, sku.
  split; [done|]. split; [done|]. split.
  { do 3 rewrite <- or_opt_head. apply or_str_head.
    rewrite string_app_cons. done. }
  apply build_fields in Hout as (_ & Hprod & Hin & Has & Hmeta).
  set (images := Js.array_from_set (imageCandidatesOf item)) in *.
  set (v := Variant.mk (Some sku) (default "0.00" (priceOf item))
              (default "USD" (currencyOf item)) ∅ (head images) (Some images)).
  assert (Canonical.variants (mapEbaySingleItem now item) = [v]) as Hvs by done.
  assert (firstOccurrences (mapEbaySingleItem now item) [v] = [v]) as Hkept.
  { unfold firstOccurrences. cbn [imap omap list_omap fst snd take fmap list_fmap].
    by rewrite decide_False by apply not_elem_of_nil. }
  cbv zeta in Hin, Has, Hmeta. rewrite Hvs, Hkept in Hin, Has, Hmeta.
  rewrite Hprod, Hin, Has, Hmeta. clear Hprod Hin Has Hmeta.
  assert (imageSources v = images) as Himages by (by apply imageSources_own).
  split_and!; [done| | |done].
  - simpl. unfold inputOf. rewrite Himages. done.
  - simpl. unfold assetOf. rewrite Himages. f_equal. f_equal.
    unfold variantKeyOf, buildVariantKey. simpl fmap. simpl Variant.sku.
    rewrite truthy_Some by done. reflexivity.
Qed.

(** ** The canonical product of a group *)

Section GroupFacts.

(** The aspect that [variantOfItem] reads for the axis [name]: the first
    one whose trimmed name equals [name] up to case. *)
Lemma variantOfItem_options (names : list string) (first it : EbayData)
    (name value : string) :
  Variant.options (variantOfItem names first it) !! name = Some value ↔
  name ∈ names ∧ name ≠ "__proto__" ∧ value ≠ "" ∧
  ∃ i a, itemAspects it !! i = Some a ∧
    Js.toLowerCase (Js.trim (Js.or_str (Aspect.name a) "")) = Js.toLowerCase name ∧
    (∀ j b, itemAspects it !! j = Some b → (j < i)%nat →
       Js.toLowerCase (Js.trim (Js.or_str (Aspect.name b) "")) ≠ Js.toLowerCase name) ∧
    normAspectValue (Aspect.value a) = Some value.
Proof.
  unfold variantOfItem. cbn [Variant.options].
  set (valueOf := λ nm : string,
    normAspectValue
      match list_find (λ a : Aspect.t,
              Js.toLowerCase (Js.trim (Js.or_str (Aspect.name a) ""))
              = Js.toLowerCase nm) (itemAspects it) with
      | Some (_, a) => Aspect.value a
      | None => ValNullish
      end).
  assert (Hfold : ∀ l,
    let options :=
      foldl (λ (options : gmap string string) nm,
               if Js.truthy (valueOf nm)
               then JsObject.set nm (default "" (valueOf nm)) options
               else options) ∅ l in
    options !! "__proto__" = None ∧
    (options !! name = Some value
     ↔ name ∈ l ∧ name ≠ "__proto__" ∧ value ≠ "" ∧ valueOf name = Some value)).
  { induction l as [|n l [IHp IH]] using rev_ind.
    - simpl. rewrite !lookup_empty, elem_of_nil. naive_solver.
    - cbv zeta in *. rewrite foldl_app. cbn [foldl].
      set (options := foldl _ ∅ l) in *. rewrite elem_of_app, list_elem_of_singleton.
      destruct (Js.truthy (valueOf n)) eqn:Ht.
      + unfold JsObject.set. destruct (decide (n = "__proto__")) as [->|Hproto].
        * rewrite bool_decide_eq_true_2 by done.
          rewrite (bool_decide_eq_true_2 _ IHp). cbn [andb].
          split; [done|]. rewrite IH. naive_solver.
        * rewrite (bool_decide_eq_false_2 _ Hproto). cbn [andb].
          split; [by rewrite lookup_insert_ne|].
          destruct (decide (n = name)) as [->|Hn].
          -- rewrite lookup_insert_eq.
             destruct (valueOf name) as [z|] eqn:Hz; [|done]. simpl in *.
             apply negb_true_iff, bool_decide_eq_false_1 in Ht.
             split; [intros [= <-]; auto|]. by intros (_ & _ & _ & [= <-]).
          -- rewrite lookup_insert_ne by done. rewrite IH. naive_solver.
      + split; [done|]. rewrite IH. split; [naive_solver|].
        intros ([?| ->] & Hp & Hv & Hval); [done|]. exfalso.
        rewrite Hval in Ht. simpl in Ht.
        by apply negb_false_iff, bool_decide_eq_true_1 in Ht. }
  transitivity (name ∈ names ∧ name ≠ "__proto__" ∧ value ≠ ""
                ∧ valueOf name = Some value);
    [exact (proj2 (Hfold names))|].
  unfold valueOf. clear Hfold valueOf.
  split.
  - intros (Hin & Hp & Hne & Hval). split; [done|]. split; [done|]. split; [done|].
    destruct (list_find _ _) as [[i a]|] eqn:Hfind; [|done].
    apply list_find_Some in Hfind as (Hi & Ha & Hfirst).
    exists i, a. split_and!; done.
  - intros (Hin & Hp & Hne & i & a & Hi & Ha & Hfirst & Hval).
    split; [done|]. split; [done|]. split; [done|].
    assert (list_find (λ a : Aspect.t,
              Js.toLowerCase (Js.trim (Js.or_str (Aspect.name a) ""))
              = Js.toLowerCase name) (itemAspects it) = Some (i, a)) as ->; [|done].
    apply list_find_Some. split_and!; done.
Qed.

Lemma or_str_nonempty (a : option string) (b : string) : b ≠ "" → Js.or_str a b ≠ "".
Proof. intros Hb. unfold Js.or_str. destruct a; [case_bool_decide|]; done. Qed.

Lemma mapEbayItemGroup_Ok (group : option EbayData) (c : Canonical.t) :
  mapEbayItemGroup group = Ok c →
  let items := collectEbayItems group in
  ∃ g first,
    group = Some g ∧ head items = Some first ∧
    Canonical.title c
    = Some (Js.or_str (Js.or_opt (title g) (title first)) "Imported from eBay") ∧
    Canonical.variants c = (variantOfItem (optionNamesOf items) first <$> items) ∧
    Canonical.optionsOrder c = optionNamesOf items ∧
    Canonical.imageUrls c = Js.array_from_set (items ≫= imageCandidatesOf).
Proof.
  unfold mapEbayItemGroup. destruct group as [g|]; [|done].
  destruct (collectEbayItems (Some g)) as [|first rest] eqn:Hitems; [done|].
  intros Hc. injection Hc as <-. exists g, first. split_and!; reflexivity.
Qed.

End GroupFacts.

(** X9: the canonical product of a group has a non-empty title, one
    variant per member in member order, and as images the members'
    distinct non-empty images.  A variant's images
    are its member's non-empty images; its options assign to an axis
    other than [__proto__] the non-empty normalised value of the
    member's first aspect of that name (compared trimmed and without
    case), and nothing else: the assignment of a string to [__proto__]
    creates no property. *)
Theorem X9_group_product (group : option EbayData) (c : Canonical.t) :
  mapEbayItemGroup group = Ok c →
  let items := collectEbayItems group in
  items ≠ [] ∧
  (∃ t, Canonical.title c = Some t ∧ t ≠ "") ∧
  length (Canonical.variants c) = length items ∧
  NoDup (Canonical.imageUrls c) ∧
  (∀ u, u ∈ Canonical.imageUrls c ↔
        u ≠ "" ∧ ∃ it, it ∈ items
                       ∧ Some u ∈ image_imageUrl it :: default [] (additionalImages it)) ∧
  ∀ k v, Canonical.variants c !! k = Some v →
    ∃ it, items !! k = Some it ∧
      Variant.imageUrls v = Some (Js.filter_truthy
        (image_imageUrl it :: default [] (additionalImages it))) ∧
      ∀ name value, Variant.options v !! name = Some value ↔
        name ∈ Canonical.optionsOrder c ∧ name ≠ "__proto__" ∧ value ≠ "" ∧
        ∃ i a, itemAspects it !! i = Some a ∧
          Js.toLowerCase (Js.trim (Js.or_str (Aspect.name a) "")) = Js.toLowerCase name ∧
          (∀ j b, itemAspects it !! j = Some b → (j < i)%nat →
             Js.toLowerCase (Js.trim (Js.or_str (Aspect.name b) ""))
             ≠ Js.toLowerCase name) ∧
          normAspectValue (Aspect.value a) = Some value.
Proof.
  intros (g & first & -> & Hfirst & Htitle & Hvariants & Horder & Himages)
    %mapEbayItemGroup_Ok.
  cbv zeta. rewrite Htitle, Hvariants, Horder, Himages.
  clear Htitle Hvariants Horder Himages.
  split_and!.
  - intros Hnil. by rewrite Hnil in Hfirst.
  - eexists. split; [done|]. by apply or_str_nonempty.
  - by rewrite length_fmap.
  - apply array_from_set_NoDup.
  - intros u. rewrite array_from_set_elem, list_elem_of_bind.
    unfold imageCandidatesOf. setoid_rewrite filter_truthy_elem. naive_solver.
  - intros k v. rewrite list_lookup_fmap, fmap_Some. intros (it & Hit & ->).
    exists it. split; [done|]. split; [done|].
    intros name value. apply variantOfItem_options.
Qed.

Lemma X9_group_product_witness :
  ∃ c, mapEbayItemGroup (Some Example.group) = Ok c ∧
       length (Canonical.variants c)
       = length (collectEbayItems (Some Example.group)).
Proof.
  eexists. split; [vm_compute; reflexivity|].
  refine (proj1 (proj2 (proj2 (X9_group_product (Some Example.group) _ _)))).
  vm_compute. reflexivity.
Defined.

(** X10: for a group whose canonical product the build accepts, every
    option value of every variant input of the payload is non-empty, and
    it is either listed under its product option or the option's
    fallback value. *)
Theorem X10_group_values_listed (group : option EbayData) (c : Canonical.t)
    (out : Payload.t) (k : nat) (vi : VariantInput.t) :
  mapEbayItemGroup group = Ok c →
  buildShopifyProductInputFromEbay c = Ok out →
  Payload.variantInputs out !! k = Some vi →
  Forall2
    (λ ov o,
       optionName ov = Some (ProductOption.name o) ∧ name ov ≠ "" ∧
       (JsObject.Str (name ov) ∈ ProductOption.values o
        ∨ name ov = fallbackOptionValue (ProductOption.name o)))
    (VariantInput.optionValues vi)
    (ProductInput.productOptions (Payload.productInput out)).
Proof.
  intros Hmap Hout Hk.
  destruct (variantInput_optionValues c out k vi Hout Hk) as (v & _ & Hv & Hall).
  eapply Forall2_impl; [exact Hall|]. simpl.
  intros ov o (Hname & Hprec & Hweak). split; [done|].
  assert (name ov ≠ "") as Hne; [|split; [done|]; naive_solver].
  destruct Hprec as [[_ ->]|[[_ Hne]|[[Hsome _]|[_ ->]]]]; [done|done| |].
  - exfalso. apply list_elem_of_lookup in Hv as [i Hi].
    apply mapEbayItemGroup_Ok in Hmap
      as (g & first & _ & _ & _ & Hvariants & _ & _).
    rewrite Hvariants, list_lookup_fmap, fmap_Some in Hi.
    destruct Hi as (it & _ & ->).
    apply variantOfItem_options in Hsome as (_ & _ & Hne & _). done.
  - apply fallbackOptionValue_nonempty.
Qed.

Lemma X10_group_values_listed_witness :
  ∃ c out vi,
    mapEbayItemGroup (Some Example.group) = Ok c ∧
    buildShopifyProductInputFromEbay c = Ok out ∧
    Payload.variantInputs out !! 0 = Some vi ∧
  Forall2
    (λ ov o,
       optionName ov = Some (ProductOption.name o) ∧ name ov ≠ "" ∧
       (JsObject.Str (name ov) ∈ ProductOption.values o
        ∨ name ov = fallbackOptionValue (ProductOption.name o)))
    (VariantInput.optionValues vi)
    (ProductInput.productOptions (Payload.productInput out)).
Proof.
  eexists. eexists. eexists.
  assert (mapEbayItemGroup (Some Example.group) = Ok ?[c]) as Hmap
    by (vm_compute; reflexivity).
  match type of Hmap with
  | _ = Ok ?c0 =>
      assert (buildShopifyProductInputFromEbay c0 = Ok ?[out]) as Hout
        by (vm_compute; reflexivity)
  end.
  match type of Hout with
  | _ = Ok ?o =>
      assert (Payload.variantInputs o !! 0 = Some ?[vi]) as Hvi
        by (vm_compute; reflexivity)
  end.
  split; [exact Hmap|]. split; [exact Hout|]. split; [exact Hvi|].
  exact (X10_group_values_listed (Some Example.group) _ _ 0 _ Hmap Hout Hvi).
Defined.

(** ** Media of the created product *)

Section MediaFacts.
Context `{Collaborators World}.

Lemma filter_truthy_cons (x : option string) (xs : list (option string)) :
  Js.filter_truthy (x :: xs)
  = (if Js.truthy x then [default "" x] else []) ++ Js.filter_truthy xs.
Proof.
  unfold Js.filter_truthy. simpl. destruct (Js.truthy x) eqn:Hx; [|done].
  destruct x; [done|discriminate].
Qed.

(** [pushImage] keeps [seenImages] equal to the set of [orderedImages] and
    appends like a set insertion. *)
Lemma foldl_pushImage (urls : list (option string)) (st : gset string * list string) :
  (∀ u, u ∈ st.1 ↔ u ∈ st.2) →
  (∀ u, u ∈ (foldl pushImage st urls).1 ↔ u ∈ (foldl pushImage st urls).2) ∧
  (foldl pushImage st urls).2 = foldl Js.set_add st.2 (Js.filter_truthy urls).
Proof.
  revert st. induction urls as [|url urls IH]; intros [seen ordered] Hinv; [done|].
  cbn [foldl]. rewrite filter_truthy_cons.
  assert ((∀ u, u ∈ (pushImage (seen, ordered) url).1
                ↔ u ∈ (pushImage (seen, ordered) url).2) ∧
          (pushImage (seen, ordered) url).2
          = foldl Js.set_add ordered (if Js.truthy url then [default "" url] else []))
    as [Hinv' Hord].
  { unfold pushImage. destruct (Js.truthy url); simpl; [|done].
    simpl in Hinv. unfold Js.set_add. case_decide as Hseen.
    - rewrite decide_True by by apply Hinv. done.
    - rewrite decide_False by by rewrite <- Hinv. simpl. split; [|done].
      intros u. rewrite elem_of_union, elem_of_singleton, elem_of_app,
        list_elem_of_singleton, Hinv. tauto. }
  destruct (IH _ Hinv') as [IH1 IH2]. split; [done|].
  by rewrite IH2, Hord, foldl_app.
Qed.

Lemma orderedImagesOf_spec (variantAssets : list VariantAsset.t)
    (payloadImageUrls : list string) :
  orderedImagesOf variantAssets payloadImageUrls
  = Js.array_from_set
      (Js.filter_truthy
         (((λ asset, head (VariantAsset.imageUrls asset)) <$> variantAssets)
            ++ (Some <$> payloadImageUrls))).
Proof.
  unfold orderedImagesOf.
  assert (∀ st,
    foldl (λ st asset,
             if bool_decide (0 < length (VariantAsset.imageUrls asset))
             then pushImage st (head (VariantAsset.imageUrls asset)) else st)
          st variantAssets
    = foldl pushImage st
        ((λ asset, head (VariantAsset.imageUrls asset)) <$> variantAssets)) as ->.
  { induction variantAssets as [|a l IH]; intros st; [done|]. simpl.
    rewrite IH. f_equal. destruct (VariantAsset.imageUrls a); simpl; [|done].
    by destruct st. }
  assert (∀ st,
    foldl (λ st url, pushImage st (Some url)) st payloadImageUrls
    = foldl pushImage st (Some <$> payloadImageUrls)) as ->.
  { induction payloadImageUrls as [|u l IH]; intros st; [done|]. simpl.
    by rewrite IH. }
  rewrite <- foldl_app.
  destruct (foldl_pushImage
              (((λ asset, head (VariantAsset.imageUrls asset)) <$> variantAssets)
                 ++ (Some <$> payloadImageUrls)) (∅, [])) as [_ ->]; [|done].
  intros u. simpl. rewrite elem_of_nil. set_solver.
Qed.

Lemma mediaInputsOf_sources (title : option string) (orderedImages : list string) :
  MediaInput.originalSource <$> mediaInputsOf title orderedImages
  = take MEDIA_UPLOAD_LIMIT orderedImages.
Proof.
  unfold mediaInputsOf. rewrite (fmap_imap_indep _ _ id); [|done].
  by rewrite list_fmap_id.
Qed.

Lemma mediaIdByUrlOf_prefix (mediaInputs : list MediaInput.t)
    (createdMedia : list (option string)) (n : nat) (u id : string) :
  NoDup (MediaInput.originalSource <$> mediaInputs) →
  (n ≤ length mediaInputs)%nat →
  foldl (λ (m : gmap string string) i,
           let media_id := mjoin (createdMedia !! i) in
           match mediaInputs !! i with
           | Some input =>
               if Js.truthy media_id
                  && Js.truthy (Some (MediaInput.originalSource input))
               then <[MediaInput.originalSource input := default "" media_id]> m
               else m
           | None => m
           end)
        ∅ (seq 0 n) !! u = Some id
  ↔ u ≠ "" ∧ id ≠ "" ∧
    ∃ i input, (i < n)%nat ∧ mediaInputs !! i = Some input ∧
      MediaInput.originalSource input = u ∧ createdMedia !! i = Some (Some id).
Proof.
  intros Hnd.
  set (step := λ (m : gmap string string) i,
           let media_id := mjoin (createdMedia !! i) in
           match mediaInputs !! i with
           | Some input =>
               if Js.truthy media_id
                  && Js.truthy (Some (MediaInput.originalSource input))
               then <[MediaInput.originalSource input := default "" media_id]> m
               else m
           | None => m
           end).
  induction n as [|n IH]; intros Hn.
  - simpl. rewrite lookup_empty. split; [done|]. intros (_ & _ & i & _ & ? & _). lia.
  - rewrite seq_S, foldl_app. cbn [foldl Nat.add]. unfold step at 1. cbv beta zeta.
    destruct (mediaInputs !! n) as [input|] eqn:Hinput;
      [|apply lookup_ge_None in Hinput; lia].
    assert (∀ i input', (i < n)%nat → mediaInputs !! i = Some input' →
              MediaInput.originalSource input' ≠ MediaInput.originalSource input)
      as Hfresh.
    { intros i input' Hi Hin Heq.
      assert (i = n); [|lia].
      eapply NoDup_lookup; [exact Hnd| |];
        rewrite list_lookup_fmap; [rewrite Hin|rewrite Hinput]; simpl; [done|].
      by rewrite Heq. }
    destruct (Js.truthy (mjoin (createdMedia !! n))
              && Js.truthy (Some (MediaInput.originalSource input))) eqn:Hcond.
    + apply andb_true_iff in Hcond as [Hid Hsrc].
      destruct (createdMedia !! n) as [[mid|]|] eqn:Hmid; simpl in Hid; try done.
      apply negb_true_iff, bool_decide_eq_false_1 in Hid.
      simpl in Hsrc. apply negb_true_iff, bool_decide_eq_false_1 in Hsrc.
      destruct (decide (MediaInput.originalSource input = u)) as [Hu|Hu].
      * rewrite Hu, lookup_insert_eq. simpl. split.
        -- intros [= <-]. split; [by rewrite <- Hu|]. split; [done|].
           exists n, input. split_and!; [lia|done|done|done].
        -- intros (_ & _ & i & input' & Hi & Hin & Hsrc' & Hcm).
           destruct (decide (i = n)) as [->|Hne]; [congruence|].
           exfalso. apply (Hfresh i input'); [lia|done|congruence].
      * rewrite lookup_insert_ne by done. rewrite IH by lia.
        split; intros (? & ? & i & input' & Hi & Hin & Hsrc' & Hcm);
          (split; [done|split; [done|]]); exists i, input'.
        -- split_and!; [lia|done|done|done].
        -- destruct (decide (i = n)) as [->|Hne]; [congruence|].
           split_and!; [lia|done|done|done].
    + rewrite IH by lia.
      split; intros (Hu & Hid & i & input' & Hi & Hin & Hsrc' & Hcm);
        (split; [done|split; [done|]]); exists i, input'.
      * split_and!; [lia|done|done|done].
      * destruct (decide (i = n)) as [->|Hne]; [|split_and!; [lia|done|done|done]].
        exfalso. rewrite Hinput in Hin. injection Hin as <-.
        rewrite Hcm in Hcond. simpl in Hcond.
        rewrite Hsrc' in Hcond.
        rewrite !bool_decide_eq_false_2 in Hcond by done. done.
Qed.

(** The inner loop collecting the media ids of a variant. *)
Lemma mediaIds_spec (mediaIdByUrl : gmap string string) (candidateUrls : list string) :
  foldl (λ mediaIds url,
           let mediaId := mediaIdByUrl !! url in
           if Js.truthy mediaId
              && negb (bool_decide (default "" mediaId ∈ mediaIds))
           then mediaIds ++ [default "" mediaId] else mediaIds)
        [] candidateUrls
  = Js.array_from_set (Js.filter_truthy ((mediaIdByUrl !!.) <$> candidateUrls)).
Proof.
  unfold Js.array_from_set.
  set (step := λ (mediaIds : list string) url,
           let mediaId := mediaIdByUrl !! url in
           if Js.truthy mediaId
              && negb (bool_decide (default "" mediaId ∈ mediaIds))
           then mediaIds ++ [default "" mediaId] else mediaIds).
  assert (∀ acc, foldl step acc candidateUrls
                 = foldl Js.set_add acc
                     (Js.filter_truthy ((mediaIdByUrl !!.) <$> candidateUrls)))
    as Hacc; [|apply Hacc].
  induction candidateUrls as [|url l IH]; intros acc; [done|].
  cbn [foldl fmap list_fmap]. rewrite filter_truthy_cons, foldl_app, IH. f_equal.
  unfold step. cbv beta zeta.
  destruct (Js.truthy (mediaIdByUrl !! url)); simpl; [|done].
  unfold Js.set_add. case_bool_decide; simpl.
  - by rewrite decide_True.
  - by rewrite decide_False.
Qed.

Lemma variantAssetMapOf_lookup (variantAssets : list VariantAsset.t) (k : nat)
    (a : VariantAsset.t) :
  NoDup (VariantAsset.key <$> variantAssets) →
  variantAssets !! k = Some a →
  variantAssetMapOf variantAssets !! VariantAsset.key a
  = Some (VariantAsset.imageUrls a).
Proof.
  unfold variantAssetMapOf. revert k.
  induction variantAssets as [|x l IH] using rev_ind; intros k Hnd Hk; [done|].
  rewrite foldl_app. simpl. rewrite fmap_app in Hnd.
  apply NoDup_app in Hnd as (Hnd & Hdis & _).
  apply lookup_app_Some in Hk as [Hk|[_ Hk]].
  - rewrite lookup_insert_ne; [by eapply IH|].
    intros Heq. apply (Hdis (VariantAsset.key a)).
    + apply list_elem_of_fmap. exists a. split; [done|].
      by eapply list_elem_of_lookup_2.
    + simpl. apply list_elem_of_singleton. done.
  - apply list_lookup_singleton_Some in Hk as [_ ->]. by rewrite lookup_insert_eq.
Qed.

Lemma variantAssetMapOf_Some (variantAssets : list VariantAsset.t) (key : string)
    (urls : list string) :
  variantAssetMapOf variantAssets !! key = Some urls →
  VariantAsset.mk key urls ∈ variantAssets.
Proof.
  unfold variantAssetMapOf.
  induction variantAssets as [|x l IH] using rev_ind; [done|].
  rewrite foldl_app. simpl. intros Hl. apply elem_of_app.
  destruct (decide (VariantAsset.key x = key)) as [<-|Hne].
  - rewrite lookup_insert_eq in Hl. injection Hl as <-. right.
    apply list_elem_of_singleton. by destruct x.
  - rewrite lookup_insert_ne in Hl by done. left. by apply IH.
Qed.

Lemma buildVariantKey_equiv (ovs1 ovs2 : list VariantOptionValue)
    (sku1 sku2 : option string) :
  Forall2 (λ x y, optionValue_equiv x y
                  ∧ same_presence (optionName x) (optionName y)) ovs1 ovs2 →
  eq_case_ws_opt sku1 sku2 → same_presence sku1 sku2 →
  buildVariantKey ovs1 sku1 = buildVariantKey ovs2 sku2.
Proof.
  intros Hovs Hsku Hpres. unfold buildVariantKey.
  assert (keyPart <$> ovs1 = keyPart <$> ovs2) as ->.
  { induction Hovs as [|x y l1 l2 [Hxy Hp] _ IH]; [done|].
    simpl. f_equal; [by apply keyPart_equiv|done]. }
  rewrite Hpres. destruct (Js.truthy sku2); [|done].
  by rewrite (normalizeKeyPart_equiv sku1 sku2).
Qed.

Lemma variantAssets_keys_NoDup (p : Canonical.t) (out : Payload.t) :
  buildShopifyProductInputFromEbay p = Ok out →
  NoDup (VariantAsset.key <$> Payload.variantAssets out).
Proof.
  intros (_ & _ & _ & -> & _)%build_fields. rewrite <- list_fmap_compose.
  change (VariantAsset.key ∘ assetOf p) with (variantKeyOf p).
  eapply sublist_NoDup; [apply (firstOccurrences_keys_NoDup p)|].
  apply fmap_sublist, sublist_take.
Qed.

Lemma variantAsset_key (p : Canonical.t) (out : Payload.t) (k : nat)
    (vi : VariantInput.t) (a : VariantAsset.t) :
  buildShopifyProductInputFromEbay p = Ok out →
  Payload.variantInputs out !! k = Some vi →
  Payload.variantAssets out !! k = Some a →
  VariantAsset.key a
  = buildVariantKey (VariantInput.optionValues vi) (VariantInput.inventoryItem_sku vi).
Proof.
  intros (_ & _ & -> & -> & _)%build_fields.
  rewrite !list_lookup_fmap. intros (v & Hv & ->)%fmap_Some.
  rewrite Hv. by intros [= <-].
Qed.

End MediaFacts.

(** X11: the images uploaded for a product are the first image of every
    variant asset, in asset order, followed by the product's images,
    without empty entries and without repetitions; at most 100 of them
    are uploaded, in that order, the image at index [i] with the alt text
    [<title> (Image i+1)] and the content type [IMAGE]. *)
Theorem X11_media_inputs (variantAssets : list VariantAsset.t)
    (payloadImageUrls : list string) (title : option string) :
  let orderedImages := orderedImagesOf variantAssets payloadImageUrls in
  let mediaInputs := mediaInputsOf title orderedImages in
  orderedImages
  = Js.array_from_set
      (Js.filter_truthy
         (((λ asset, head (VariantAsset.imageUrls asset)) <$> variantAssets)
            ++ (Some <$> payloadImageUrls))) ∧
  NoDup orderedImages ∧ ("" ∉ orderedImages) ∧
  (length mediaInputs ≤ 100)%nat ∧
  MediaInput.originalSource <$> mediaInputs = take 100 orderedImages ∧
  ∀ i input, mediaInputs !! i = Some input →
    MediaInput.alt input = Js.tpl title +:+ " (Image " +:+ pretty (i + 1) +:+ ")" ∧
    MediaInput.mediaContentType input = "IMAGE".
Proof.
  cbv zeta. rewrite orderedImagesOf_spec. split_and!.
  - done.
  - apply array_from_set_NoDup.
  - rewrite array_from_set_elem, filter_truthy_elem. tauto.
  - unfold mediaInputsOf. rewrite length_imap, length_take. unfold MEDIA_UPLOAD_LIMIT. lia.
  - apply mediaInputsOf_sources.
  - intros i input. unfold mediaInputsOf. rewrite list_lookup_imap, fmap_Some.
    by intros (src & _ & ->).
Qed.

Lemma X11_media_inputs_witness :
  let assets := [VariantAsset.mk "k1" ["a.png"; "b.png"]; VariantAsset.mk "k2" []] in
  let mediaInputs :=
    mediaInputsOf (Some "Shirt") (orderedImagesOf assets ["c.png"; "a.png"]) in
  ∃ input, mediaInputs !! 1 = Some input ∧
    MediaInput.alt input = Js.tpl (Some "Shirt") +:+ " (Image " +:+ pretty (1 + 1) +:+ ")" ∧
    MediaInput.mediaContentType input = "IMAGE".
Proof.
  eexists. split; [vm_compute; reflexivity|].
  refine (proj2 (proj2 (proj2 (proj2 (proj2
            (X11_media_inputs
               [VariantAsset.mk "k1" ["a.png"; "b.png"]; VariantAsset.mk "k2" []]
               ["c.png"; "a.png"] (Some "Shirt")))))) 1 _ _).
  vm_compute. reflexivity.
Defined.

(** X12: when the uploaded sources are pairwise distinct, the media id
    recorded for a source is the non-empty id the platform returned at
    the index of that source, and sources that are empty or whose media
    came back without id are not recorded. *)
Theorem X12_mediaIdByUrl (mediaInputs : list MediaInput.t)
    (createdMedia : list (option string)) (u id : string) :
  NoDup (MediaInput.originalSource <$> mediaInputs) →
  mediaIdByUrlOf mediaInputs createdMedia !! u = Some id
  ↔ u ≠ "" ∧ id ≠ "" ∧
    ∃ i input, mediaInputs !! i = Some input ∧
      MediaInput.originalSource input = u ∧ createdMedia !! i = Some (Some id).
Proof.
  intros Hnd. unfold mediaIdByUrlOf.
  rewrite (mediaIdByUrlOf_prefix _ _ _ _ _ Hnd) by done.
  split; intros (Hu & Hid & i & input & Hrest).
  - naive_solver.
  - split; [done|]. split; [done|]. exists i, input.
    destruct Hrest as (Hin & ? & ?). split; [by eapply lookup_lt_Some|done].
Qed.

Lemma X12_mediaIdByUrl_witness :
  let mediaInputs := mediaInputsOf (Some "Shirt") ["a.png"; "b.png"] in
  mediaIdByUrlOf mediaInputs [Some "m1"; None] !! "a.png" = Some "m1".
Proof.
  apply X12_mediaIdByUrl.
  - apply (bool_decide_unpack _). vm_compute. exact I.
  - split; [discriminate|]. split; [discriminate|].
    exists 0. eexists. split_and!; vm_compute; reflexivity.
Defined.

(** X13: the media attached to the created variants: one entry per
    created variant that has at least one media id, in the order of the
    created variants; the ids of an entry are the distinct non-empty
    media ids of the images stored under the variant's key, in image
    order. *)
Theorem X13_variantMediaPayload (variantAssetMap : gmap string (list string))
    (mediaIdByUrl : gmap string string) (createdVariants : list CreatedVariant.t) :
  let mediaIdsOf variant :=
    Js.array_from_set
      (Js.filter_truthy
         ((mediaIdByUrl !!.)
            <$> default [] (variantAssetMap !! createdVariantKey variant))) in
  variantMediaPayloadOf variantAssetMap mediaIdByUrl createdVariants
  = omap (λ variant,
            if bool_decide (mediaIdsOf variant = []) then None
            else Some (VariantMedia.mk (CreatedVariant.id variant)
                         (mediaIdsOf variant)))
         createdVariants ∧
  Forall (λ vm, VariantMedia.mediaIds vm ≠ [] ∧ NoDup (VariantMedia.mediaIds vm)
                ∧ "" ∉ VariantMedia.mediaIds vm)
         (variantMediaPayloadOf variantAssetMap mediaIdByUrl createdVariants).
Proof.
  cbv zeta.
  assert (variantMediaPayloadOf variantAssetMap mediaIdByUrl createdVariants
  = omap (λ variant,
            if bool_decide (Js.array_from_set
      (Js.filter_truthy
         ((mediaIdByUrl !!.)
            <$> default [] (variantAssetMap !! createdVariantKey variant))) = [])
            then None
            else Some (VariantMedia.mk (CreatedVariant.id variant)
                         (Js.array_from_set
      (Js.filter_truthy
         ((mediaIdByUrl !!.)
            <$> default [] (variantAssetMap !! createdVariantKey variant))))))
         createdVariants) as Heq.
  { unfold variantMediaPayloadOf.
    induction createdVariants as [|cv l IH] using rev_ind; [done|].
    rewrite foldl_app, omap_app, IH. simpl. rewrite mediaIds_spec.
    destruct (Js.array_from_set _) as [|m ms] eqn:Hids; simpl.
    - by rewrite app_nil_r.
    - done. }
  split; [done|]. rewrite Heq. apply Forall_forall. intros vm.
  rewrite list_elem_of_omap. intros (cv & _ & Hvm).
  case_bool_decide as Hnil; [done|]. injection Hvm as <-. simpl.
  split_and!; [done|apply array_from_set_NoDup|].
  rewrite array_from_set_elem, filter_truthy_elem. tauto.
Qed.

(** X14: the key of a created variant leads back to its asset.  If the
    build returns and the platform returns, for the variant input at
    index [k], a variant whose SKU and selected options are those that
    were sent, up to letter case and surrounding white space, where each
    option name and the SKU are on both sides absent or empty, or on both
    sides non-empty, then the key computed from the created variant is
    the key of the asset at index [k], and looking it up in the asset map
    gives that asset's images. *)
Theorem X14_created_key_round_trip (p : Canonical.t) (out : Payload.t) (k : nat)
    (vi : VariantInput.t) (a : VariantAsset.t) (cv : CreatedVariant.t) :
  let echoed :=
    (λ opt, mkVariantOptionValue (SelectedOption.name opt)
              (default "" (SelectedOption.value opt)))
    <$> default [] (CreatedVariant.selectedOptions cv) in
  buildShopifyProductInputFromEbay p = Ok out →
  Payload.variantInputs out !! k = Some vi →
  Payload.variantAssets out !! k = Some a →
  Forall2 (λ x y, optionValue_equiv x y
                  ∧ same_presence (optionName x) (optionName y))
          echoed (VariantInput.optionValues vi) →
  eq_case_ws_opt (CreatedVariant.sku cv) (VariantInput.inventoryItem_sku vi) →
  same_presence (CreatedVariant.sku cv) (VariantInput.inventoryItem_sku vi) →
  createdVariantKey cv = VariantAsset.key a ∧
  variantAssetMapOf (Payload.variantAssets out) !! createdVariantKey cv
  = Some (VariantAsset.imageUrls a).
Proof.
  intros echoed Hout Hvi Ha Hopts Hsku Hpres.
  assert (createdVariantKey cv = VariantAsset.key a) as Hkey.
  { unfold createdVariantKey. fold echoed.
    rewrite (buildVariantKey_equiv _ _ _ _ Hopts Hsku Hpres).
    symmetry. by eapply variantAsset_key. }
  split; [done|]. rewrite Hkey.
  eapply variantAssetMapOf_lookup; [by eapply variantAssets_keys_NoDup|done].
Qed.

Lemma X14_created_key_round_trip_witness :
  ∃ out a,
    buildShopifyProductInputFromEbay exampleColorProduct = Ok out ∧
    Payload.variantAssets out !! 0 = Some a ∧
  let cv := CreatedVariant.mk "gid://shopify/ProductVariant/1" (Some "a1")
              (Some [SelectedOption.mk (Some "Color") (Some "Red")]) in
  createdVariantKey cv = VariantAsset.key a ∧
  variantAssetMapOf (Payload.variantAssets out) !! createdVariantKey cv
  = Some (VariantAsset.imageUrls a).
Proof.
  eexists. eexists.
  assert (buildShopifyProductInputFromEbay exampleColorProduct = Ok ?[out]) as Hout
    by (vm_compute; reflexivity).
  split; [exact Hout|]. split; [vm_compute; reflexivity|].
  refine (X14_created_key_round_trip exampleColorProduct _ 0 _ _ _ Hout _ _ _ _ _).
  - vm_compute. reflexivity.
  - vm_compute. reflexivity.
  - constructor; [|constructor]. split; [split|]; simpl.
    + constructor. apply ecw_refl.
    + apply ecw_refl.
    + reflexivity.
  - constructor. apply (ecw_case "" "a" "A" "1"). reflexivity.
  - reflexivity.
Defined.

(** ** The result record of one import *)

Section ResultFacts.
Context `{Collaborators World}.

Lemma payloadOf_result (itemOrGroup : option EbayData) (isGroup : bool)
    (r : ImportResult.t) (w : World) :
  (payloadOf itemOrGroup isGroup r w).1.2 = r.
Proof.
  unfold payloadOf, lift, throw, bind, call, get_now, ret.
  repeat case_match; simplify_eq; done.
Qed.

End ResultFacts.

Ltac shape_done :=
  simpl; repeat split; intros;
  repeat match goal with
         | Hn : is_Some None |- _ => destruct Hn as [? Hn]; discriminate Hn
         | Hn : _ = _ |- _ => discriminate Hn
         end;
  try done; try (by left); try (by right); eauto;
  try match goal with
      | Hn : Some _ = Some ?e |- ∃ n, _ ∧ ?e = _ =>
          injection Hn as <-; eexists; split; [|reflexivity]; lia
      end.

(** X17: the result of importing one URL is well formed whatever the
    collaborators do: its status is [created] or [failed]; a failed result
    carries an error; a created result carries the product id and the
    variant count, and its only possible error text is the warning about
    dropped variants; [shopifyUrl] is set exactly with [variants],
    [handle] and [title] exactly with [productId]; [variants] is only set
    after [productId], [productId] only after [legacyItemId]; and
    [legacyItemId] is the numeric id parsed from the URL, when there is
    one. *)
Theorem X17_result_shape `{Collaborators World} (sourceUrl : string) (w : World) :
  let r := (importUrl sourceUrl w).1 in
  (ImportResult.status r = "created" ∨ ImportResult.status r = "failed") ∧
  (ImportResult.status r = "failed" → is_Some (ImportResult.error r)) ∧
  (ImportResult.status r = "created" →
     is_Some (ImportResult.productId r) ∧ is_Some (ImportResult.variants r) ∧
     (∀ e, ImportResult.error r = Some e →
           ∃ n, (0 < n)%nat ∧ e = droppedWarning n)) ∧
  (is_Some (ImportResult.variants r) ↔ is_Some (ImportResult.shopifyUrl r)) ∧
  (is_Some (ImportResult.variants r) → is_Some (ImportResult.productId r)) ∧
  (is_Some (ImportResult.productId r) ↔ is_Some (ImportResult.handle r)) ∧
  (is_Some (ImportResult.productId r) ↔ is_Some (ImportResult.title r)) ∧
  (is_Some (ImportResult.productId r) → is_Some (ImportResult.legacyItemId r)) ∧
  ImportResult.legacyItemId r
  = (if Js.truthy (parseNumericTail sourceUrl) then parseNumericTail sourceUrl
     else None).
Proof.
  cbv zeta. unfold importUrl, importBody.
  destruct (Js.truthy (parseNumericTail sourceUrl)) eqn:Hnum.
  2:{ unfold bind, throw. shape_done. }
  destruct (parseNumericTail sourceUrl) as [numeric|] eqn:Hparse; [|done].
  change (default "" (Some numeric)) with numeric.
  unfold bind, ret, throw, modify_r, call, lift.
  cbn beta iota zeta delta [negb].
  destruct (resolve sourceUrl numeric w) as [[[itemOrGroup isGroup]|e] w1].
  2:{ shape_done. }
  cbn beta iota zeta.
  pose proof (payloadOf_result itemOrGroup isGroup
    (ImportResult.set_legacyItemId (Some numeric)
       {| ImportResult.sourceUrl := sourceUrl; ImportResult.legacyItemId := None;
          ImportResult.productId := None; ImportResult.handle := None;
          ImportResult.title := None; ImportResult.variants := None;
          ImportResult.status := "failed"; ImportResult.error := None;
          ImportResult.shopifyUrl := None |}) w1) as Hr.
  destruct (payloadOf itemOrGroup isGroup _ w1) as [[[payload|e] r2] w2];
    simpl in Hr; subst r2.
  2:{ shape_done. }
  cbn beta iota zeta.
  destruct (buildShopifyProductInputFromEbay payload) as [built|e];
    cbn beta iota zeta; [|shape_done].
  destruct (productCreate _ w2) as [[created|e] w3]; cbn beta iota zeta;
    [|shape_done].
  generalize (mediaInputsOf (ProductInput.title (Payload.productInput built))
                (orderedImagesOf (Payload.variantAssets built)
                   (Canonical.imageUrls payload))).
  intros mediaInputs.
  generalize (variantAssetMapOf (Payload.variantAssets built)). intros variantAssetMap.
  destruct (bool_decide (0 < length mediaInputs)).
  - destruct (productCreateMedia _ _ w3) as [[media|e] w4]; cbn beta iota zeta;
      [|shape_done].
    generalize (mediaIdByUrlOf mediaInputs media). intros mediaIdByUrl.
    destruct (productVariantsBulkCreate _ _ w4) as [[createdVariants|e] w5];
      cbn beta iota zeta; [|shape_done].
    destruct (bool_decide (0 < length _)).
    + destruct (productVariantAppendMedia _ _ w5) as [[[]|e] w6];
        cbn beta iota zeta; [|shape_done].
      destruct (Payload.meta built) as [m|]; [case_bool_decide|]; shape_done.
    + destruct (Payload.meta built) as [m|]; [case_bool_decide|]; shape_done.
  - destruct (productVariantsBulkCreate _ _ w3) as [[createdVariants|e] w5];
      cbn beta iota zeta; [|shape_done].
    destruct (bool_decide (0 < length _)).
    + destruct (productVariantAppendMedia _ _ w5) as [[[]|e] w6];
        cbn beta iota zeta; [|shape_done].
      destruct (Payload.meta built) as [m|]; [case_bool_decide|]; shape_done.
    + destruct (Payload.meta built) as [m|]; [case_bool_decide|]; shape_done.
Qed.

Lemma X17_result_shape_witness :
  let r := (importUrl (World:=nat) "https://www.ebay.com/itm/262742221410" 0).1 in
  is_Some (ImportResult.productId r) ∧ is_Some (ImportResult.variants r).
Proof.
  destruct (X17_result_shape (World:=nat)
              "https://www.ebay.com/itm/262742221410" 0)
    as (_ & _ & Hcreated & _).
  destruct Hcreated as (Hid & Hvariants & _); [vm_compute; reflexivity|].
  split; [exact Hid|exact Hvariants].
Defined.

(** ** The resolver's log and its attempts *)

Section ResolverLog.
Context `{Collaborators World}.

Lemma notesExtend_refl (c : Ctx.t) (n : nat) : notesExtend n c c.
Proof. exists []. rewrite app_nil_r. split; [done|simpl; lia]. Qed.

Lemma notesExtend_trans (n m : nat) (a b c : Ctx.t) :
  notesExtend n a b → notesExtend m b c → notesExtend (n + m) a c.
Proof.
  intros (e1 & H1 & Hl1) (e2 & H2 & Hl2). exists (e1 ++ e2).
  rewrite H2, H1, <- app_assoc, length_app. split; [done|lia].
Qed.

Lemma notesExtend_le (n m : nat) (a b : Ctx.t) :
  (n ≤ m)%nat → notesExtend n a b → notesExtend m a b.
Proof. intros Hle (e & He & Hl). exists e. split; [done|lia]. Qed.

Lemma notesExtend_push (c : Ctx.t) (note : string) :
  notesExtend 1 c (Ctx.push_note note c).
Proof. by exists [note]. Qed.

Lemma tryLegacyId_notes (id : option string) (c : Ctx.t) (w : World) :
  notesExtend 1 c (tryLegacyId id c w).1.
Proof.
  unfold tryLegacyId.
  destruct (negb (Js.truthy id) || bool_decide (is_Some (Ctx.itemOrGroup c)));
    [apply notesExtend_refl|].
  case_decide; [apply notesExtend_refl|].
  destruct (ebayGetItemByLegacyId _ w) as [[data|e] w']; simpl; by eexists [_].
Qed.

Lemma groupAttempt_notes (id : string) (st : Ctx.t * World)
    (attempt : string * (string → World → result (option EbayData) * World)) :
  notesExtend 1 st.1 (groupAttempt id st attempt).1.
Proof.
  destruct st as [c w], attempt as [label fn]. unfold groupAttempt.
  case_bool_decide; [apply notesExtend_refl|].
  destruct (fn id w) as [[raw|e] w']; simpl; by eexists [_].
Qed.

Lemma tryGroupId_notes (id : option string) (c : Ctx.t) (w : World) :
  notesExtend 2 c (tryGroupId id c w).1.
Proof.
  unfold tryGroupId.
  destruct (negb (Js.truthy id) || bool_decide (is_Some (Ctx.itemOrGroup c)));
    [apply notesExtend_refl|].
  case_decide; [apply notesExtend_refl|]. cbn [foldl].
  apply (notesExtend_trans 1 1 _ (groupAttempt (default "" id)
           (Ctx.add_group (default "" id) c, w) ("item_group", ebayGetItemGroup)).1).
  - apply (groupAttempt_notes _ (Ctx.add_group (default "" id) c, w)).
  - apply groupAttempt_notes.
Qed.

Lemma tryItemId_notes (id : option string) (c : Ctx.t) (w : World) :
  notesExtend 1 c (tryItemId id c w).1.
Proof.
  unfold tryItemId.
  destruct (negb (Js.truthy id) || bool_decide (is_Some (Ctx.itemOrGroup c)));
    [apply notesExtend_refl|].
  case_decide; [apply notesExtend_refl|].
  destruct (ebayGetItem _ w) as [[data|e] w']; simpl; by eexists [_].
Qed.

Lemma ensureScraped_notes (sourceUrl : string) (c : Ctx.t) (w : World) :
  notesExtend 1 c (ensureScraped sourceUrl c w).1.2.
Proof.
  unfold ensureScraped. destruct (Ctx.scrapedIds c); [apply notesExtend_refl|].
  destruct (ebayExtractListingIdentifiers sourceUrl w) as [[[ids|]|e] w']; simpl.
  - exists []. by rewrite app_nil_r; split; [|simpl; lia].
  - by eexists [_].
  - by eexists [_].
Qed.

Lemma scrapeRetries_notes (sourceUrl numeric : string) (c : Ctx.t) (w : World) :
  notesExtend 4 c (scrapeRetries sourceUrl numeric c w).1.
Proof.
  unfold scrapeRetries. case_bool_decide; [apply notesExtend_refl|].
  pose proof (ensureScraped_notes sourceUrl c w) as H1.
  destruct (ensureScraped sourceUrl c w) as [[scraped c1] w1]. simpl in H1.
  set (legacy := if _ && _ then tryLegacyId _ c1 w1 else (c1, w1)).
  assert (notesExtend 1 c1 legacy.1) as H2.
  { unfold legacy. destruct (_ && _); [apply tryLegacyId_notes|apply notesExtend_refl]. }
  destruct legacy as [c2 w2]. simpl in H2.
  assert (notesExtend 2 c2
            (if negb (bool_decide (is_Some (Ctx.itemOrGroup c2)))
                && Js.truthy (scraped ≫= Identifiers.itemGroupId)
                && bool_decide (scraped ≫= Identifiers.itemGroupId ≠ Some numeric)
             then tryGroupId (scraped ≫= Identifiers.itemGroupId) c2 w2
             else (c2, w2)).1) as H3.
  { destruct (_ && _); [apply tryGroupId_notes|apply notesExtend_refl]. }
  apply (notesExtend_trans 1 3 _ c1); [done|].
  by apply (notesExtend_trans 1 2 _ c2).
Qed.

Lemma array_from_set_length (xs : list string) :
  (length (Js.array_from_set xs) ≤ length xs)%nat.
Proof.
  unfold Js.array_from_set.
  assert (∀ acc, length (foldl Js.set_add acc xs) ≤ length acc + length xs)%nat
    as Hacc; [|apply (Hacc [])].
  induction xs as [|x xs IH]; intros acc; simpl; [lia|].
  etrans; [apply IH|]. unfold Js.set_add. case_decide; [lia|].
  rewrite length_app. simpl. lia.
Qed.

Lemma filter_truthy_length (xs : list (option string)) :
  (length (Js.filter_truthy xs) ≤ length xs)%nat.
Proof.
  induction xs as [|x xs IH]; [done|]. rewrite filter_truthy_cons, length_app.
  destruct (Js.truthy x); simpl; lia.
Qed.

Lemma itemFetches_notes (candidates : list string) (c : Ctx.t) (w : World) :
  notesExtend (length candidates) c
    (foldl (λ st candidate,
              let '(c, w) := st in
              if bool_decide (is_Some (Ctx.itemOrGroup c)) then (c, w)
              else tryItemId (Some candidate) c w)
           (c, w) candidates).1.
Proof.
  revert c w. induction candidates as [|x l IH]; intros c w;
    [apply notesExtend_refl|].
  cbn [foldl length].
  set (st := if bool_decide (is_Some (Ctx.itemOrGroup c)) then (c, w)
             else tryItemId (Some x) c w).
  assert (notesExtend 1 c st.1) as H1.
  { unfold st. case_bool_decide; [apply notesExtend_refl|apply tryItemId_notes]. }
  destruct st as [c1 w1]. apply (notesExtend_trans 1 (length l) _ c1); [done|].
  apply IH.
Qed.

Lemma directItemFetches_notes (numeric : string) (c : Ctx.t) (w : World) :
  notesExtend 4 c (directItemFetches numeric c w).1.
Proof.
  unfold directItemFetches. case_bool_decide; [apply notesExtend_refl|].
  eapply notesExtend_le; [|apply itemFetches_notes].
  unfold candidateItemIds.
  etrans; [apply array_from_set_length|].
  etrans; [apply filter_truthy_length|]. done.
Qed.

Lemma recover_notes (sourceUrl numeric : string) (err : Exn.t) (w : World) :
  notesExtend 12 (recoveryStart numeric (errText err))
    (recover sourceUrl numeric err w).1.
Proof.
  unfold recover.
  pose proof (tryGroupId_notes (parseGroupIdFromErrorText (errText err))
                (recoveryStart numeric (errText err)) w) as H1.
  destruct (tryGroupId _ _ w) as [c1 w1].
  pose proof (tryGroupId_notes (Some numeric) c1 w1) as H2.
  destruct (tryGroupId _ c1 w1) as [c2 w2].
  pose proof (scrapeRetries_notes sourceUrl numeric c2 w2) as H3.
  destruct (scrapeRetries _ _ c2 w2) as [c3 w3].
  pose proof (directItemFetches_notes numeric c3 w3) as H4.
  apply (notesExtend_trans 2 10 _ c1); [done|].
  apply (notesExtend_trans 2 8 _ c2); [done|].
  by apply (notesExtend_trans 4 4 _ c3).
Qed.

(** The attempted sets after one attempt. *)
Lemma groupAttempt_attempted (id : string) (st : Ctx.t * World)
    (attempt : string * (string → World → result (option EbayData) * World)) :
  Ctx.attemptedGroupIds (groupAttempt id st attempt).1 = Ctx.attemptedGroupIds st.1.
Proof.
  destruct st as [c w], attempt as [label fn]. unfold groupAttempt.
  case_bool_decide; [done|]. by destruct (fn id w) as [[raw|e] w'].
Qed.

End ResolverLog.

(** X15: the diagnostic log of a recovery starts with the failure of the
    first legacy lookup and from there only grows, by at most 12 further
    notes; when every path fails, the first legacy lookup has failed, the
    recovery has ended without a payload, and the raised error is the
    fixed headline with the source URL followed by all notes of the log
    of that recovery, one per line. *)
Theorem X15_recovery_log `{Collaborators World} (sourceUrl numeric : string)
    (w : World) :
  (∀ err w0,
     ∃ notes,
       Ctx.attemptNotes (recover sourceUrl numeric err w0).1
       = attemptNote "legacy" numeric (errText err) :: notes
       ∧ (length notes ≤ 12)%nat) ∧
  (∀ e w', resolve sourceUrl numeric w = (Throw e, w') →
     ∃ err w1,
       ebayGetItemByLegacyId numeric w = (Throw err, w1) ∧
       let c := (recover sourceUrl numeric err w1).1 in
       Ctx.itemOrGroup c = None ∧
       w' = (recover sourceUrl numeric err w1).2 ∧
       e = exhaustedError sourceUrl (Ctx.attemptNotes c) ∧
       errText e
       = "Unable to fetch eBay data for " +:+ sourceUrl
         +:+ " after multiple attempts:" +:+ NL
         +:+ Js.join NL (Ctx.attemptNotes c) ∧
       ∃ notes,
         Ctx.attemptNotes c = attemptNote "legacy" numeric (errText err) :: notes ∧
         (length notes ≤ 12)%nat).
Proof.
  split.
  - intros err w0. destruct (recover_notes sourceUrl numeric err w0) as (e & He & Hl).
    exists e. split; [|done]. rewrite He. done.
  - intros e w'. unfold resolve.
    destruct (ebayGetItemByLegacyId numeric w) as [[data|err] w1]; [done|].
    destruct (recover_notes sourceUrl numeric err w1) as (notes & Hn & Hl).
    destruct (recover sourceUrl numeric err w1) as [c w2] eqn:Hrec. simpl in Hn.
    destruct (Ctx.itemOrGroup c) eqn:Hc; [done|]. intros [= <- <-].
    exists err, w1. split; [done|]. rewrite Hrec. simpl.
    split_and!; [done|done|done| |].
    + unfold exhaustedError, errText, Error. simpl. done.
    + exists notes. by rewrite Hn.
Qed.

Lemma X15_recovery_log_witness :
  ∃ e w', resolve (World:=nat) "https://www.ebay.com/itm/100000099" "100000099" 0
          = (Throw e, w') ∧
    ∃ err w1,
      ebayGetItemByLegacyId "100000099" 0 = (Throw err, w1) ∧
      let c := (recover "https://www.ebay.com/itm/100000099" "100000099" err w1).1 in
      errText e
      = "Unable to fetch eBay data for " +:+ "https://www.ebay.com/itm/100000099"
        +:+ " after multiple attempts:" +:+ NL
        +:+ Js.join NL (Ctx.attemptNotes c) ∧
      ∃ notes,
        Ctx.attemptNotes c
        = attemptNote "legacy" "100000099" (errText err) :: notes ∧
        (length notes ≤ 12)%nat.
Proof.
  eexists. eexists. split; [vm_compute; reflexivity|].
  edestruct (proj2 (X15_recovery_log "https://www.ebay.com/itm/100000099"
                      "100000099" 0))
    as (err & w1 & Hfirst & _ & _ & _ & Htext & Hnotes);
    [vm_compute; reflexivity|].
  exists err, w1. split; [exact Hfirst|]. split; [exact Htext | exact Hnotes].
Defined.

Section AttemptFacts.
Context `{Collaborators World}.

Lemma tryLegacyId_skip (id : option string) (c : Ctx.t) (w : World) :
  default "" id ∈ Ctx.attemptedLegacyIds c → tryLegacyId id c w = (c, w).
Proof.
  intros Hin. unfold tryLegacyId. destruct (_ || _); [done|].
  by rewrite decide_True.
Qed.

Lemma tryGroupId_skip (id : option string) (c : Ctx.t) (w : World) :
  default "" id ∈ Ctx.attemptedGroupIds c → tryGroupId id c w = (c, w).
Proof.
  intros Hin. unfold tryGroupId. destruct (_ || _); [done|].
  by rewrite decide_True.
Qed.

Lemma tryItemId_skip (id : option string) (c : Ctx.t) (w : World) :
  default "" id ∈ Ctx.attemptedItemIds c → tryItemId id c w = (c, w).
Proof.
  intros Hin. unfold tryItemId. destruct (_ || _); [done|].
  by rewrite decide_True.
Qed.

Lemma tryLegacyId_marks (id : option string) (c : Ctx.t) (w : World) :
  tryLegacyId id c w = (c, w)
  ∨ default "" id ∈ Ctx.attemptedLegacyIds (tryLegacyId id c w).1.
Proof.
  unfold tryLegacyId. destruct (_ || _); [by left|].
  case_decide; [by left|]. right.
  destruct (ebayGetItemByLegacyId _ w) as [[data|e] w']; simpl; set_solver.
Qed.

Lemma tryGroupId_marks (id : option string) (c : Ctx.t) (w : World) :
  tryGroupId id c w = (c, w)
  ∨ default "" id ∈ Ctx.attemptedGroupIds (tryGroupId id c w).1.
Proof.
  unfold tryGroupId. destruct (_ || _); [by left|].
  case_decide; [by left|]. right. cbn [foldl].
  rewrite !groupAttempt_attempted. simpl. set_solver.
Qed.

Lemma tryItemId_marks (id : option string) (c : Ctx.t) (w : World) :
  tryItemId id c w = (c, w)
  ∨ default "" id ∈ Ctx.attemptedItemIds (tryItemId id c w).1.
Proof.
  unfold tryItemId. destruct (_ || _); [by left|].
  case_decide; [by left|]. right.
  destruct (ebayGetItem _ w) as [[data|e] w']; simpl; set_solver.
Qed.

Lemma marksKept_refl (c : Ctx.t) : marksKept c c.
Proof. by split_and!. Qed.

Lemma tryLegacyId_marksKept (id : option string) (c : Ctx.t) (w : World) :
  marksKept c (tryLegacyId id c w).1.
Proof.
  unfold tryLegacyId. destruct (_ || _); [apply marksKept_refl|].
  case_decide; [apply marksKept_refl|].
  destruct (ebayGetItemByLegacyId _ w) as [[data|e] w']; simpl;
    split_and!; simpl; set_solver.
Qed.

Lemma groupAttempt_marksKept (id : string) (st : Ctx.t * World)
    (attempt : string * (string → World → result (option EbayData) * World)) :
  marksKept st.1 (groupAttempt id st attempt).1.
Proof.
  destruct st as [c w], attempt as [label fn]. unfold groupAttempt.
  case_bool_decide; [apply marksKept_refl|].
  destruct (fn id w) as [[raw|e] w']; simpl; split_and!; simpl; set_solver.
Qed.

Lemma tryGroupId_marksKept (id : option string) (c : Ctx.t) (w : World) :
  marksKept c (tryGroupId id c w).1.
Proof.
  unfold tryGroupId. destruct (_ || _); [apply marksKept_refl|].
  case_decide; [apply marksKept_refl|]. cbn [foldl].
  pose proof (groupAttempt_marksKept (default "" id)
                (Ctx.add_group (default "" id) c, w)
                ("item_group", ebayGetItemGroup)) as (H1 & H2 & H3).
  pose proof (groupAttempt_marksKept (default "" id)
                (groupAttempt (default "" id) (Ctx.add_group (default "" id) c, w)
                   ("item_group", ebayGetItemGroup))
                ("get_items_by_item_group", ebayGetItemsByItemGroup))
    as (H4 & H5 & H6).
  simpl in H1, H2, H3. split_and!; set_solver.
Qed.

Lemma tryItemId_marksKept (id : option string) (c : Ctx.t) (w : World) :
  marksKept c (tryItemId id c w).1.
Proof.
  unfold tryItemId. destruct (_ || _); [apply marksKept_refl|].
  case_decide; [apply marksKept_refl|].
  destruct (ebayGetItem _ w) as [[data|e] w']; simpl;
    split_and!; simpl; set_solver.
Qed.

End AttemptFacts.

(** X16: the attempts of a recovery guard against repetition.  An attempt
    with an identifier that is marked as attempted for its endpoint makes
    no remote call and changes nothing; an attempt that is not a skip
    marks its identifier; no attempt, with whatever identifier, removes a
    mark; so repeating an attempt with the same identifier right after it
    changes nothing, whether the first attempt succeeded, failed or was
    skipped. *)
Theorem X16_attempts_not_repeated `{Collaborators World} (id other : option string)
    (c : Ctx.t) (w : World) :
  ((default "" id ∈ Ctx.attemptedLegacyIds c → tryLegacyId id c w = (c, w)) ∧
   (default "" id ∈ Ctx.attemptedGroupIds c → tryGroupId id c w = (c, w)) ∧
   (default "" id ∈ Ctx.attemptedItemIds c → tryItemId id c w = (c, w))) ∧
  ((tryLegacyId id c w = (c, w)
    ∨ default "" id ∈ Ctx.attemptedLegacyIds (tryLegacyId id c w).1) ∧
   (tryGroupId id c w = (c, w)
    ∨ default "" id ∈ Ctx.attemptedGroupIds (tryGroupId id c w).1) ∧
   (tryItemId id c w = (c, w)
    ∨ default "" id ∈ Ctx.attemptedItemIds (tryItemId id c w).1)) ∧
  (marksKept c (tryLegacyId other c w).1 ∧
   marksKept c (tryGroupId other c w).1 ∧
   marksKept c (tryItemId other c w).1) ∧
  (tryLegacyId id (tryLegacyId id c w).1 (tryLegacyId id c w).2 = tryLegacyId id c w ∧
   tryGroupId id (tryGroupId id c w).1 (tryGroupId id c w).2 = tryGroupId id c w ∧
   tryItemId id (tryItemId id c w).1 (tryItemId id c w).2 = tryItemId id c w).
Proof.
  split; [|split; [|split]].
  - split_and!; [apply tryLegacyId_skip|apply tryGroupId_skip|apply tryItemId_skip].
  - split_and!; [apply tryLegacyId_marks|apply tryGroupId_marks|apply tryItemId_marks].
  - split_and!;
      [apply tryLegacyId_marksKept|apply tryGroupId_marksKept|apply tryItemId_marksKept].
  - split_and!.
    + destruct (tryLegacyId_marks id c w) as [Heq|Hin]; [by rewrite !Heq|].
      rewrite (tryLegacyId_skip _ _ _ Hin). by destruct (tryLegacyId id c w).
    + destruct (tryGroupId_marks id c w) as [Heq|Hin]; [by rewrite !Heq|].
      rewrite (tryGroupId_skip _ _ _ Hin). by destruct (tryGroupId id c w).
    + destruct (tryItemId_marks id c w) as [Heq|Hin]; [by rewrite !Heq|].
      rewrite (tryItemId_skip _ _ _ Hin). by destruct (tryItemId id c w).
Qed.

Lemma X16_attempts_not_repeated_witness :
  let c := recoveryStart "100000099" "Not found" in
  default "" (Some "100000099") ∈ Ctx.attemptedLegacyIds c ∧
  tryLegacyId (World:=nat) (Some "100000099") c 0 = (c, 0).
Proof.
  assert (default "" (Some "100000099")
          ∈ Ctx.attemptedLegacyIds (recoveryStart "100000099" "Not found")) as Hin.
  { simpl. set_solver. }
  split; [exact Hin|].
  exact (proj1 (proj1 (X16_attempts_not_repeated (World:=nat) (Some "100000099") None
                         (recoveryStart "100000099" "Not found") 0)) Hin).
Defined.

(** ** Requests that are turned down *)

(** X18: a request is answered with an error only when its body cannot be
    read (status 500, with the failure's message) or names no non-empty
    URL (status 400, [Missing url/urls]); such a request makes no remote
    call and leaves the history as it was.  The URLs of a request are the
    non-empty entries of [urls] when [urls] is an array, and [url] is then
    ignored; otherwise they are the one non-empty [url], if any. *)
Theorem X18_rejected_requests `{Collaborators World}
    (req : result (option Body.t)) (w : World) (cache : list ImportResult.t) :
  (∀ status error w' cache',
     POST req w cache = (JsonError status error, w', cache') →
     w' = w ∧ cache' = cache ∧
     ((∃ e, req = Throw e ∧ status = 500 ∧ error = errText e) ∨
      (∃ body, req = Ok body ∧ requestUrls body = [] ∧ status = 400
               ∧ error = "Missing url/urls"))) ∧
  (∀ body, req = Ok body →
     (requestUrls body = [] ↔ ∃ status error, (POST req w cache).1.1
                                              = JsonError status error) ∧
     ("" ∉ requestUrls body) ∧
     (∀ l, body ≫= Body.urls = Some l →
           ∀ u, u ∈ requestUrls body ↔ u ≠ "" ∧ u ∈ l) ∧
     (body ≫= Body.urls = None →
      ∀ u, u ∈ requestUrls body ↔ u ≠ "" ∧ body ≫= Body.url = Some u)).
Proof.
  split.
  - intros status error w' cache'. unfold POST. destruct req as [body|e].
    + case_bool_decide as Hlen.
      * intros [= <- <- <- <-]. split_and!; [done|done|]. right.
        exists body. split_and!; [done| |done|done]. by apply nil_length_inv.
      * destruct (foldl _ _ _) as [[results w1] cache1]. done.
    + intros [= <- <- <- <-]. split_and!; [done|done|]. left. by exists e.
  - intros body ->. split_and!.
    + unfold POST. case_bool_decide as Hlen.
      * split; [by eexists _, _|]. intros _. by apply nil_length_inv.
      * destruct (foldl _ _ _) as [[results w1] cache1]. simpl.
        split; [intros Hnil; by rewrite Hnil in Hlen|]. by intros (? & ? & ?).
    + unfold requestUrls. rewrite filter_truthy_elem. tauto.
    + intros l Hl u. unfold requestUrls. rewrite Hl, filter_truthy_elem.
      rewrite list_elem_of_fmap. naive_solver.
    + intros Hnone u. unfold requestUrls. rewrite Hnone, filter_truthy_elem.
      destruct (body ≫= Body.url) as [u'|]; simpl.
      * case_bool_decide as Hu'; simpl.
        -- rewrite elem_of_nil. naive_solver.
        -- rewrite list_elem_of_singleton. naive_solver.
      * rewrite elem_of_nil. naive_solver.
Qed.

Lemma X18_rejected_requests_witness :
  let req := Ok (Some (Body.mk (Some "https://www.ebay.com/itm/1") (Some [""]))) in
  POST (World:=nat) req 7 [] = (JsonError 400 "Missing url/urls", 7, []) ∧
  ((∃ e, req = Throw e ∧ 400 = 500 ∧ "Missing url/urls" = errText e) ∨
   (∃ body, req = Ok body ∧ requestUrls body = [] ∧ 400 = 400
            ∧ "Missing url/urls" = "Missing url/urls")).
Proof.
  split; [vm_compute; reflexivity|].
  refine (proj2 (proj2 (proj1 (X18_rejected_requests (World:=nat)
      (Ok (Some (Body.mk (Some "https://www.ebay.com/itm/1") (Some [""])))) 7 [])
      400 "Missing url/urls" 7 [] _))).
  vm_compute. reflexivity.
Defined.

(** ** The number of variants sent *)

Section VariantCount.

Lemma firstOccurrences_nonempty (p : Canonical.t) (l : list Variant.t) :
  l ≠ [] → firstOccurrences p l ≠ [].
Proof.
  destruct l as [|v l]; [done|]. intros _ Hnil.
  assert (v ∈ firstOccurrences p (v :: l)) as Hin.
  { apply firstOccurrences_elem. exists 0. split; [done|]. intros j y Hj. lia. }
  rewrite Hnil in Hin. by apply elem_of_nil in Hin.
Qed.

End VariantCount.

(** X19: the build returns a payload exactly when every variant carries
    a value of its own for each axis that names a property of the
    prototype, so always for a product without variants.  When it
    returns, there are as many assets as variant inputs; a product with
    at least one variant yields between 1 and 100 variant inputs, so the
    bulk creation is sent to the platform; a product without variants
    yields none, and then the bulk creation answers with no variants
    without any remote call. *)
Theorem X19_variant_count `{Collaborators World} (p : Canonical.t)
    (productId : string) (w : World) :
  ((∃ out, buildShopifyProductInputFromEbay p = Ok out)
   ↔ Forall (readsOwn p) (Canonical.variants p)) ∧
  (Canonical.variants p = [] → ∃ out, buildShopifyProductInputFromEbay p = Ok out) ∧
  ∀ out, buildShopifyProductInputFromEbay p = Ok out →
    length (Payload.variantAssets out) = length (Payload.variantInputs out) ∧
    (Canonical.variants p ≠ [] →
       (1 ≤ length (Payload.variantInputs out) ≤ 100)%nat ∧
       productVariantsBulkCreate productId (Payload.variantInputs out) w
       = productVariantsBulkCreate_gql productId (Payload.variantInputs out) w) ∧
    (Canonical.variants p = [] →
       Payload.variantInputs out = [] ∧
       productVariantsBulkCreate productId (Payload.variantInputs out) w = (Ok [], w)).
Proof.
  split_and!.
  - split; [|apply build_returns]. by intros [out (Hall & _)%build_fields].
  - intros Hnil. apply build_returns. rewrite Hnil. constructor.
  - intros out (_ & _ & Hin & Has & _)%build_fields. rewrite Hin, Has, !length_fmap.
    split; [done|]. split.
    + intros Hne. pose proof (firstOccurrences_nonempty p _ Hne) as Hkept.
      assert (1 ≤ length (take MAX_SHOPIFY_VARIANTS
                            (firstOccurrences p (Canonical.variants p))) ≤ 100)%nat
        as Hlen.
      { rewrite length_take. unfold MAX_SHOPIFY_VARIANTS.
        destruct (firstOccurrences p (Canonical.variants p)); [done|].
        cbn [length]. lia. }
      split; [done|]. unfold productVariantsBulkCreate.
      rewrite bool_decide_eq_false_2; [done|]. rewrite length_fmap. lia.
    + intros Hnil. rewrite Hnil. done.
Qed.

Lemma X19_variant_count_witness :
  ∃ out,
    buildShopifyProductInputFromEbay exampleColorProduct = Ok out ∧
    (1 ≤ length (Payload.variantInputs out) ≤ 100)%nat.
Proof.
  eexists.
  assert (buildShopifyProductInputFromEbay exampleColorProduct = Ok ?[out]) as Hout
    by (vm_compute; reflexivity).
  split; [exact Hout|].
  refine (proj1 (proj1 (proj2 (proj2 (proj2 (X19_variant_count (World:=nat)
                                 exampleColorProduct "gid" 0)) _ Hout)) _)).
  discriminate.
Defined.

(** ** The scan of a listing's page *)

Section HtmlScanFacts.
Import HtmlScan.

Lemma stripChar_Some (p : ascii) (s rest : string) :
  stripChar p s = Some rest ↔ s = String p rest.
Proof.
  destruct s as [|c s]; simpl; [done|].
  case_bool_decide; naive_solver.
Qed.

Lemma stripLiteral_i_Some (lit s rest : string) :
  stripLiteral_i lit s = Some rest ↔
  ∃ lit', s = lit' +:+ rest ∧ Js.toLowerCase lit' = Js.toLowerCase lit.
Proof.
  revert s. induction lit as [|p lit IH]; intros s.
  - simpl. split.
    + intros [= ->]. by exists "".
    + intros (lit' & -> & Hl). destruct lit'; [done|discriminate].
  - destruct s as [|c s]; simpl.
    + split; [done|]. intros (lit' & Hs & Hl).
      destruct lit'; [discriminate Hl|discriminate Hs].
    + case_bool_decide as Hc.
      * rewrite IH. split.
        -- intros (lit' & -> & Hl). exists (String c lit'). simpl.
           rewrite string_app_cons, Hl, Hc. done.
        -- intros (lit' & Hs & Hl). destruct lit' as [|c' lit']; [discriminate Hl|].
           rewrite string_app_cons in Hs. simpl in Hl.
           injection Hs as -> ->. injection Hl as _ Hl. by exists lit'.
      * split; [done|]. intros (lit' & Hs & Hl).
        destruct lit' as [|c' lit']; [discriminate Hl|].
        rewrite string_app_cons in Hs. simpl in Hl.
        injection Hs as -> ->. injection Hl as Hc' _. done.
Qed.

Lemma skipSpace_stripChar (p : ascii) (s rest : string) :
  Js.isWhiteSpace p = false →
  stripChar p (skipSpace s) = Some rest ↔
  ∃ ws, s = ws +:+ String p rest ∧ allSpace ws = true.
Proof.
  intros Hp. induction s as [|c s IH]; simpl.
  - split; [done|]. intros (ws & Hs & _). destruct ws; discriminate Hs.
  - destruct (Js.isWhiteSpace c) eqn:Hc.
    + rewrite IH. split.
      * intros (ws & -> & Hws). exists (String c ws). simpl.
        by rewrite string_app_cons, Hc, Hws.
      * intros (ws & Hs & Hws). destruct ws as [|c' ws].
        -- rewrite string_app_nil_l in Hs. injection Hs as -> ->. congruence.
        -- rewrite string_app_cons in Hs. injection Hs as -> ->.
           simpl in Hws. apply andb_true_iff in Hws as [_ Hws]. by exists ws.
    + rewrite stripChar_Some. split.
      * intros [= -> ->]. by exists "".
      * intros (ws & Hs & Hws). destruct ws as [|c' ws].
        -- by rewrite string_app_nil_l in Hs.
        -- rewrite string_app_cons in Hs. injection Hs as -> ->.
           simpl in Hws. rewrite Hc in Hws. done.
Qed.

Lemma takeUntilQuote_Some (q : ascii) (s v : string) :
  takeUntilQuote q s = Some v ↔
  ∃ post, s = v +:+ String q post ∧ hasChar q v = false.
Proof.
  revert v. induction s as [|c s IH]; intros v; simpl.
  - split; [done|]. intros (post & Hs & _). destruct v; discriminate Hs.
  - case_bool_decide as Hc.
    + subst c. split.
      * intros [= <-]. by exists s.
      * intros (post & Hs & Hv). destruct v as [|c' v]; [done|].
        rewrite string_app_cons in Hs. injection Hs as -> ->.
        simpl in Hv. by rewrite bool_decide_eq_true_2 in Hv.
    + rewrite fmap_Some. setoid_rewrite IH. split.
      * intros (v' & (post & -> & Hv') & ->). exists post.
        rewrite string_app_cons. split; [done|]. simpl.
        by rewrite bool_decide_eq_false_2.
      * intros (post & Hs & Hv). destruct v as [|c' v].
        -- rewrite string_app_nil_l in Hs. by injection Hs as -> ->.
        -- rewrite string_app_cons in Hs. injection Hs as -> ->.
           simpl in Hv. apply orb_false_iff in Hv as [_ Hv].
           exists v. split; [|done]. by exists post.
Qed.

Lemma matchHere_occursAt (q : ascii) (key s v : string) :
  Js.isWhiteSpace q = false →
  matchHere q key s = Some v ↔ occursAt q key s "" v.
Proof.
  intros Hq. assert (Js.isWhiteSpace COLON = false) as Hcolon by done.
  unfold matchHere, occursAt. split.
  - intros Hm.
    destruct (stripChar q s) as [r1|] eqn:H1; [|done]. simpl in Hm.
    destruct (stripLiteral_i key r1) as [r2|] eqn:H2; [|done]. simpl in Hm.
    destruct (stripChar q r2) as [r3|] eqn:H3; [|done]. simpl in Hm.
    destruct (stripChar COLON (skipSpace r3)) as [r4|] eqn:H4; [|done]. simpl in Hm.
    destruct (stripChar q (skipSpace r4)) as [r5|] eqn:H5; [|done]. simpl in Hm.
    destruct (takeUntilQuote q r5) as [v'|] eqn:H6; [|done]. simpl in Hm.
    case_bool_decide as Hv; [done|]. injection Hm as ->.
    apply stripChar_Some in H1 as ->.
    apply stripLiteral_i_Some in H2 as (key' & -> & Hkey).
    apply stripChar_Some in H3 as ->.
    apply skipSpace_stripChar in H4 as (ws1 & -> & Hws1); [|done].
    apply skipSpace_stripChar in H5 as (ws2 & -> & Hws2); [|done].
    apply takeUntilQuote_Some in H6 as (post & -> & Hno).
    exists key', ws1, ws2, post. rewrite string_app_nil_l, !string_app_cons.
    done.
  - intros (key' & ws1 & ws2 & post & -> & Hkey & Hws1 & Hws2 & Hv & Hno).
    rewrite string_app_nil_l, !string_app_cons.
    rewrite (proj2 (stripChar_Some q _ _) eq_refl). cbn [mbind option_bind].
    rewrite (proj2 (stripLiteral_i_Some key _ _)
               (ex_intro _ key' (conj eq_refl Hkey))). cbn [mbind option_bind].
    rewrite (proj2 (stripChar_Some q _ _) eq_refl). cbn [mbind option_bind].
    rewrite (proj2 (skipSpace_stripChar COLON _ _ Hcolon)
               (ex_intro _ ws1 (conj eq_refl Hws1))). cbn [mbind option_bind].
    rewrite (proj2 (skipSpace_stripChar q _ _ Hq)
               (ex_intro _ ws2 (conj eq_refl Hws2))). cbn [mbind option_bind].
    rewrite (proj2 (takeUntilQuote_Some q _ v)
               (ex_intro _ post (conj eq_refl Hno))). cbn [mbind option_bind].
    by rewrite bool_decide_eq_false_2.
Qed.

Lemma occursAt_cons (q : ascii) (key s pre v : string) (c : ascii) :
  occursAt q key (String c s) (String c pre) v ↔ occursAt q key s pre v.
Proof.
  unfold occursAt. split.
  - intros (key' & ws1 & ws2 & post & Hs & Hrest). exists key', ws1, ws2, post.
    split; [|done]. rewrite string_app_cons in Hs. by injection Hs.
  - intros (key' & ws1 & ws2 & post & -> & Hrest). exists key', ws1, ws2, post.
    split; [|done]. by rewrite string_app_cons.
Qed.

Lemma occursAt_head (q : ascii) (key s pre v : string) (c c' : ascii) :
  occursAt q key (String c s) (String c' pre) v → c' = c.
Proof.
  intros (key' & ws1 & ws2 & post & Hs & _).
  rewrite string_app_cons in Hs. by injection Hs.
Qed.

Lemma occursAt_empty (q : ascii) (key pre v : string) : ¬ occursAt q key "" pre v.
Proof.
  intros (key' & ws1 & ws2 & post & Hs & _).
  apply (f_equal String.length) in Hs. rewrite string_length_app in Hs.
  rewrite string_app_cons in Hs. simpl in Hs. lia.
Qed.

Lemma matchPattern_leftmost (q : ascii) (key s v : string) :
  Js.isWhiteSpace q = false →
  matchPattern q key s = Some v ↔ leftmostValue q key s v.
Proof.
  intros Hq. unfold leftmostValue. revert v. induction s as [|c s IH]; intros v.
  - simpl. split; [done|]. intros (pre & Hocc & _). by apply occursAt_empty in Hocc.
  - cbn [matchPattern].
    destruct (matchHere q key (String c s)) as [v0|] eqn:Hhere.
    + apply (matchHere_occursAt _ _ _ _ Hq) in Hhere. split.
      * intros [= <-]. exists "". split; [done|]. intros. simpl. lia.
      * intros (pre & Hocc & Hmin). specialize (Hmin "" v0 Hhere).
        destruct pre as [|c' pre]; [|simpl in Hmin; lia].
        apply (matchHere_occursAt _ _ _ _ Hq) in Hhere, Hocc. congruence.
    + rewrite IH. split.
      * intros (pre & Hocc & Hmin). exists (String c pre).
        split; [exact (proj2 (occursAt_cons _ _ _ _ _ _) Hocc)|]. intros pre' v' Hocc'.
        destruct pre' as [|c' pre'].
        { apply (matchHere_occursAt _ _ _ _ Hq) in Hocc'. congruence. }
        pose proof (occursAt_head _ _ _ _ _ _ _ Hocc') as ->.
        apply occursAt_cons in Hocc'. specialize (Hmin _ _ Hocc'). simpl. lia.
      * intros (pre & Hocc & Hmin). destruct pre as [|c' pre].
        { apply (matchHere_occursAt _ _ _ _ Hq) in Hocc. congruence. }
        pose proof (occursAt_head _ _ _ _ _ _ _ Hocc) as ->.
        exists pre. split; [exact (proj1 (occursAt_cons _ _ _ _ _ _) Hocc)|].
        intros pre' v' Hocc'.
        apply (proj2 (occursAt_cons q key s pre' v' c)) in Hocc'.
        specialize (Hmin _ _ Hocc'). simpl in Hmin. lia.
Qed.

Lemma matchPattern_None (q : ascii) (key s : string) :
  Js.isWhiteSpace q = false →
  matchPattern q key s = None ↔ ∀ pre v, ¬ occursAt q key s pre v.
Proof.
  intros Hq. induction s as [|c s IH].
  - simpl. split; [|done]. intros _ pre v. apply occursAt_empty.
  - cbn [matchPattern].
    destruct (matchHere q key (String c s)) as [v0|] eqn:Hhere.
    + apply (matchHere_occursAt _ _ _ _ Hq) in Hhere. split; [done|].
      intros Hno. by apply Hno in Hhere.
    + rewrite IH. split.
      * intros Hno pre v Hocc. destruct pre as [|c' pre].
        { apply (matchHere_occursAt _ _ _ _ Hq) in Hocc. congruence. }
        pose proof (occursAt_head _ _ _ _ _ _ _ Hocc) as ->.
        apply occursAt_cons in Hocc. by apply Hno in Hocc.
      * intros Hno pre v Hocc. apply (Hno (String c pre) v).
        by apply occursAt_cons.
Qed.

Lemma leftmostValue_nonempty (q : ascii) (key s v : string) :
  leftmostValue q key s v → v ≠ "".
Proof. by intros (pre & (? & ? & ? & ? & ? & ? & ? & ? & ? & ?) & _). Qed.

Lemma matchValue_scanned (key html v : string) :
  matchValue html [(DQUOTE, key); (SQUOTE, key)] = Some v ↔ scannedValue key html v.
Proof.
  unfold scannedValue. cbn [matchValue].
  destruct (matchPattern DQUOTE key html) as [v1|] eqn:H1.
  - pose proof (proj1 (matchPattern_leftmost DQUOTE key html v1 eq_refl) H1) as Hl.
    rewrite (truthy_Some v1) by by eapply leftmostValue_nonempty.
    rewrite <- (matchPattern_leftmost DQUOTE key html v eq_refl), H1.
    split; [by left|]. intros [?|[Hno _]]; [done|]. exfalso.
    destruct Hl as (pre & Hocc & _). by apply Hno in Hocc.
  - simpl.
    destruct (matchPattern SQUOTE key html) as [v2|] eqn:H2.
    + pose proof (proj1 (matchPattern_leftmost SQUOTE key html v2 eq_refl) H2) as Hl.
      rewrite (truthy_Some v2) by by eapply leftmostValue_nonempty.
      rewrite <- (matchPattern_leftmost DQUOTE key html v eq_refl), H1.
      rewrite <- (matchPattern_leftmost SQUOTE key html v eq_refl), H2.
      rewrite <- (matchPattern_None DQUOTE key html eq_refl). naive_solver.
    + simpl.
      rewrite <- (matchPattern_leftmost DQUOTE key html v eq_refl), H1.
      rewrite <- (matchPattern_leftmost SQUOTE key html v eq_refl), H2.
      naive_solver.
Qed.

Lemma matchValue_truthy (key html : string) :
  Js.truthy (matchValue html [(DQUOTE, key); (SQUOTE, key)])
  = bool_decide (is_Some (matchValue html [(DQUOTE, key); (SQUOTE, key)])).
Proof.
  destruct (matchValue html _) as [v|] eqn:Hm; [|done].
  apply matchValue_scanned in Hm.
  rewrite truthy_Some; [done|].
  destruct Hm as [Hl|[_ Hl]]; by eapply leftmostValue_nonempty.
Qed.

End HtmlScanFacts.

(** X20: the identifiers scanned from a listing's page.  Each field is
    the value of the leftmost double-quoted occurrence of its key (the
    key between quotes in any letter case, a colon with optional white
    space around it, and a non-empty quoted value) or, only when there is
    no double-quoted occurrence, of the leftmost single-quoted one, and
    it is absent when there is neither; the scan reports nothing exactly
    when all three fields are absent. *)
Theorem X20_identifiersOfHtml (html : string) :
  (∀ ids, identifiersOfHtml html = Some ids →
     (is_Some (Identifiers.itemId ids) ∨ is_Some (Identifiers.itemGroupId ids)
      ∨ is_Some (Identifiers.legacyItemId ids)) ∧
     (∀ v, Identifiers.itemId ids = Some v ↔ scannedValue "itemId" html v) ∧
     (∀ v, Identifiers.itemGroupId ids = Some v
           ↔ scannedValue "itemGroupId" html v) ∧
     (∀ v, Identifiers.legacyItemId ids = Some v
           ↔ scannedValue "legacyItemId" html v)) ∧
  (identifiersOfHtml html = None ↔
     ∀ key v, key ∈ ["itemId"; "itemGroupId"; "legacyItemId"] →
              ¬ scannedValue key html v).
Proof.
  unfold identifiersOfHtml. cbn [Identifiers.itemId Identifiers.itemGroupId
                                 Identifiers.legacyItemId].
  rewrite !matchValue_truthy. split.
  - intros ids Hids.
    destruct (bool_decide _ || bool_decide _ || bool_decide _) eqn:Hany; [|done].
    injection Hids as <-. simpl. split.
    + apply orb_true_iff in Hany as [Hany|Hany];
        [apply orb_true_iff in Hany as [Hany|Hany]|];
        apply bool_decide_eq_true_1 in Hany; auto.
    + split_and!; intros v; apply matchValue_scanned.
  - destruct (bool_decide _ || bool_decide _ || bool_decide _) eqn:Hany.
    + split; [done|]. intros Hno. exfalso.
      apply orb_true_iff in Hany as [Hany|Hany];
        [apply orb_true_iff in Hany as [Hany|Hany]|];
        apply bool_decide_eq_true_1 in Hany; destruct Hany as [v Hv];
        apply matchValue_scanned in Hv; apply Hno in Hv; try done;
        rewrite !elem_of_cons; auto.
    + split; [|done]. intros _ key v Hkey Hv.
      apply orb_false_iff in Hany as [Hany H3].
      apply orb_false_iff in Hany as [H1 H2].
      apply bool_decide_eq_false_1 in H1, H2, H3.
      apply matchValue_scanned in Hv.
      repeat (apply elem_of_cons in Hkey as [->|Hkey]);
        [apply H1|apply H2|apply H3|by apply elem_of_nil in Hkey]; eauto.
Qed.

Lemma X20_identifiersOfHtml_witness :
  let html := "<script>var a = {'ITEMID' : 'v1|123|0', 'legacyItemId':''};</script>" in
  ∃ ids, identifiersOfHtml html = Some ids ∧
         Identifiers.itemId ids = Some "v1|123|0" ∧
         Identifiers.legacyItemId ids = None ∧
         scannedValue "itemId" html "v1|123|0".
Proof.
  eexists. split; [vm_compute; reflexivity|].
  split; [reflexivity|]. split; [reflexivity|].
  refine (proj1 (proj1 (proj2 (proj1 (X20_identifiersOfHtml _) _ _)) _) _);
    vm_compute; reflexivity.
Defined.

(** ** Normalised aspect values *)

Section NormFacts.

Lemma trimStart_trim (s : string) : Js.trimStart (Js.trim s) = Js.trim s.
Proof. unfold Js.trim. apply trimStart_trimEnd, trimStart_fixed. Qed.

Lemma trimEnd_trim (s : string) : Js.trimEnd (Js.trim s) = Js.trim s.
Proof. unfold Js.trim. apply trimEnd_idem. Qed.

Lemma trimStart_head (s : string) :
  Js.trimStart s = s → s ≠ "" →
  ∃ c s', s = String c s' ∧ Js.isWhiteSpace c = false.
Proof.
  destruct s as [|c s]; [done|]. intros Heq _. exists c, s. split; [done|].
  destruct (Js.isWhiteSpace c) eqn:Hc; [|done]. exfalso. simpl in Heq.
  rewrite Hc in Heq.
  assert (∀ t, String.length (Js.trimStart t) ≤ String.length t)%nat as Hle.
  { clear. induction t as [|e t IH]; simpl; [lia|].
    destruct (Js.isWhiteSpace e); simpl; lia. }
  specialize (Hle s). rewrite Heq in Hle. simpl in Hle. lia.
Qed.

Lemma trimStart_app (a b : string) :
  Js.trimStart a = a → a ≠ "" → Js.trimStart (a +:+ b) = a +:+ b.
Proof.
  intros Ha Hne. destruct (trimStart_head a Ha Hne) as (c & a' & -> & Hc).
  rewrite string_app_cons. simpl. by rewrite Hc.
Qed.

Lemma trimEnd_app (a b : string) :
  Js.trimEnd b ≠ "" → Js.trimEnd (a +:+ b) = a +:+ Js.trimEnd b.
Proof.
  intros Hb. induction a as [|c a IH]; [by rewrite !string_app_nil_l|].
  rewrite !string_app_cons. simpl. rewrite IH.
  rewrite (bool_decide_eq_false_2 (a +:+ Js.trimEnd b = "")).
  - by rewrite andb_false_r.
  - destruct a; [by rewrite string_app_nil_l|by rewrite string_app_cons].
Qed.

(** Joining trimmed, non-empty parts gives a trimmed, non-empty text. *)
Lemma join_trimmed (sep : string) (parts : list string) :
  Forall (λ p, p ≠ "" ∧ Js.trimStart p = p ∧ Js.trimEnd p = p) parts →
  parts ≠ [] →
  Js.join sep parts ≠ "" ∧
  Js.trimStart (Js.join sep parts) = Js.join sep parts ∧
  Js.trimEnd (Js.join sep parts) = Js.join sep parts.
Proof.
  induction 1 as [|p parts (Hne & Hs & He) Hall IH]; [done|]. intros _.
  destruct parts as [|p' parts]; [done|].
  destruct IH as (IHne & IHs & IHe); [done|].
  change (Js.join sep (p :: p' :: parts))
    with (p +:+ sep +:+ Js.join sep (p' :: parts)).
  split_and!.
  - destruct p; [done|by rewrite string_app_cons].
  - by apply trimStart_app.
  - rewrite <- string_app_assoc at 1. rewrite trimEnd_app by by rewrite IHe.
    by rewrite IHe, string_app_assoc.
Qed.

End NormFacts.

(** X21: a normalised aspect value is never empty and has no surrounding
    white space.  A scalar is normalised to its trimmed text; an array to
    its trimmed non-blank elements joined by [ / ]; the value is dropped
    exactly when it is nullish, a blank scalar, or an array without a
    non-blank element. *)
Theorem X21_normAspectValue (value : AspectValue) :
  (∀ s, normAspectValue value = Some s → s ≠ "" ∧ Js.trim s = s) ∧
  (∀ str, value = ValScalar str →
     normAspectValue value = if bool_decide (Js.trim str = "") then None
                             else Some (Js.trim str)) ∧
  (∀ elems, value = ValArray elems →
     let parts :=
       filter (λ p, p ≠ "") ((λ v, Js.trim (default "null" v)) <$> elems) in
     normAspectValue value = if bool_decide (parts = []) then None
                             else Some (Js.join " / " parts)) ∧
  (value = ValNullish → normAspectValue value = None).
Proof.
  assert (Hparts : ∀ elems : list (option string),
    Js.filter_truthy ((λ v, Some (Js.trim (default "null" v))) <$> elems)
    = filter (λ p, p ≠ "") ((λ v, Js.trim (default "null" v)) <$> elems)).
  { induction elems as [|e elems IH]; [done|].
    rewrite !fmap_cons, filter_truthy_cons, filter_cons, IH. simpl.
    case_bool_decide as He.
    - by rewrite decide_False by (by intros ?).
    - by rewrite decide_True. }
  assert (Hjoin : ∀ elems : list (option string),
    let parts :=
      filter (λ p, p ≠ "") ((λ v, Js.trim (default "null" v)) <$> elems) in
    parts ≠ [] →
    Js.join " / " parts ≠ "" ∧ Js.trim (Js.join " / " parts) = Js.join " / " parts).
  { intros elems parts Hne.
    destruct (join_trimmed " / " parts) as (H1 & H2 & H3); [|done|].
    - apply Forall_forall. intros p Hp. unfold parts in Hp.
      apply list_elem_of_filter in Hp as [Hp Hin].
      apply list_elem_of_fmap in Hin as (e & -> & _).
      split_and!; [done|apply trimStart_trim|apply trimEnd_trim].
    - split; [done|]. unfold Js.trim. by rewrite H2, H3. }
  split_and!.
  - intros s. destruct value as [|elems|str]; simpl; [done| |].
    + rewrite Hparts. case_bool_decide as Hj; [done|]. intros [= <-].
      apply Hjoin. intros Hnil. by rewrite Hnil in Hj.
    + case_bool_decide as Ht; [done|]. intros [= <-]. split; [done|].
      apply trim_idem.
  - by intros str ->.
  - intros elems ->. simpl. rewrite Hparts.
    case_bool_decide as Hj; case_bool_decide as Hn; try done.
    + exfalso. by apply (Hjoin elems).
    + exfalso. by rewrite Hn in Hj.
  - by intros ->.
Qed.

Lemma X21_normAspectValue_witness :
  normAspectValue (ValArray [Some " Red "; None; Some "  "; Some "XL"])
  = Some "Red / null / XL" ∧
  "Red / null / XL" ≠ "" ∧ Js.trim "Red / null / XL" = "Red / null / XL".
Proof.
  split; [vm_compute; reflexivity|].
  apply (proj1 (X21_normAspectValue
                  (ValArray [Some " Red "; None; Some "  "; Some "XL"]))).
  vm_compute. reflexivity.
Defined.

(** ** The candidates of the direct item fetch *)

Section CandidateFacts.

Lemma foldl_set_add_head (xs acc : list string) (x : string) :
  head (foldl Js.set_add (x :: acc) xs) = Some x.
Proof.
  revert acc. induction xs as [|y xs IH]; intros acc; [done|]. simpl.
  unfold Js.set_add at 2. case_decide; [apply IH|].
  change ((x :: acc) ++ [y]) with (x :: (acc ++ [y])). apply IH.
Qed.

End CandidateFacts.

(** X22: the identifiers tried by the direct item fetch are pairwise
    distinct and non-empty; each of them is the scraped item id, the
    scraped legacy id in the form [v1|<id>|0], the numeric id in the form
    [v1|<numeric>|0], or the numeric id itself; a non-empty scraped item
    id comes first, the form [v1|<numeric>|0] is always among them, and
    there are at most four, so at most four direct fetches are made. *)
Theorem X22_candidateItemIds (scraped : option Identifiers.t) (numeric : string) :
  let candidates := candidateItemIds scraped numeric in
  NoDup candidates ∧ ("" ∉ candidates) ∧
  (1 ≤ length candidates ≤ 4)%nat ∧
  "v1|" +:+ numeric +:+ "|0" ∈ candidates ∧
  (numeric ≠ "" → numeric ∈ candidates) ∧
  (∀ id, scraped ≫= Identifiers.itemId = Some id → id ≠ "" →
         head candidates = Some id) ∧
  ∀ c, c ∈ candidates →
    scraped ≫= Identifiers.itemId = Some c ∨
    (∃ legacy, scraped ≫= Identifiers.legacyItemId = Some legacy ∧ legacy ≠ ""
               ∧ c = "v1|" +:+ legacy +:+ "|0") ∨
    c = "v1|" +:+ numeric +:+ "|0" ∨ c = numeric.
Proof.
  cbv zeta. unfold candidateItemIds.
  set (raw := [scraped ≫= Identifiers.itemId;
               if Js.truthy (scraped ≫= Identifiers.legacyItemId)
               then Some ("v1|" +:+ default "" (scraped ≫= Identifiers.legacyItemId)
                          +:+ "|0") else None;
               Some ("v1|" +:+ numeric +:+ "|0"); Some numeric]).
  assert (Hv1 : "v1|" +:+ numeric +:+ "|0" ≠ "") by by rewrite string_app_cons.
  assert (Hin : ∀ c, c ∈ Js.array_from_set (Js.filter_truthy raw)
                     ↔ c ≠ "" ∧ Some c ∈ raw).
  { intros c. by rewrite array_from_set_elem, filter_truthy_elem. }
  assert (Hmem : "v1|" +:+ numeric +:+ "|0"
                 ∈ Js.array_from_set (Js.filter_truthy raw)).
  { apply Hin. split; [done|]. unfold raw. rewrite !elem_of_cons. auto. }
  split_and!.
  - apply array_from_set_NoDup.
  - rewrite Hin. tauto.
  - destruct (Js.array_from_set _); [by apply elem_of_nil in Hmem|simpl; lia].
  - etrans; [apply array_from_set_length|].
    etrans; [apply filter_truthy_length|]. done.
  - done.
  - intros Hnum. apply Hin. split; [done|]. unfold raw. rewrite !elem_of_cons. auto.
  - intros id Hid Hne. unfold raw. rewrite Hid.
    rewrite filter_truthy_cons, truthy_Some by done.
    unfold Js.array_from_set. cbn [app foldl default].
    unfold Js.set_add at 2. rewrite decide_False by apply not_elem_of_nil.
    apply foldl_set_add_head.
  - intros c (Hne & Hc)%Hin. unfold raw in Hc. rewrite !elem_of_cons in Hc.
    destruct Hc as [Hc|[Hc|[Hc|[Hc|Hc]]]].
    + by left.
    + right; left. destruct (scraped ≫= Identifiers.legacyItemId) as [legacy|];
        simpl in Hc; [|done].
      case_bool_decide; simpl in Hc; [done|]. injection Hc as ->. by exists legacy.
    + right; right; left. by injection Hc.
    + right; right; right. by injection Hc.
    + by apply elem_of_nil in Hc.
Qed.

Lemma X22_candidateItemIds_witness :
  let candidates :=
    candidateItemIds (Some (Identifiers.mk (Some "v1|7|0") None (Some "7"))) "7" in
  head candidates = Some "v1|7|0" ∧ "7" ∈ candidates ∧ length candidates = 2.
Proof.
  pose proof (X22_candidateItemIds
                (Some (Identifiers.mk (Some "v1|7|0") None (Some "7"))) "7")
    as (_ & _ & _ & _ & Hnum & Hhead & _).
  split_and!.
  - apply (Hhead "v1|7|0"); [reflexivity|discriminate].
  - apply Hnum. discriminate.
  - vm_compute. reflexivity.
Defined.

(** ** The application token *)

(** X23: the application token is fetched at most once per validity
    window.  A call that succeeds leaves the returned token in the cache;
    a call that fails leaves the cache as it was; and as long as more
    than 60 seconds remain before the cached expiry, a further call
    returns the cached token without any request and without touching the
    cache.  A token obtained at time [t] with lifetime [expires_in]
    expires at [t + expires_in]. *)
Theorem X23_token_cache {World : Type} (nowSeconds : World → Z)
    (fetchToken : World → result OAuthReply.t * World)
    (cachedToken : option Token.t) (w : World) :
  (∀ e c' w', getAppToken nowSeconds fetchToken cachedToken w = (Throw e, c', w') →
     c' = cachedToken) ∧
  (∀ token c' w',
     getAppToken nowSeconds fetchToken cachedToken w = (Ok token, c', w') →
     (∃ t, c' = Some t ∧ Token.access_token t = token ∧
        (c' = cachedToken ∧ w' = w ∨
         ∃ res, fetchToken w = (Ok res, w') ∧
                Token.expires_at t
                = (nowSeconds w' + OAuthReply.json_expires_in res)%Z)) ∧
     ∀ w2 t, c' = Some t → (nowSeconds w2 < Token.expires_at t - 60)%Z →
       getAppToken nowSeconds fetchToken c' w2 = (Ok token, c', w2)).
Proof.
  split.
  - intros e c' w'. unfold getAppToken.
    destruct (match cachedToken with Some _ => _ | None => _ end); [done|].
    destruct (fetchToken w) as [[res|e'] w1]; [|by intros [= _ <- _]].
    destruct (negb (OAuthReply.ok res)); [by intros [= _ <- _]|done].
  - intros token c' w' Hcall.
    assert (∃ t, c' = Some t ∧ Token.access_token t = token ∧
        (c' = cachedToken ∧ w' = w ∨
         ∃ res, fetchToken w = (Ok res, w') ∧
                Token.expires_at t
                = (nowSeconds w' + OAuthReply.json_expires_in res)%Z))
      as (t & -> & Htok & Hwhere).
    { unfold getAppToken in Hcall.
      destruct cachedToken as [t0|].
      - case_bool_decide.
        + injection Hcall as <- <- <-. exists t0. split_and!; [done|done|by left].
        + destruct (fetchToken w) as [[res|e'] w1]; [|done].
          destruct (negb (OAuthReply.ok res)); [done|].
          injection Hcall as <- <- <-. eexists. split_and!; [done|done|].
          right. by exists res.
      - destruct (fetchToken w) as [[res|e'] w1]; [|done].
        destruct (negb (OAuthReply.ok res)); [done|].
        injection Hcall as <- <- <-. eexists. split_and!; [done|done|].
        right. by exists res. }
    split; [by exists t|].
    intros w2 t' [= <-] Hfresh. unfold getAppToken.
    rewrite bool_decide_eq_true_2 by lia. by rewrite Htok.
Qed.

Lemma X23_token_cache_witness :
  let nowSeconds (w : Z) := w in
  let fetchToken (w : Z) :=
    (Ok (OAuthReply.mk true "200" "" "tok-1" 7200), (w + 2)%Z) in
  getAppToken nowSeconds fetchToken None 1000%Z
  = (Ok "tok-1", Some (Token.mk "tok-1" 8202), 1002%Z) ∧
  getAppToken nowSeconds fetchToken (Some (Token.mk "tok-1" 8202)) 8141%Z
  = (Ok "tok-1", Some (Token.mk "tok-1" 8202), 8141%Z).
Proof.
  split; [reflexivity|].
  refine (proj2 (proj2 (X23_token_cache (λ w : Z, w)
            (λ w : Z, (Ok (OAuthReply.mk true "200" "" "tok-1" 7200), (w + 2)%Z))
            None 1000%Z) "tok-1" _ 1002%Z _) 8141%Z _ _ _).
  - reflexivity.
  - reflexivity.
  - simpl. lia.
Defined.

(** ** No roll-back *)

(** X24: once the product has been created on the platform, its id,
    handle and title are reported in the result whatever happens
    afterwards: a failure of the media upload, of the bulk creation of
    variants or of the attachment of media gives a failed result that
    still names the created product.  Nothing is undone. *)
Theorem X24_created_product_reported `{Collaborators World}
    (sourceUrl numeric : string) (w w1 w2 w3 : World)
    (itemOrGroup : option EbayData) (isGroup : bool) (payload : Canonical.t)
    (r2 : ImportResult.t) (built : Payload.t) (created : Product.t) :
  parseNumericTail sourceUrl = Some numeric → numeric ≠ "" →
  resolve sourceUrl numeric w = (Ok (itemOrGroup, isGroup), w1) →
  payloadOf itemOrGroup isGroup
    (ImportResult.set_legacyItemId (Some numeric) (freshResult sourceUrl)) w1
  = (Ok payload, r2, w2) →
  buildShopifyProductInputFromEbay payload = Ok built →
  productCreate (Payload.productInput built) w2 = (Ok created, w3) →
  let r := (importUrl sourceUrl w).1 in
  ImportResult.productId r = Some (Product.id created) ∧
  ImportResult.handle r = Some (Product.handle created) ∧
  ImportResult.title r = Some (Product.title created) ∧
  ImportResult.legacyItemId r = Some numeric ∧
  (ImportResult.status r = "failed" → is_Some (ImportResult.error r)).
Proof.
  intros Hnum Hne Hres Hpayload Hbuild Hcreate. cbv zeta.
  pose proof (payloadOf_result itemOrGroup isGroup
    (ImportResult.set_legacyItemId (Some numeric) (freshResult sourceUrl)) w1) as Hr.
  rewrite Hpayload in Hr. simpl in Hr. subst r2.
  unfold importUrl, importBody. rewrite Hnum, (truthy_Some numeric Hne).
  change (default "" (Some numeric)) with numeric.
  unfold bind, ret, throw, modify_r, call, lift.
  cbn beta iota zeta delta [negb].
  rewrite Hres. cbn beta iota zeta.
  unfold freshResult in Hpayload. rewrite Hpayload. cbn beta iota zeta.
  rewrite Hbuild. cbn beta iota zeta.
  rewrite Hcreate. cbn beta iota zeta. clear Hbuild Hcreate.
  generalize (mediaInputsOf (ProductInput.title (Payload.productInput built))
                (orderedImagesOf (Payload.variantAssets built)
                   (Canonical.imageUrls payload))).
  intros mediaInputs.
  destruct (bool_decide (0 < length mediaInputs)).
  - destruct (productCreateMedia _ _ w3) as [[media|e] w4]; cbn beta iota zeta;
      [|shape_done].
    destruct (productVariantsBulkCreate _ _ w4) as [[createdVariants|e] w5];
      cbn beta iota zeta; [|shape_done].
    destruct (bool_decide (0 < length _)).
    + destruct (productVariantAppendMedia _ _ w5) as [[[]|e] w6];
        cbn beta iota zeta; [|shape_done].
      destruct (Payload.meta built) as [m|]; [case_bool_decide|]; shape_done.
    + destruct (Payload.meta built) as [m|]; [case_bool_decide|]; shape_done.
  - destruct (productVariantsBulkCreate _ _ w3) as [[createdVariants|e] w5];
      cbn beta iota zeta; [|shape_done].
    destruct (bool_decide (0 < length _)).
    + destruct (productVariantAppendMedia _ _ w5) as [[[]|e] w6];
        cbn beta iota zeta; [|shape_done].
      destruct (Payload.meta built) as [m|]; [case_bool_decide|]; shape_done.
    + destruct (Payload.meta built) as [m|]; [case_bool_decide|]; shape_done.
Qed.

Lemma X24_created_product_reported_witness :
  let r := (importUrl (World:=nat) "https://www.ebay.com/itm/262742221410" 0).1 in
  is_Some (ImportResult.productId r) ∧
  ImportResult.legacyItemId r = Some "262742221410".
Proof.
  edestruct (X24_created_product_reported (World:=nat)
               "https://www.ebay.com/itm/262742221410" "262742221410" 0)
    as (Hid & _ & _ & Hlegacy & _).
  - vm_compute. reflexivity.
  - discriminate.
  - vm_compute. reflexivity.
  - vm_compute. reflexivity.
  - vm_compute. reflexivity.
  - vm_compute. reflexivity.
  - split; [by eexists|exact Hlegacy].
Defined.

(** ** The history after a request *)

(** X25: after a request that is accepted, the history is the request's
    results, newest first, followed by the former history, cut to 50
    entries; and it is what the history endpoint returns. *)
Theorem X25_history_after_request `{Collaborators World} (body : option Body.t)
    (w : World) (cache : list ImportResult.t) :
  (length cache ≤ 50)%nat → requestUrls body ≠ [] →
  ∃ results w',
    POST (Ok body) w cache
    = (Json results, w', take 50 (reverse results ++ cache)) ∧
    _getImportedCache (POST (Ok body) w cache).2
    = take 50 (reverse results ++ cache).
Proof.
  intros Hlen Hne. rewrite (POST_ok body w cache Hne).
  eexists _, _. rewrite recordAll_take by done. done.
Qed.

Lemma X25_history_after_request_witness :
  ∃ results w',
    POST (World:=nat)
      (Ok (Some (Body.mk (Some "https://www.ebay.com/itm/262742221410") None)))
      0 []
    = (Json results, w', take 50 (reverse results ++ [])) ∧
    length results = 1.
Proof.
  destruct (X25_history_after_request (World:=nat)
              (Some (Body.mk (Some "https://www.ebay.com/itm/262742221410") None))
              0 []) as (results & w' & HPOST & _).
  - simpl. lia.
  - vm_compute. discriminate.
  - exists results, w'. split; [exact HPOST|].
    vm_compute in HPOST. injection HPOST as <- _ _. reflexivity.
Defined.
